(** * VTFS server: a shallow embedding of the filesystem service

    The development follows the layers of the Go server:

    - [models]            (internal/models/models.go)
    - [kerrors]           (internal/pkg/kerrors)
    - the relational store (migrations/001_init.sql): four tables with
      their primary keys, foreign keys and ON DELETE CASCADE rules;
    - the repositories    (internal/repository): one SQL statement per method;
    - [WithTransaction]   (pkg/database/postgresql/transaction.go);
    - the service         (internal/service/filesystem.go);
    - the handler's error mapping (internal/handler/handler.go).

    Go integers are modelled as [Z] with the wrap-around written out where
    the code can overflow.  The store is modelled as lists of rows; every
    client call (Begin, a statement, Commit) may fail, which is decided by a
    fault plan carried in the world.  Failures of the store that the schema
    does not describe (lost connections, column widths, blob limits) are
    covered by that plan.  Logging is not modelled. *)

From Stdlib Require Import ZArith String Ascii Bool Lia.
From Stdlib.Strings Require Import Byte.
From Stdlib Require Import List.
From Stdlib Require Import Permutation Sorted.
Import ListNotations.

Open Scope string_scope.
Open Scope list_scope.
Open Scope Z_scope.

(** ** Machine integers *)

(** Go's int64 arithmetic wraps around in two's complement. *)
Definition wrap64 (z : Z) : Z := (z + 2 ^ 63) mod 2 ^ 64 - 2 ^ 63.

(** Go's uint64 arithmetic wraps around modulo 2^64. *)
Definition wrapU64 (z : Z) : Z := z mod 2 ^ 64.

Definition MaxInt64 : Z := 2 ^ 63 - 1.

(** ** internal/pkg/kerrors *)

Module kerrors.
Definition EPERM : Z := 1.
Definition ENOENT : Z := 2.
Definition ENOMEM : Z := 12.
Definition EEXIST : Z := 17.
Definition ENOTDIR : Z := 20.
Definition EISDIR : Z := 21.
Definition EINVAL : Z := 22.
Definition ENOTEMPTY : Z := 39.
Definition ENOMEM_NEG : Z := - ENOMEM.
End kerrors.

(** ** internal/models/models.go *)

(** [NodeType] is an int16 with two named constants. *)
Definition NodeTypeDir : Z := 0.
Definition NodeTypeFile : Z := 1.

Record NodeMeta := mkNodeMeta {
  meta_Ino : Z;
  meta_ParentIno : Z;
  meta_Type : Z;
  meta_Mode : Z;
  meta_Size : Z
}.

Record Dirent := mkDirent {
  dirent_Name : string;
  dirent_Ino : Z;
  dirent_Type : Z
}.

Record Inode := mkInode {
  inode_Ino : Z;
  inode_Token : string;
  inode_Type : Z;
  inode_Mode : Z;
  inode_Size : Z;
  inode_RefCount : Z
}.

Record Filesystem := mkFilesystem {
  fs_Token : string;
  fs_RootIno : Z;
  fs_NextIno : Z
}.

(** ** Constants of the service and of the repositories *)

Definition VTFS_ROOT_INO : Z := 1000.
Definition VTFS_ROOT_MODE : Z := 511.   (* 0777 *)
Definition S_IFDIR : Z := 16384.        (* 0o040000 *)
Definition S_IFREG : Z := 32768.        (* 0o100000 *)
Definition S_IRWXUGO : Z := 511.        (* 0o0777 *)

(** ** Errors and outcomes *)

(** The error values that travel through the server.  [PgxError] is what the
    pgx driver returns; [PqError] is lib/pq's error type, which the service
    tests for by type assertion; [Wrapped] is [fmt.Errorf("%s: %w", op, err)]. *)
Inductive error : Type :=
| ServiceError (Code : Z) (Message : string)
| PgxError (sqlstate : string)
| PqError (Code : string)
| Wrapped (op : string) (e : error).

(** A call returns a value, returns an error, or panics. *)
Inductive outcome (A : Type) : Type :=
| Ok (a : A)
| Err (e : error)
| Panic (msg : string).
Arguments Ok {A} a.
Arguments Err {A} e.
Arguments Panic {A} msg.

Definition is_ok {A} (r : outcome A) : bool :=
  match r with Ok _ => true | _ => false end.

Definition is_err {A} (r : outcome A) : bool :=
  match r with Err _ => true | _ => false end.

(** ** The store (migrations/001_init.sql) *)

Record de_row := mkEntry {
  de_token : string;
  de_parent_ino : Z;
  de_name : string;
  de_ino : Z
}.

Record fc_row := mkContent {
  fc_token : string;
  fc_ino : Z;
  fc_data : list byte
}.

(** The rows of [filesystems] are [Filesystem] values (created_at is not
    modelled) and the rows of [inodes] are [Inode] values. *)
Record DB := mkDB {
  filesystems : list Filesystem;
  inodes : list Inode;
  directory_entries : list de_row;
  file_contents : list fc_row
}.

Definition empty_db : DB := mkDB [] [] [] [].

(** Row predicates: the WHERE clauses of the statements. *)
Definition fs_at (token : string) (f : Filesystem) : bool :=
  String.eqb (fs_Token f) token.

Definition inode_at (token : string) (ino : Z) (i : Inode) : bool :=
  String.eqb (inode_Token i) token && (inode_Ino i =? ino).

Definition de_at (token : string) (parent : Z) (name : string) (e : de_row) : bool :=
  String.eqb (de_token e) token && (de_parent_ino e =? parent)
  && String.eqb (de_name e) name.

Definition de_in (token : string) (parent : Z) (e : de_row) : bool :=
  String.eqb (de_token e) token && (de_parent_ino e =? parent).

Definition de_to (token : string) (ino : Z) (e : de_row) : bool :=
  String.eqb (de_token e) token && (de_ino e =? ino).

Definition fc_at (token : string) (ino : Z) (c : fc_row) : bool :=
  String.eqb (fc_token c) token && (fc_ino c =? ino).

(** The result of a statement that can violate a constraint. *)
Inductive pg (A : Type) : Type :=
| PgOk (a : A) (d : DB)
| PgErr (sqlstate : string).
Arguments PgOk {A} a d.
Arguments PgErr {A} sqlstate.

Definition unique_violation : string := "23505".
Definition foreign_key_violation : string := "23503".
Definition connection_failure : string := "08006".

(** *** Table [filesystems] *)

Definition sql_select_filesystem (d : DB) (token : string) : option Filesystem :=
  find (fs_at token) (filesystems d).

(** INSERT INTO filesystems ... ON CONFLICT (token) DO NOTHING *)
Definition sql_insert_filesystem (d : DB) (token : string) (root next : Z) : DB :=
  if existsb (fs_at token) (filesystems d) then d
  else mkDB (filesystems d ++ [mkFilesystem token root next])
            (inodes d) (directory_entries d) (file_contents d).

(** UPDATE filesystems SET next_ino = next_ino + 1 WHERE token = $1 *)
Definition sql_increment_next_ino (d : DB) (token : string) : DB :=
  mkDB (map (fun f => if fs_at token f
                      then mkFilesystem (fs_Token f) (fs_RootIno f) (fs_NextIno f + 1)
                      else f) (filesystems d))
       (inodes d) (directory_entries d) (file_contents d).

(** *** Table [inodes] *)

Definition sql_select_inode (d : DB) (token : string) (ino : Z) : option Inode :=
  find (inode_at token ino) (inodes d).

(** INSERT INTO inodes: primary key (token, ino), token references filesystems. *)
Definition sql_insert_inode (d : DB) (i : Inode) : pg unit :=
  if existsb (inode_at (inode_Token i) (inode_Ino i)) (inodes d)
  then PgErr unique_violation
  else if negb (existsb (fs_at (inode_Token i)) (filesystems d))
  then PgErr foreign_key_violation
  else PgOk tt (mkDB (filesystems d) (inodes d ++ [i])
                     (directory_entries d) (file_contents d)).

(** SET size = $1 and SET ref_count = ref_count + $1 on one row. *)
Definition set_size (size : Z) (i : Inode) : Inode :=
  mkInode (inode_Ino i) (inode_Token i) (inode_Type i) (inode_Mode i)
          size (inode_RefCount i).

Definition add_ref_count (delta : Z) (i : Inode) : Inode :=
  mkInode (inode_Ino i) (inode_Token i) (inode_Type i) (inode_Mode i)
          (inode_Size i) (inode_RefCount i + delta).

(** UPDATE inodes SET size = $1 WHERE token = $2 AND ino = $3 *)
Definition sql_update_size (d : DB) (token : string) (ino size : Z) : DB :=
  mkDB (filesystems d)
       (map (fun i => if inode_at token ino i then set_size size i else i)
            (inodes d))
       (directory_entries d) (file_contents d).

(** UPDATE inodes SET ref_count = ref_count + $1 WHERE token = $2 AND ino = $3 *)
Definition sql_update_ref_count (d : DB) (token : string) (ino delta : Z) : DB :=
  mkDB (filesystems d)
       (map (fun i => if inode_at token ino i then add_ref_count delta i else i)
            (inodes d))
       (directory_entries d) (file_contents d).

(** DELETE FROM inodes WHERE token = $1 AND ino = $2.  The rows of
    [directory_entries] that reference the inode as target or as parent and
    the rows of [file_contents] that reference it are deleted with it
    (ON DELETE CASCADE). *)
Definition sql_delete_inode (d : DB) (token : string) (ino : Z) : DB :=
  if existsb (inode_at token ino) (inodes d) then
    mkDB (filesystems d)
         (filter (fun i => negb (inode_at token ino i)) (inodes d))
         (filter (fun e => negb (de_to token ino e) && negb (de_in token ino e))
                 (directory_entries d))
         (filter (fun c => negb (fc_at token ino c)) (file_contents d))
  else d.

(** *** Table [directory_entries] *)

Definition sql_select_entry (d : DB) (token : string) (parent : Z) (name : string)
  : option de_row :=
  find (de_at token parent name) (directory_entries d).

(** INSERT INTO directory_entries: primary key (token, parent_ino, name);
    (token, ino) and (token, parent_ino) reference inodes. *)
Definition sql_insert_entry (d : DB) (token : string) (parent : Z) (name : string)
    (ino : Z) : pg unit :=
  if existsb (de_at token parent name) (directory_entries d)
  then PgErr unique_violation
  else if negb (existsb (inode_at token ino) (inodes d)
                && existsb (inode_at token parent) (inodes d))
  then PgErr foreign_key_violation
  else PgOk tt (mkDB (filesystems d) (inodes d)
                     (directory_entries d ++ [mkEntry token parent name ino])
                     (file_contents d)).

Definition sql_delete_entry (d : DB) (token : string) (parent : Z) (name : string) : DB :=
  mkDB (filesystems d) (inodes d)
       (filter (fun e => negb (de_at token parent name e)) (directory_entries d))
       (file_contents d).

(** SELECT COUNT( * ) FROM directory_entries WHERE token = $1 AND parent_ino = $2 *)
Definition sql_count_entries (d : DB) (token : string) (parent : Z) : Z :=
  Z.of_nat (length (filter (de_in token parent) (directory_entries d))).

(** SELECT de.name, de.ino, i.type FROM directory_entries de JOIN inodes i
    ON de.token = i.token AND de.ino = i.ino
    WHERE de.token = $1 AND de.parent_ino = $2: one row per pair of an entry
    of the directory and an inode row of its target. *)
Definition sql_join_entries (d : DB) (token : string) (parent : Z) : list Dirent :=
  flat_map (fun e =>
              map (fun i => mkDirent (de_name e) (de_ino e) (inode_Type i))
                  (filter (inode_at (de_token e) (de_ino e)) (inodes d)))
           (filter (de_in token parent) (directory_entries d)).

(** *** Table [file_contents] *)

Definition sql_select_content (d : DB) (token : string) (ino : Z) : option fc_row :=
  find (fc_at token ino) (file_contents d).

(** INSERT INTO file_contents ... ON CONFLICT (token, ino) DO UPDATE SET data;
    (token, ino) references inodes. *)
Definition sql_upsert_content (d : DB) (token : string) (ino : Z) (data : list byte)
  : pg unit :=
  if negb (existsb (inode_at token ino) (inodes d))
  then PgErr foreign_key_violation
  else if existsb (fc_at token ino) (file_contents d)
  then PgOk tt (mkDB (filesystems d) (inodes d) (directory_entries d)
                     (map (fun c => if fc_at token ino c
                                    then mkContent (fc_token c) (fc_ino c) data
                                    else c) (file_contents d)))
  else PgOk tt (mkDB (filesystems d) (inodes d) (directory_entries d)
                     (file_contents d ++ [mkContent token ino data])).

Definition sql_delete_content (d : DB) (token : string) (ino : Z) : DB :=
  mkDB (filesystems d) (inodes d) (directory_entries d)
       (filter (fun c => negb (fc_at token ino c)) (file_contents d)).

(** ** The world: the store, the fault plan and a journal of client calls *)

(** Every call on the database client is recorded with its success. *)
Inductive event : Type :=
| EvBegin (ok : bool)
| EvStmt (op : string) (ok : bool)
| EvCommit (ok : bool)
| EvRollback.

(** [faults] is consumed one flag per client call ([true]: the call fails);
    an exhausted plan means no further faults. *)
Record World := mkWorld {
  db : DB;
  faults : list bool;
  journal : list event
}.

Definition M (A : Type) : Type := World -> outcome A * World.

Definition ret {A} (a : A) : M A := fun w => (Ok a, w).

Definition fail {A} (e : error) : M A := fun w => (Err e, w).

Definition panic {A} (msg : string) : M A := fun w => (Panic msg, w).

Definition bind {A B} (m : M A) (k : A -> M B) : M B :=
  fun w => match m w with
           | (Ok a, w') => k a w'
           | (Err e, w') => (Err e, w')
           | (Panic p, w') => (Panic p, w')
           end.

Declare Scope monad_scope.
Delimit Scope monad_scope with monad.
Notation "x <- m ;; k" := (bind m (fun x => k))
  (at level 61, m at next level, right associativity) : monad_scope.
Notation "m ;;; k" := (bind m (fun _ => k))
  (at level 61, right associativity) : monad_scope.
Open Scope monad_scope.

(** [if err != nil { return ..., f(err) }] *)
Definition mapErr {A} (f : error -> error) (m : M A) : M A :=
  fun w => match m w with
           | (Err e, w') => (Err (f e), w')
           | rw => rw
           end.

(** [fmt.Errorf("%s: %w", op, err)] *)
Definition wrapErr {A} (op : string) (m : M A) : M A := mapErr (Wrapped op) m.

(** One statement sent through the client (Exec, Query or QueryRow + Scan).
    A statement that fails leaves the store as it was. *)
Definition client_call {A} (op : string) (stmt : DB -> pg A) : M A :=
  fun w =>
    if hd false (faults w) then
      (Err (PgxError connection_failure),
       mkWorld (db w) (tl (faults w)) (journal w ++ [EvStmt op false]))
    else
      match stmt (db w) with
      | PgOk a d' =>
          (Ok a, mkWorld d' (tl (faults w)) (journal w ++ [EvStmt op true]))
      | PgErr c =>
          (Err (PgxError c),
           mkWorld (db w) (tl (faults w)) (journal w ++ [EvStmt op false]))
      end.

Definition query {A} (op : string) (q : DB -> A) : M A :=
  client_call op (fun d => PgOk (q d) d).

Definition command (op : string) (c : DB -> DB) : M unit :=
  client_call op (fun d => PgOk tt (c d)).

(** ** pkg/database/postgresql/transaction.go *)

(** [WithTransaction]: Begin, run [fn] on the transaction, and in the deferred
    function roll back when [fn] panicked or returned an error, commit
    otherwise.  The function's result is unnamed, so [return err] has fixed
    the result before the deferred function assigns [err = tx.Commit(ctx)]:
    the error of a failed Commit does not reach the caller.  A transaction
    that is rolled back or whose Commit fails leaves the store as it was at
    Begin.  The values that [fn] assigns to captured variables are modelled
    as its result. *)
Definition WithTransaction {A} (fn : M A) : M A :=
  fun w =>
    if hd false (faults w) then
      (Err (PgxError connection_failure),
       mkWorld (db w) (tl (faults w)) (journal w ++ [EvBegin false]))
    else
      match fn (mkWorld (db w) (tl (faults w)) (journal w ++ [EvBegin true])) with
      | (Ok a, w1) =>
          if hd false (faults w1) then
            (Ok a, mkWorld (db w) (tl (faults w1)) (journal w1 ++ [EvCommit false]))
          else
            (Ok a, mkWorld (db w1) (tl (faults w1)) (journal w1 ++ [EvCommit true]))
      | (Err e, w1) =>
          (Err e, mkWorld (db w) (faults w1) (journal w1 ++ [EvRollback]))
      | (Panic p, w1) =>
          (Panic p, mkWorld (db w) (faults w1) (journal w1 ++ [EvRollback]))
      end.

(** ** Go slices of bytes *)

Definition len {A} (l : list A) : Z := Z.of_nat (length l).

(** [n] zero bytes. *)
Definition zeros (n : Z) : list byte := repeat x00 (Z.to_nat n).

(** The largest allocation that the Go runtime accepts on a 64-bit platform
    (runtime/malloc.go: maxAlloc = 1 << heapAddrBits, with 48 address bits). *)
Definition maxAlloc : Z := 2 ^ 48.

(** [make([]byte, n)]: [n] zero bytes; the runtime panics with
    "makeslice: len out of range" when [n] is negative or larger than
    [maxAlloc] ([None]).  An allocation within the limit for which the system
    has no memory left ends the process with a fatal error that no caller
    observes; memory within the limit is taken to be available. *)
Definition make_bytes (n : Z) : option (list byte) :=
  if (0 <=? n) && (n <=? maxAlloc) then Some (zeros n) else None.

(** [copy(dst, src)]: the contents of [dst] afterwards. *)
Definition go_copy (dst src : list byte) : list byte :=
  firstn (length dst) src ++ skipn (length src) dst.

(** [s[lo:hi]] panics unless [0 <= lo <= hi <= len(s)] (the capacity is taken
    to be the length). *)
Definition go_slice (s : list byte) (lo hi : Z) : option (list byte) :=
  if (0 <=? lo) && (lo <=? hi) && (hi <=? len s)
  then Some (firstn (Z.to_nat (hi - lo)) (skipn (Z.to_nat lo) s))
  else None.

(** ** internal/repository *)

Definition ErrNoRows : string := "no rows in result set".

(** *** filesystemRepository (internal/repository/filesystem.go) *)

Definition fsRepo_Get (token : string) : M (option Filesystem) :=
  wrapErr "repository.filesystemRepository.Get"
    (query "repository.filesystemRepository.Get"
           (fun d => sql_select_filesystem d token)).

Definition fsRepo_GetOrCreate (token : string) : M (option Filesystem) :=
  fs <- fsRepo_Get token ;;
  match fs with
  | Some f => ret (Some f)
  | None =>
      WithTransaction
        (fs <- fsRepo_Get token ;;
         match fs with
         | Some _ => ret tt
         | None =>
             command "filesystemRepository.GetOrCreate.fsQuery"
               (fun d => sql_insert_filesystem d token VTFS_ROOT_INO (VTFS_ROOT_INO + 1)) ;;;
             client_call "filesystemRepository.GetOrCreate.inodeQuery"
               (fun d => sql_insert_inode d
                  (mkInode VTFS_ROOT_INO token NodeTypeDir VTFS_ROOT_MODE 0 1))
         end) ;;;
      fsRepo_Get token
  end.

Definition fsRepo_GetNextIno (token : string) : M Z :=
  wrapErr "repository.filesystemRepository.GetNextIno"
    (client_call "repository.filesystemRepository.GetNextIno"
       (fun d => match sql_select_filesystem d token with
                 | Some f => PgOk (fs_NextIno f) d
                 | None => PgErr ErrNoRows
                 end)).

Definition fsRepo_IncrementNextIno (token : string) : M unit :=
  wrapErr "repository.filesystemRepository.IncrementNextIno"
    (command "repository.filesystemRepository.IncrementNextIno"
       (fun d => sql_increment_next_ino d token)).

(** *** inodeRepository *)

Definition inodeRepo_Get (token : string) (ino : Z) : M (option Inode) :=
  wrapErr "repository.inodeRepository.Get"
    (query "repository.inodeRepository.Get" (fun d => sql_select_inode d token ino)).

Definition inodeRepo_Create (inode : Inode) : M unit :=
  wrapErr "repository.inodeRepository.Create"
    (client_call "repository.inodeRepository.Create"
       (fun d => sql_insert_inode d inode)).

Definition inodeRepo_UpdateSize (token : string) (ino size : Z) : M unit :=
  wrapErr "repository.inodeRepository.UpdateSize"
    (command "repository.inodeRepository.UpdateSize"
       (fun d => sql_update_size d token ino size)).

Definition inodeRepo_UpdateRefCount (token : string) (ino delta : Z) : M unit :=
  wrapErr "repository.inodeRepository.UpdateRefCount"
    (command "repository.inodeRepository.UpdateRefCount"
       (fun d => sql_update_ref_count d token ino delta)).

Definition inodeRepo_Delete (token : string) (ino : Z) : M unit :=
  wrapErr "repository.inodeRepository.Delete"
    (command "repository.inodeRepository.Delete"
       (fun d => sql_delete_inode d token ino)).

Definition inodeRepo_IsDir (token : string) (ino : Z) : M bool :=
  wrapErr "repository.inodeRepository.IsDir"
    (query "repository.inodeRepository.IsDir"
       (fun d => match sql_select_inode d token ino with
                 | Some i => inode_Type i =? NodeTypeDir
                 | None => false
                 end)).

Definition inodeRepo_IsFile (token : string) (ino : Z) : M bool :=
  wrapErr "repository.inodeRepository.IsFile"
    (query "repository.inodeRepository.IsFile"
       (fun d => match sql_select_inode d token ino with
                 | Some i => inode_Type i =? NodeTypeFile
                 | None => false
                 end)).

(** *** contentRepository *)

Definition contentRepo_Get (token : string) (ino : Z) : M (list byte) :=
  wrapErr "repository.contentRepository.Get"
    (query "repository.contentRepository.Get"
       (fun d => match sql_select_content d token ino with
                 | Some c => fc_data c
                 | None => []
                 end)).

Definition contentRepo_GetRange (token : string) (ino offset length : Z)
  : M (list byte) :=
  data <- contentRepo_Get token ino ;;
  let dataLen := len data in
  if offset >=? dataLen then ret []
  else
    let available := dataLen - offset in
    let toRead := if length >? available then available else length in
    match go_slice data offset (offset + toRead) with
    | Some s => ret s
    | None => panic "slice bounds out of range"
    end.

Definition contentRepo_Set (token : string) (ino : Z) (data : list byte) : M unit :=
  wrapErr "repository.contentRepository.Set"
    (client_call "repository.contentRepository.Set"
       (fun d => sql_upsert_content d token ino data)).

Definition contentRepo_Delete (token : string) (ino : Z) : M unit :=
  wrapErr "repository.contentRepository.Delete"
    (command "repository.contentRepository.Delete"
       (fun d => sql_delete_content d token ino)).

(** *** directoryRepository *)

Definition dirRepo_Lookup (token : string) (parentIno : Z) (name : string) : M Z :=
  wrapErr "repository.directoryRepository.Lookup"
    (query "repository.directoryRepository.Lookup"
       (fun d => match sql_select_entry d token parentIno name with
                 | Some e => de_ino e
                 | None => 0
                 end)).

Definition dirRepo_CreateEntry (token : string) (parentIno : Z) (name : string)
    (ino : Z) : M unit :=
  wrapErr "repository.directoryRepository.CreateEntry"
    (client_call "repository.directoryRepository.CreateEntry"
       (fun d => sql_insert_entry d token parentIno name ino)).

Definition dirRepo_DeleteEntry (token : string) (parentIno : Z) (name : string)
  : M unit :=
  wrapErr "repository.directoryRepository.DeleteEntry"
    (command "repository.directoryRepository.DeleteEntry"
       (fun d => sql_delete_entry d token parentIno name)).

Definition dirRepo_IsEmpty (token : string) (dirIno : Z) : M bool :=
  wrapErr "repository.directoryRepository.IsEmpty"
    (query "repository.directoryRepository.IsEmpty"
       (fun d => sql_count_entries d token dirIno =? 0)).

Definition dirRepo_Exists (token : string) (parentIno : Z) (name : string) : M bool :=
  wrapErr "repository.directoryRepository.Exists"
    (query "repository.directoryRepository.Exists"
       (fun d => existsb (de_at token parentIno name) (directory_entries d))).

(** The two ordered queries depend on the collation of the database, which
    decides ORDER BY de.name; it is a parameter of the model. *)
Section Collation.

Variable name_leb : string -> string -> bool.

Fixpoint insert_by_name (x : Dirent) (l : list Dirent) : list Dirent :=
    match l with
    | [] => [x]
    | y :: l' =>
        if name_leb (dirent_Name x) (dirent_Name y) then x :: l
        else y :: insert_by_name x l'
    end.

  (** ORDER BY de.name *)
Definition order_by_name (l : list Dirent) : list Dirent :=
    fold_right insert_by_name [] l.

Definition dirRepo_GetEntries (token : string) (parentIno : Z) : M (list Dirent) :=
    wrapErr "repository.directoryRepository.GetEntries"
      (query "repository.directoryRepository.GetEntries"
         (fun d => order_by_name (sql_join_entries d token parentIno))).

  (** ... ORDER BY de.name LIMIT 1 OFFSET $3 *)
Definition dirRepo_GetEntryByOffset (token : string) (parentIno offset : Z)
    : M (option Dirent) :=
    wrapErr "repository.directoryRepository.GetEntryByOffset"
      (query "repository.directoryRepository.GetEntryByOffset"
         (fun d => nth_error (order_by_name (sql_join_entries d token parentIno))
                             (Z.to_nat offset))).

End Collation.

(** ** internal/service/filesystem.go *)

(** The switch on [inode.Type] that every operation returning a [NodeMeta]
    applies to the stored mode. *)
Definition mode_with_type (ty mode : Z) : Z :=
  if ty =? NodeTypeDir then Z.lor S_IFDIR (Z.land mode S_IRWXUGO)
  else if ty =? NodeTypeFile then Z.lor S_IFREG (Z.land mode S_IRWXUGO)
  else mode.

(** The test [err.( *pq.Error)] with code 23505 after a failed transaction;
    any other error is wrapped with the operation's name. *)
Definition unique_violation_to_EEXIST (op msg : string) (e : error) : error :=
  match e with
  | PqError c =>
      if String.eqb c "23505" then ServiceError kerrors.EEXIST msg
      else Wrapped op e
  | _ => Wrapped op e
  end.

Definition Init (token : string) : M unit :=
  let op := "service.fileSystemService.Init" in
  fs <- wrapErr op (fsRepo_Get token) ;;
  match fs with
  | Some _ => fail (ServiceError kerrors.EEXIST "filesystem already exists")
  | None =>
      wrapErr op (fsRepo_GetOrCreate token) ;;;
      ret tt
  end.

Definition GetRoot (token : string) : M NodeMeta :=
  let op := "service.fileSystemService.GetRoot" in
  wrapErr op (fsRepo_GetOrCreate token) ;;;
  inode <- wrapErr op (inodeRepo_Get token VTFS_ROOT_INO) ;;
  match inode with
  | None => fail (ServiceError kerrors.ENOENT "root inode not found")
  | Some inode =>
      ret (mkNodeMeta (inode_Ino inode) VTFS_ROOT_INO (inode_Type inode)
                      (mode_with_type (inode_Type inode) (inode_Mode inode))
                      (inode_Size inode))
  end.

Definition Lookup (token : string) (parentIno : Z) (name : string) : M NodeMeta :=
  let op := "service.fileSystemService.Lookup" in
  isDir <- wrapErr op (inodeRepo_IsDir token parentIno) ;;
  if negb isDir then fail (ServiceError kerrors.ENOTDIR "parent is not a directory")
  else
    ino <- wrapErr op (dirRepo_Lookup token parentIno name) ;;
    if ino =? 0 then fail (ServiceError kerrors.ENOENT "file not found")
    else
      inode <- wrapErr op (inodeRepo_Get token ino) ;;
      match inode with
      | None => fail (ServiceError kerrors.ENOENT "inode not found")
      | Some inode =>
          ret (mkNodeMeta (inode_Ino inode) parentIno (inode_Type inode)
                          (mode_with_type (inode_Type inode) (inode_Mode inode))
                          (inode_Size inode))
      end.

Section IterateDir.

Variable name_leb : string -> string -> bool.

  (** [offset] is passed by pointer; the result carries the value it has
      after a successful call.  No error path writes through the pointer. *)
Definition IterateDir (token : string) (dirIno : Z) (offset : Z) : M (Dirent * Z) :=
    let op := "service.fileSystemService.IterateDir" in
    isDir <- wrapErr op (inodeRepo_IsDir token dirIno) ;;
    if negb isDir then fail (ServiceError kerrors.ENOTDIR "not a directory")
    else
      dirent <- wrapErr op (dirRepo_GetEntryByOffset name_leb token dirIno offset) ;;
      match dirent with
      | None => fail (ServiceError kerrors.ENOENT "no more entries")
      | Some dirent => ret (dirent, wrapU64 (offset + 1))
      end.


End IterateDir.

Definition CreateFile (token : string) (parentIno : Z) (name : string) (mode : Z)
  : M NodeMeta :=
  let op := "service.fileSystemService.CreateFile" in
  isDir <- wrapErr op (inodeRepo_IsDir token parentIno) ;;
  if negb isDir then fail (ServiceError kerrors.ENOTDIR "parent is not a directory")
  else
    exists_ <- wrapErr op (dirRepo_Exists token parentIno name) ;;
    if exists_ then fail (ServiceError kerrors.EEXIST "file already exists")
    else
      inode <- mapErr (unique_violation_to_EEXIST op "file already exists")
        (WithTransaction
           (nextIno <- fsRepo_GetNextIno token ;;
            let newIno := nextIno in
            let inode := mkInode newIno token NodeTypeFile mode 0 1 in
            inodeRepo_Create inode ;;;
            dirRepo_CreateEntry token parentIno name newIno ;;;
            fsRepo_IncrementNextIno token ;;;
            contentRepo_Set token newIno [] ;;;
            ret inode)) ;;
      ret (mkNodeMeta (inode_Ino inode) parentIno (inode_Type inode)
                      (mode_with_type (inode_Type inode) (inode_Mode inode))
                      (inode_Size inode)).

Definition Unlink (token : string) (parentIno : Z) (name : string) : M unit :=
  let op := "service.fileSystemService.Unlink" in
  ino <- wrapErr op (dirRepo_Lookup token parentIno name) ;;
  if ino =? 0 then fail (ServiceError kerrors.ENOENT "file not found")
  else
    isFile <- wrapErr op (inodeRepo_IsFile token ino) ;;
    if negb isFile then fail (ServiceError kerrors.EPERM "cannot unlink directory")
    else
      wrapErr op
        (WithTransaction
           (dirRepo_DeleteEntry token parentIno name ;;;
            inodeRepo_UpdateRefCount token ino (-1) ;;;
            inode <- inodeRepo_Get token ino ;;
            match inode with
            | Some i =>
                if inode_RefCount i =? 0 then
                  contentRepo_Delete token ino ;;;
                  inodeRepo_Delete token ino
                else ret tt
            | None => ret tt
            end)).

Definition CreateDir (token : string) (parentIno : Z) (name : string) (mode : Z)
  : M NodeMeta :=
  let op := "service.fileSystemService.CreateDir" in
  isDir <- wrapErr op (inodeRepo_IsDir token parentIno) ;;
  if negb isDir then fail (ServiceError kerrors.ENOTDIR "parent is not a directory")
  else
    exists_ <- wrapErr op (dirRepo_Exists token parentIno name) ;;
    if exists_ then fail (ServiceError kerrors.EEXIST "directory already exists")
    else
      inode <- mapErr (unique_violation_to_EEXIST op "directory already exists")
        (WithTransaction
           (nextIno <- fsRepo_GetNextIno token ;;
            let newIno := nextIno in
            let inode := mkInode newIno token NodeTypeDir mode 0 1 in
            inodeRepo_Create inode ;;;
            dirRepo_CreateEntry token parentIno name newIno ;;;
            fsRepo_IncrementNextIno token ;;;
            ret inode)) ;;
      ret (mkNodeMeta (inode_Ino inode) parentIno (inode_Type inode)
                      (mode_with_type (inode_Type inode) (inode_Mode inode))
                      (inode_Size inode)).

Definition Rmdir (token : string) (parentIno : Z) (name : string) : M unit :=
  let op := "service.fileSystemService.Rmdir" in
  ino <- wrapErr op (dirRepo_Lookup token parentIno name) ;;
  if ino =? 0 then fail (ServiceError kerrors.ENOENT "directory not found")
  else
    isDir <- wrapErr op (inodeRepo_IsDir token ino) ;;
    if negb isDir then fail (ServiceError kerrors.ENOTDIR "not a directory")
    else if ino =? VTFS_ROOT_INO
    then fail (ServiceError kerrors.EPERM "cannot remove root directory")
    else
      isEmpty <- wrapErr op (dirRepo_IsEmpty token ino) ;;
      if negb isEmpty then fail (ServiceError kerrors.ENOTEMPTY "directory not empty")
      else
        wrapErr op
          (WithTransaction
             (dirRepo_DeleteEntry token parentIno name ;;;
              inodeRepo_Delete token ino)).

(** [Read] fills [buffer] and returns the number of bytes read; the result
    carries that number and the contents of [buffer] after the call. *)
Definition Read (token : string) (ino : Z) (buffer : list byte) (offset : Z)
  : M (Z * list byte) :=
  let op := "service.fileSystemService.Read" in
  inode <- wrapErr op (inodeRepo_Get token ino) ;;
  match inode with
  | None => fail (ServiceError kerrors.ENOENT "file not found")
  | Some inode =>
      if negb (inode_Type inode =? NodeTypeFile)
      then fail (ServiceError kerrors.EISDIR "is a directory")
      else if offset <? 0
      then fail (ServiceError kerrors.EINVAL "invalid offset")
      else
        let available := wrap64 (inode_Size inode - offset) in
        if available <=? 0 then ret (0, buffer)
        else
          let toRead := if len buffer >? available then available else len buffer in
          data <- wrapErr op (contentRepo_GetRange token ino offset toRead) ;;
          ret (len data, go_copy buffer data)
  end.

(** [length] is a uint64 and [offset] an int64. *)
Definition Write (token : string) (ino : Z) (data : list byte) (length offset : Z)
  : M Z :=
  let op := "service.fileSystemService.Write" in
  if length >? len data
  then fail (ServiceError kerrors.EINVAL "length exceeds buffer size")
  else if offset <? 0
  then fail (ServiceError kerrors.EINVAL "invalid offset")
  else
    let writeData := firstn (Z.to_nat length) data in
    inode <- wrapErr op (inodeRepo_Get token ino) ;;
    match inode with
    | None => fail (ServiceError kerrors.ENOENT "file not found")
    | Some inode =>
        if negb (inode_Type inode =? NodeTypeFile)
        then fail (ServiceError kerrors.EISDIR "is a directory")
        else
          wrapErr op
            (WithTransaction
               (currentData <- contentRepo_Get token ino ;;
                let newSize := wrap64 (offset + wrap64 length) in
                currentData <-
                  (if newSize >? len currentData
                   then match make_bytes newSize with
                        | None => panic "makeslice: len out of range"
                        | Some extended => ret (go_copy extended currentData)
                        end
                   else ret currentData) ;;
                match go_slice currentData offset (len currentData) with
                | None => panic "slice bounds out of range"
                | Some dst =>
                    let currentData :=
                      firstn (Z.to_nat offset) currentData ++ go_copy dst writeData in
                    contentRepo_Set token ino currentData ;;;
                    inodeRepo_UpdateSize token ino (len currentData)
                end)) ;;;
          ret (wrap64 length)
    end.

Definition Link (token : string) (targetIno parentIno : Z) (name : string) : M unit :=
  let op := "service.fileSystemService.Link" in
  targetInode <- wrapErr op (inodeRepo_Get token targetIno) ;;
  match targetInode with
  | None => fail (ServiceError kerrors.ENOENT "target not found")
  | Some targetInode =>
      if negb (inode_Type targetInode =? NodeTypeFile)
      then fail (ServiceError kerrors.EISDIR "cannot link directory")
      else
        exists_ <- wrapErr op (dirRepo_Exists token parentIno name) ;;
        if exists_ then fail (ServiceError kerrors.EEXIST "name already exists")
        else
          mapErr (unique_violation_to_EEXIST op "name already exists")
            (WithTransaction
               (dirRepo_CreateEntry token parentIno name targetIno ;;;
                inodeRepo_UpdateRefCount token targetIno 1))
  end.

Definition CountLinks (token : string) (ino : Z) : M Z :=
  let op := "service.fileSystemService.CountLinks" in
  inode <- wrapErr op (inodeRepo_Get token ino) ;;
  match inode with
  | None => fail (ServiceError kerrors.ENOENT "inode not found")
  | Some inode => ret (inode_RefCount inode mod 2 ^ 32)
  end.

(** ** internal/handler/handler.go *)

Definition mapErrorToCode (err : error) : Z :=
  match err with
  | ServiceError Code _ => Code
  | _ => kerrors.ENOMEM_NEG
  end.





(** ** Calls that can change the store *)

Inductive call : Type :=
| CallInit (token : string)
| CallGetRoot (token : string)
| CallCreateFile (token : string) (parentIno : Z) (name : string) (mode : Z)
| CallCreateDir (token : string) (parentIno : Z) (name : string) (mode : Z)
| CallUnlink (token : string) (parentIno : Z) (name : string)
| CallRmdir (token : string) (parentIno : Z) (name : string)
| CallWrite (token : string) (ino : Z) (data : list byte) (length offset : Z)
| CallLink (token : string) (targetIno parentIno : Z) (name : string).

(** [void m] forgets the value of a call. *)
Definition void {A} (m : M A) : M unit := bind m (fun _ => ret tt).

Definition run_call (c : call) : M unit :=
  match c with
  | CallInit token => Init token
  | CallGetRoot token => void (GetRoot token)
  | CallCreateFile token parentIno name mode =>
      void (CreateFile token parentIno name mode)
  | CallCreateDir token parentIno name mode =>
      void (CreateDir token parentIno name mode)
  | CallUnlink token parentIno name => Unlink token parentIno name
  | CallRmdir token parentIno name => Rmdir token parentIno name
  | CallWrite token ino data length offset =>
      void (Write token ino data length offset)
  | CallLink token targetIno parentIno name =>
      Link token targetIno parentIno name
  end.

(** The operations whose mutation takes several statements in a transaction. *)
Definition multi_step (c : call) : bool :=
  match c with
  | CallInit _ | CallGetRoot _ => false
  | _ => true
  end.

(** A sequence of calls, each made whatever the previous one returned. *)
Fixpoint run_calls (cs : list call) (w : World) : World :=
  match cs with
  | [] => w
  | c :: cs' => run_calls cs' (snd (run_call c w))
  end.

(** ** Observations on the store *)

(** The number of directory entries whose target is the inode [i]. *)
Definition count_links (d : DB) (i : Inode) : Z :=
  len (filter (de_to (inode_Token i) (inode_Ino i)) (directory_entries d)).

(** What [inodeRepo_IsDir] and [inodeRepo_IsFile] answer on a store. *)
Definition is_dir (d : DB) (token : string) (ino : Z) : bool :=
  match sql_select_inode d token ino with
  | Some i => inode_Type i =? NodeTypeDir
  | None => false
  end.

Definition is_file (d : DB) (token : string) (ino : Z) : bool :=
  match sql_select_inode d token ino with
  | Some i => inode_Type i =? NodeTypeFile
  | None => false
  end.

(** What [dirRepo_Lookup] answers on a store. *)
Definition lookup_ino (d : DB) (token : string) (parent : Z) (name : string) : Z :=
  match sql_select_entry d token parent name with
  | Some e => de_ino e
  | None => 0
  end.

(** What [contentRepo_Get] answers on a store. *)
Definition content_of (d : DB) (token : string) (ino : Z) : list byte :=
  match sql_select_content d token ino with
  | Some c => fc_data c
  | None => []
  end.

(** A plan without faults. *)
Definition fault_free (fs : list bool) : Prop := forall b, In b fs -> b = false.

(** A client call that succeeded: a statement, a Begin or a Commit. *)
Definition event_ok (e : event) : bool :=
  match e with
  | EvStmt _ false | EvBegin false | EvCommit false => false
  | _ => true
  end.

(** A step of the call failed: a statement, the Begin or the Commit. *)
Definition step_failed (l : list event) : Prop :=
  exists e, In e l /\ event_ok e = false.

(** The failures that reach [fn]'s caller as an error: a statement or the
    Begin.  The Commit is called in the deferred function of
    [WithTransaction]. *)
Definition stmt_ok (e : event) : bool :=
  match e with
  | EvStmt _ false | EvBegin false => false
  | _ => true
  end.

Definition stmt_failed (l : list event) : Prop :=
  exists e, In e l /\ stmt_ok e = false.

Definition commit_failed (l : list event) : Prop := In (EvCommit false) l.

(** ** Reasoning principles for calls *)

(** [post ff m d Q]: started on store [d], the call [m] ends with an outcome
    and a store that satisfy [Q]; with [ff = true] only fault-free plans are
    considered, with [ff = false] every plan. *)
Definition post {A} (ff : bool) (m : M A) (d : DB) (Q : outcome A -> DB -> Prop)
  : Prop :=
  forall w, db w = d -> (ff = true -> fault_free (faults w)) ->
    Q (fst (m w)) (db (snd (m w)))
    /\ (ff = true -> fault_free (faults (snd (m w)))).

(** [failfast m]: [m] only extends the journal, and unless it returns an
    error every statement and Begin it issued succeeded. *)
Definition failfast {A} (m : M A) : Prop :=
  forall w, exists l,
    journal (snd (m w)) = journal w ++ l
    /\ (is_err (fst (m w)) = false -> forallb stmt_ok l = true).

(** [nocommit m]: [m] only extends the journal, and with no failed Commit. *)
Definition nocommit {A} (m : M A) : Prop :=
  forall w, exists l,
    journal (snd (m w)) = journal w ++ l /\ ~ commit_failed l.

(** [commit_lost m]: when a Commit that [m] issued failed, [m] returns a
    value all the same, and the store is as it was. *)
Definition commit_lost {A} (m : M A) : Prop :=
  forall w, exists l,
    journal (snd (m w)) = journal w ++ l
    /\ (commit_failed l ->
        is_ok (fst (m w)) = true /\ db (snd (m w)) = db w).

(** [atomic m]: unless [m] returns a value, it leaves the store as it was. *)
Definition atomic {A} (m : M A) : Prop :=
  forall w, is_ok (fst (m w)) = false -> db (snd (m w)) = db w.

Definition readonly {A} (m : M A) : Prop :=
  forall w, db (snd (m w)) = db w.

(** What a returned [NodeMeta] says about the inode it was built from. *)
Definition meta_of_inode (parent : Z) (i : Inode) (meta : NodeMeta) : Prop :=
  meta_Ino meta = inode_Ino i
  /\ meta_ParentIno meta = parent
  /\ meta_Type meta = inode_Type i
  /\ meta_Size meta = inode_Size i
  /\ (inode_Type i = NodeTypeDir ->
      meta_Mode meta = Z.lor S_IFDIR (Z.land (inode_Mode i) S_IRWXUGO))
  /\ (inode_Type i = NodeTypeFile ->
      meta_Mode meta = Z.lor S_IFREG (Z.land (inode_Mode i) S_IRWXUGO)).

(** ** The committed effect of each mutation

    [*_step d ... d'] describes the store [d'] that a mutation commits when
    it is started on [d] and every one of its steps succeeds. *)

Definition namespace_step (d : DB) (token : string) (d' : DB) : Prop :=
  sql_select_filesystem d token = None
  /\ sql_insert_inode
       (sql_insert_filesystem d token VTFS_ROOT_INO (VTFS_ROOT_INO + 1))
       (mkInode VTFS_ROOT_INO token NodeTypeDir VTFS_ROOT_MODE 0 1) = PgOk tt d'.

Definition create_file_step (d : DB) (token : string) (parent : Z) (name : string)
    (mode : Z) (d' : DB) : Prop :=
  is_dir d token parent = true
  /\ existsb (de_at token parent name) (directory_entries d) = false
  /\ exists f d1 d2,
      sql_select_filesystem d token = Some f
      /\ sql_insert_inode d (mkInode (fs_NextIno f) token NodeTypeFile mode 0 1)
         = PgOk tt d1
      /\ sql_insert_entry d1 token parent name (fs_NextIno f) = PgOk tt d2
      /\ sql_upsert_content (sql_increment_next_ino d2 token) token (fs_NextIno f) []
         = PgOk tt d'.

Definition create_dir_step (d : DB) (token : string) (parent : Z) (name : string)
    (mode : Z) (d' : DB) : Prop :=
  is_dir d token parent = true
  /\ existsb (de_at token parent name) (directory_entries d) = false
  /\ exists f d1 d2,
      sql_select_filesystem d token = Some f
      /\ sql_insert_inode d (mkInode (fs_NextIno f) token NodeTypeDir mode 0 1)
         = PgOk tt d1
      /\ sql_insert_entry d1 token parent name (fs_NextIno f) = PgOk tt d2
      /\ d' = sql_increment_next_ino d2 token.

(** The store after the statements of [Unlink]'s transaction. *)
Definition unlink_effect (d : DB) (token : string) (parent : Z) (name : string) : DB :=
  let ino := lookup_ino d token parent name in
  let d2 := sql_update_ref_count (sql_delete_entry d token parent name) token ino (-1) in
  match sql_select_inode d2 token ino with
  | Some i =>
      if inode_RefCount i =? 0
      then sql_delete_inode (sql_delete_content d2 token ino) token ino
      else d2
  | None => d2
  end.

Definition unlink_step (d : DB) (token : string) (parent : Z) (name : string)
    (d' : DB) : Prop :=
  lookup_ino d token parent name <> 0
  /\ is_file d token (lookup_ino d token parent name) = true
  /\ d' = unlink_effect d token parent name.

Definition rmdir_effect (d : DB) (token : string) (parent : Z) (name : string) : DB :=
  sql_delete_inode (sql_delete_entry d token parent name) token
                   (lookup_ino d token parent name).

Definition rmdir_step (d : DB) (token : string) (parent : Z) (name : string)
    (d' : DB) : Prop :=
  lookup_ino d token parent name <> 0
  /\ is_dir d token (lookup_ino d token parent name) = true
  /\ lookup_ino d token parent name <> VTFS_ROOT_INO
  /\ sql_count_entries d token (lookup_ino d token parent name) = 0
  /\ d' = rmdir_effect d token parent name.

(** The bytes that [Write] stores when its allocation succeeds: the current
    content, zero-extended to [newSize] when that is larger, with [writeData]
    copied in at [offset]. *)
Definition written (currentData writeData : list byte) (newSize offset : Z)
  : list byte :=
  let extended :=
    if newSize >? len currentData
    then go_copy (zeros newSize) currentData
    else currentData in
  firstn (Z.to_nat offset) extended
  ++ go_copy (skipn (Z.to_nat offset) extended) writeData.

Definition write_step (d : DB) (token : string) (ino : Z) (data : list byte)
    (length offset : Z) (d' : DB) : Prop :=
  is_file d token ino = true
  /\ exists d1,
      let bytes := written (content_of d token ino) (firstn (Z.to_nat length) data)
                           (wrap64 (offset + wrap64 length)) offset in
      sql_upsert_content d token ino bytes = PgOk tt d1
      /\ d' = sql_update_size d1 token ino (len bytes).

Definition link_step (d : DB) (token : string) (target parent : Z) (name : string)
    (d' : DB) : Prop :=
  is_file d token target = true
  /\ existsb (de_at token parent name) (directory_entries d) = false
  /\ exists d1,
      sql_insert_entry d token parent name target = PgOk tt d1
      /\ d' = sql_update_ref_count d1 token target 1.

(** The committed effect of a call. *)
Definition call_step (d : DB) (c : call) (d' : DB) : Prop :=
  match c with
  | CallInit token | CallGetRoot token => namespace_step d token d'
  | CallCreateFile token parent name mode => create_file_step d token parent name mode d'
  | CallCreateDir token parent name mode => create_dir_step d token parent name mode d'
  | CallUnlink token parent name => unlink_step d token parent name d'
  | CallRmdir token parent name => rmdir_step d token parent name d'
  | CallWrite token ino data length offset =>
      write_step d token ino data length offset d'
  | CallLink token target parent name => link_step d token target parent name d'
  end.

(** The mode that a [NodeMeta] must report for an inode whose stored mode is
    [stored]: the type bits of the inode's kind and the permission bits of
    the stored mode, and none of the setuid, setgid and sticky bits (0o7000). *)
Definition reports_mode (ty stored : Z) (meta : NodeMeta) : Prop :=
  meta_Type meta = ty
  /\ (ty = NodeTypeDir ->
      meta_Mode meta = Z.lor S_IFDIR (Z.land stored S_IRWXUGO)
      /\ Z.land (meta_Mode meta) 3584 = 0)
  /\ (ty = NodeTypeFile ->
      meta_Mode meta = Z.lor S_IFREG (Z.land stored S_IRWXUGO)
      /\ Z.land (meta_Mode meta) 3584 = 0).

(** ** Sample worlds *)

Definition world0 : World := mkWorld empty_db [] [].

(** A namespace "tok" with a directory "dir" (inode 1001) that holds the file
    "f.txt" (inode 1002), created with the setuid bit set. *)
Definition sample_world : World :=
  run_calls [CallInit "tok";
             CallCreateDir "tok" 1000 "dir" 493;
             CallCreateFile "tok" 1001 "f.txt" 2468] world0.

(** The store of [sample_world] with a fault plan under which the sixth
    client call (CreateEntry inside CreateFile's transaction) fails. *)
Definition faulty_world : World :=
  mkWorld (db sample_world) [false; false; false; false; false; true] [].

(** The entries of a directory. *)
Definition dir_entries (d : DB) (token : string) (dirIno : Z) : list de_row :=
  filter (de_in token dirIno) (directory_entries d).

(** A store in which the directory 1001 has an entry "up" that resolves to
    the root inode; the root itself holds the entry "dir". *)
Definition looped_db : DB :=
  mkDB (filesystems (db sample_world)) (inodes (db sample_world))
       (directory_entries (db sample_world) ++ [mkEntry "tok" 1001 "up" 1000])
       (file_contents (db sample_world)).

(** ** The content after a write, in the words of the specification

    "fetch content; zero-extend to offset+length if needed; splice in
    data[:length] at offset".  These definitions are compared with [written],
    which follows the code. *)

Definition zero_extend (c : list byte) (n : Z) : list byte :=
  c ++ repeat x00 (Z.to_nat (n - len c)).

Definition splice (base : list byte) (off : Z) (piece : list byte) : list byte :=
  firstn (Z.to_nat off) base ++ piece
  ++ skipn (Z.to_nat off + length piece) base.

Definition write_spec (c data : list byte) (n off : Z) : list byte :=
  splice (zero_extend c (Z.max (len c) (off + n))) off (firstn (Z.to_nat n) data).



(** Every entry of the directory joins exactly one inode row (the target
    exists and (token, ino) is a key of [inodes]). *)
Definition joins_once (d : DB) (token : string) (dirIno : Z) : Prop :=
  forall e, In e (dir_entries d token dirIno) ->
    exists i, filter (inode_at (de_token e) (de_ino e)) (inodes d) = [i].

(** ** The link invariant and the reachable stores *)

Definition de_key (e : de_row) : string * Z * string :=
  (de_token e, de_parent_ino e, de_name e).

(** Every inode row other than a namespace root, and other than the rows of
    the key [skip] if one is given, carries as ref_count the number of
    entries that target it. *)
Definition refs_ok_but (skip : option (string * Z)) (d : DB) : Prop :=
  forall i, In i (inodes d) ->
    inode_Ino i <> VTFS_ROOT_INO ->
    Some (inode_Token i, inode_Ino i) <> skip ->
    inode_RefCount i = count_links d i.

Definition refs_ok (d : DB) : Prop := refs_ok_but None d.

(** The parent of every entry is a directory. *)
Definition parents_ok (d : DB) : Prop :=
  forall e, In e (directory_entries d) ->
    is_dir d (de_token e) (de_parent_ino e) = true.

(** The target of every entry has an inode row. *)
Definition targets_ok (d : DB) : Prop :=
  forall e, In e (directory_entries d) ->
    existsb (inode_at (de_token e) (de_ino e)) (inodes d) = true.

(** (token, parent_ino, name) is a key of [directory_entries]. *)
Definition keys_ok (d : DB) : Prop := NoDup (map de_key (directory_entries d)).

Definition links_inv_but (skip : option (string * Z)) (d : DB) : Prop :=
  refs_ok_but skip d /\ parents_ok d /\ targets_ok d /\ keys_ok d.

Definition links_inv (d : DB) : Prop := links_inv_but None d.

(** A call of Link is admissible when its parent is a directory; every other
    call is. *)
Definition admissible (d : DB) (c : call) : Prop :=
  match c with
  | CallLink token _ parentIno _ => is_dir d token parentIno = true
  | _ => True
  end.

(** The stores that admissible calls, under any fault plans, can produce
    from the empty store. *)
Inductive reachable : DB -> Prop :=
| reach_empty : reachable empty_db
| reach_call (w : World) (c : call) :
    reachable (db w) -> admissible (db w) c ->
    reachable (db (snd (run_call c w))).

(** The calls of the counterexample to the ref-count identity: two files,
    a link to the second placed under the first, then the first unlinked. *)
Definition link_under_file : list call :=
  [CallInit "tok";
   CallCreateFile "tok" 1000 "a" 420;
   CallCreateFile "tok" 1000 "b" 420;
   CallLink "tok" 1002 1001 "x";
   CallUnlink "tok" 1000 "a"].

(** An update of inode rows that keeps ino, token and type. *)
Definition keeps_identity (f : Inode -> Inode) : Prop :=
  forall i, inode_Ino (f i) = inode_Ino i
            /\ inode_Token (f i) = inode_Token i
            /\ inode_Type (f i) = inode_Type i.

(** Every call of a sequence is admissible on the store it is made on. *)
Fixpoint admissible_calls (cs : list call) (w : World) : Prop :=
  match cs with
  | [] => True
  | c :: cs' => admissible (db w) c /\ admissible_calls cs' (snd (run_call c w))
  end.

(** A file with two names: "f.txt" in the directory "dir" and "g" in the root. *)
Definition hard_link_calls : list call :=
  [CallInit "tok";
   CallCreateDir "tok" 1000 "dir" 493;
   CallCreateFile "tok" 1001 "f.txt" 420;
   CallLink "tok" 1002 1000 "g"].

(** [sample_world] after "hello" has been written at offset 10 of "f.txt". *)
Definition written_world : World :=
  snd (Write "tok" 1002 [x68; x65; x6c; x6c; x6f] 5 10 sample_world).

(** [sample_world] after an empty directory "empty" (inode 1003) was made. *)
Definition two_dirs_world : World :=
  snd (CreateDir "tok" 1000 "empty" 493 sample_world).

(** The store of [sample_world] with a plan under which only the Commit of
    CreateFile's transaction (the ninth client call) fails. *)
Definition failed_commit_world : World :=
  mkWorld (db sample_world)
          [false; false; false; false; false; false; false; false; true] [].

(** ** Further invariants of the reachable stores *)

Definition inode_key (i : Inode) : string * Z := (inode_Token i, inode_Ino i).

(** (token, ino) is a key of [inodes]. *)
Definition inode_keys_ok (d : DB) : Prop := NoDup (map inode_key (inodes d)).

(** The size of every regular file is the length of its content. *)
Definition sizes_ok (d : DB) : Prop :=
  forall i, In i (inodes d) ->
    inode_Type i = NodeTypeFile ->
    inode_Size i = len (content_of d (inode_Token i) (inode_Ino i)).

(** ** The statements of the store, and what the schema keeps *)

(** One statement that the store accepts. *)
Inductive stmt_step : DB -> DB -> Prop :=
| st_insert_filesystem d token root next :
    stmt_step d (sql_insert_filesystem d token root next)
| st_increment_next_ino d token :
    stmt_step d (sql_increment_next_ino d token)
| st_insert_inode d i d' :
    sql_insert_inode d i = PgOk tt d' -> stmt_step d d'
| st_update_size d token ino size :
    stmt_step d (sql_update_size d token ino size)
| st_update_ref_count d token ino delta :
    stmt_step d (sql_update_ref_count d token ino delta)
| st_delete_inode d token ino :
    stmt_step d (sql_delete_inode d token ino)
| st_insert_entry d token parent name ino d' :
    sql_insert_entry d token parent name ino = PgOk tt d' -> stmt_step d d'
| st_delete_entry d token parent name :
    stmt_step d (sql_delete_entry d token parent name)
| st_upsert_content d token ino data d' :
    sql_upsert_content d token ino data = PgOk tt d' -> stmt_step d d'
| st_delete_content d token ino :
    stmt_step d (sql_delete_content d token ino).

(** A sequence of accepted statements. *)
Inductive stmt_steps : DB -> DB -> Prop :=
| steps_nil d : stmt_steps d d
| steps_cons d d1 d2 : stmt_step d d1 -> stmt_steps d1 d2 -> stmt_steps d d2.

(** The parent of every entry has an inode row. *)
Definition parents_exist (d : DB) : Prop :=
  forall e, In e (directory_entries d) ->
    existsb (inode_at (de_token e) (de_parent_ino e)) (inodes d) = true.

(** Every content row belongs to an inode row. *)
Definition contents_ok (d : DB) : Prop :=
  forall c, In c (file_contents d) ->
    existsb (inode_at (fc_token c) (fc_ino c)) (inodes d) = true.

(** Every inode row belongs to a namespace. *)
Definition namespaces_exist (d : DB) : Prop :=
  forall i, In i (inodes d) ->
    existsb (fs_at (inode_Token i)) (filesystems d) = true.

(** The keys and the references that the schema declares. *)
Definition schema_ok (d : DB) : Prop :=
  inode_keys_ok d /\ keys_ok d /\ targets_ok d /\ parents_exist d
  /\ contents_ok d /\ namespaces_exist d.

(** The root inode that [fsRepo_GetOrCreate] inserts for a namespace. *)
Definition root_inode (token : string) : Inode :=
  mkInode VTFS_ROOT_INO token NodeTypeDir VTFS_ROOT_MODE 0 1.

(** Inode numbers start at the root's and stay below the namespace's
    counter, which starts above the root's. *)
Definition allocated_ok (d : DB) : Prop :=
  (forall f, In f (filesystems d) -> VTFS_ROOT_INO + 1 <= fs_NextIno f)
  /\ (forall i, In i (inodes d) ->
        exists f, sql_select_filesystem d (inode_Token i) = Some f
                  /\ VTFS_ROOT_INO <= inode_Ino i < fs_NextIno f).

(** Every namespace has its root inode, as it was inserted. *)
Definition roots_ok (d : DB) : Prop :=
  forall token f,
    sql_select_filesystem d token = Some f ->
    sql_select_inode d token VTFS_ROOT_INO = Some (root_inode token).

(** Every directory inode has ref_count 1. *)
Definition dirs_ok (d : DB) : Prop :=
  forall i, In i (inodes d) -> inode_Type i = NodeTypeDir -> inode_RefCount i = 1.

(** What holds of every store that calls of the service produce. *)
Definition store_inv (d : DB) : Prop :=
  schema_ok d /\ allocated_ok d /\ roots_ok d /\ sizes_ok d /\ dirs_ok d.

(** The inode rows of [d'] are rows of [d], possibly updated in place, and
    the namespaces are the same. *)
Definition inodes_from (d d' : DB) : Prop :=
  filesystems d' = filesystems d
  /\ forall i', In i' (inodes d') ->
       exists i, In i (inodes d) /\ inode_key i' = inode_key i
                 /\ inode_Type i' = inode_Type i.

(** The update of one row by [sql_increment_next_ino]. *)
Definition bump_next_ino (token : string) (f : Filesystem) : Filesystem :=
  if fs_at token f
  then mkFilesystem (fs_Token f) (fs_RootIno f) (fs_NextIno f + 1)
  else f.

(** [d'] differs from [d] in the inode table at most at the key
    [(token, ino)], where the row keeps its type or is gone. *)
Definition touches (d : DB) (token : string) (ino : Z) (d' : DB) : Prop :=
  filesystems d' = filesystems d
  /\ (forall t n, (t, n) <> (token, ino) ->
        sql_select_inode d' t n = sql_select_inode d t n)
  /\ (forall i', sql_select_inode d' token ino = Some i' ->
        exists i, sql_select_inode d token ino = Some i
                  /\ inode_Type i' = inode_Type i).

(** The stores that the service can produce: the empty store after any
    sequence of calls under any fault plan. *)
Definition served (d : DB) : Prop :=
  exists cs plan j, d = db (run_calls cs (mkWorld empty_db plan j)).

(** The store after the namespace [token] has been created in [d]. *)
Definition with_namespace (d : DB) (token : string) : DB :=
  mkDB (filesystems d ++ [mkFilesystem token VTFS_ROOT_INO (VTFS_ROOT_INO + 1)])
       (inodes d ++ [root_inode token])
       (directory_entries d) (file_contents d).



(** No inode row has a ref_count below 1. *)
Definition refs_positive (d : DB) : Prop :=
  forall i, In i (inodes d) -> 1 <= inode_RefCount i.


(** The code that a handler sends for an outcome lies in [codes]; an outcome
    that is no error sends none of them. *)
Definition error_codes {A} (r : outcome A) (codes : list Z) : Prop :=
  match r with
  | Err e => In (mapErrorToCode e) codes
  | _ => True
  end.

(** A store in which the counter of the namespace "tok" holds a number that
    an inode already has (1002). *)
Definition collided_world : World :=
  mkWorld (mkDB [mkFilesystem "tok" 1000 1002]
                (inodes (db sample_world))
                (directory_entries (db sample_world))
                (file_contents (db sample_world)))
          [] [].

(** [quiet m]: [m] changes nothing in the store and issues no Commit. *)
Definition quiet {A} (m : M A) : Prop := readonly m /\ nocommit m.

(** * Proofs *)

(** ** Fault-free plans *)

Lemma fault_free_hd (fs : list bool) : fault_free fs -> hd false fs = false.
Proof.
  destruct fs as [|b fs]; intros H; simpl; [reflexivity|].
  apply H. now left.
Qed.

Lemma fault_free_tl (fs : list bool) : fault_free fs -> fault_free (tl fs).
Proof.
  destruct fs as [|b fs]; intros H; simpl; [exact H|].
  intros c Hc. apply H. now right.
Qed.

Lemma fault_free_nil : fault_free [].
Proof. intros b []. Qed.

(** ** The rules of [post] *)

Section PostRules.

Context {A B : Type}.
Variable ff : bool.

Lemma post_ret (a : A) d (Q : outcome A -> DB -> Prop) :
    Q (Ok a) d -> post ff (ret a) d Q.
  Proof. intros H w <- Hf. simpl. auto. Qed.

Lemma post_fail (e : error) d (Q : outcome A -> DB -> Prop) :
    Q (Err e) d -> post ff (fail e) d Q.
  Proof. intros H w <- Hf. simpl. auto. Qed.

Lemma post_panic (p : string) d (Q : outcome A -> DB -> Prop) :
    Q (Panic p) d -> post ff (panic p) d Q.
  Proof. intros H w <- Hf. simpl. auto. Qed.

Lemma post_bind (m : M A) (k : A -> M B) d (Q : outcome B -> DB -> Prop) :
    post ff m d (fun r d1 =>
                   match r with
                   | Ok a => post ff (k a) d1 Q
                   | Err e => Q (Err e) d1
                   | Panic p => Q (Panic p) d1
                   end) ->
    post ff (bind m k) d Q.
  Proof.
    intros H w Hd Hf. destruct (H w Hd Hf) as [H1 H2].
    unfold bind. destruct (m w) as [[a|e|p] w1]; simpl in *.
    - apply H1; auto.
    - auto.
    - auto.
  Qed.

Lemma post_mapErr (f : error -> error) (m : M A) d (Q : outcome A -> DB -> Prop) :
    post ff m d (fun r d1 =>
                   match r with
                   | Err e => Q (Err (f e)) d1
                   | _ => Q r d1
                   end) ->
    post ff (mapErr f m) d Q.
  Proof.
    intros H w Hd Hf. destruct (H w Hd Hf) as [H1 H2].
    unfold mapErr. destruct (m w) as [[a|e|p] w1]; simpl in *; auto.
  Qed.

Lemma post_client_call (op : string) (stmt : DB -> pg A) d
      (Q : outcome A -> DB -> Prop) :
    (ff = false -> Q (Err (PgxError connection_failure)) d) ->
    match stmt d with
    | PgOk a d' => Q (Ok a) d'
    | PgErr c => Q (Err (PgxError c)) d
    end ->
    post ff (client_call op stmt) d Q.
  Proof.
    intros Hfault Hrun w <- Hf. unfold client_call.
    destruct (hd false (faults w)) eqn:Eh.
    - simpl. split.
      + apply Hfault. destruct ff; [|reflexivity].
        rewrite (fault_free_hd _ (Hf eq_refl)) in Eh. discriminate.
      + intros E. apply fault_free_tl. auto.
    - destruct (stmt (db w)) as [a d'|c]; simpl; split; auto;
        intros E; apply fault_free_tl; auto.
  Qed.

Lemma post_WithTransaction (fn : M A) d (Q : outcome A -> DB -> Prop) :
    (ff = false -> Q (Err (PgxError connection_failure)) d) ->
    post ff fn d (fun r d1 =>
                    match r with
                    | Ok a => (ff = false -> Q (Ok a) d) /\ Q (Ok a) d1
                    | Err e => Q (Err e) d
                    | Panic p => Q (Panic p) d
                    end) ->
    post ff (WithTransaction fn) d Q.
  Proof.
    intros Hfault Hfn w <- Hf. unfold WithTransaction.
    destruct (hd false (faults w)) eqn:Eh.
    - simpl. split.
      + apply Hfault. destruct ff; [|reflexivity].
        rewrite (fault_free_hd _ (Hf eq_refl)) in Eh. discriminate.
      + intros E. apply fault_free_tl. auto.
    - match goal with |- context [fn ?w0] => specialize (Hfn w0 eq_refl) end.
      simpl in Hfn.
      destruct Hfn as [H1 H2]; [intros E; apply fault_free_tl; auto|].
      match goal with |- context [fn ?w0] => destruct (fn w0) as [[a|e|p] w1] end;
        simpl in *.
      + destruct H1 as [H1a H1b].
        destruct (hd false (faults w1)) eqn:Eh1; simpl; split.
        * apply H1a. destruct ff; [|reflexivity].
          rewrite (fault_free_hd _ (H2 eq_refl)) in Eh1. discriminate.
        * intros E. apply fault_free_tl. auto.
        * exact H1b.
        * intros E. apply fault_free_tl. auto.
      + split; auto.
      + split; auto.
  Qed.

Lemma post_any (m : M A) d (Q : outcome A -> DB -> Prop) :
    ff = false -> (forall r d1, Q r d1) -> post ff m d Q.
  Proof. intros -> H w _ _. split; [apply H|discriminate]. Qed.

Lemma post_weaken (m : M A) d (Q Q' : outcome A -> DB -> Prop) :
    post ff m d Q -> (forall r d1, Q r d1 -> Q' r d1) -> post ff m d Q'.
  Proof.
    intros H HQ w Hd Hf. destruct (H w Hd Hf) as [H1 H2]. split; auto.
  Qed.

End PostRules.

Lemma post_run {A} (m : M A) (w : World) (Q : outcome A -> DB -> Prop) :
  post false m (db w) Q -> Q (fst (m w)) (db (snd (m w))).
Proof. intros H. apply (H w eq_refl). discriminate. Qed.

Lemma post_run_ff {A} (m : M A) (w : World) (Q : outcome A -> DB -> Prop) :
  fault_free (faults w) -> post true m (db w) Q -> Q (fst (m w)) (db (snd (m w))).
Proof. intros Hf H. apply (H w eq_refl). auto. Qed.

(** Unfolding the repositories down to client calls. *)
Ltac unfold_repos :=
  unfold fsRepo_GetOrCreate, fsRepo_Get, fsRepo_GetNextIno, fsRepo_IncrementNextIno,
    inodeRepo_Get, inodeRepo_Create, inodeRepo_UpdateSize, inodeRepo_UpdateRefCount,
    inodeRepo_Delete, inodeRepo_IsDir, inodeRepo_IsFile,
    contentRepo_GetRange, contentRepo_Get, contentRepo_Set, contentRepo_Delete,
    dirRepo_Lookup, dirRepo_CreateEntry, dirRepo_DeleteEntry, dirRepo_IsEmpty,
    dirRepo_Exists, dirRepo_GetEntries, dirRepo_GetEntryByOffset,
    wrapErr, query, command, void.

(** One step of symbolic execution of a call under [post]. *)
Ltac post_step :=
  match goal with
  | |- post _ (bind _ _) _ _ => apply post_bind
  | |- post _ (mapErr _ _) _ _ => apply post_mapErr
  | |- post _ (client_call _ _) _ _ =>
      apply post_client_call; [try discriminate; intros _|]
  | |- post _ (WithTransaction _) _ _ =>
      apply post_WithTransaction; [try discriminate; intros _|]
  | |- post _ (ret _) _ _ => apply post_ret
  | |- post _ (fail _) _ _ => apply post_fail
  | |- post _ (panic _) _ _ => apply post_panic
  | |- (false = false -> _) /\ _ => split; [intros _|]
  | |- (true = false -> _) /\ _ => split; [discriminate|]
  end; cbn beta iota.

(** ** Mode bits *)

Lemma permission_bits_only (m : Z) : Z.land (Z.land m S_IRWXUGO) 3584 = 0.
Proof.
  rewrite <- Z.land_assoc. change (Z.land S_IRWXUGO 3584) with 0.
  apply Z.land_0_r.
Qed.

Lemma mode_with_type_dir (m : Z) :
  mode_with_type NodeTypeDir m = Z.lor S_IFDIR (Z.land m S_IRWXUGO).
Proof. reflexivity. Qed.

Lemma mode_with_type_file (m : Z) :
  mode_with_type NodeTypeFile m = Z.lor S_IFREG (Z.land m S_IRWXUGO).
Proof. reflexivity. Qed.

Lemma mode_with_type_no_special_bits (ty m : Z) :
  ty = NodeTypeDir \/ ty = NodeTypeFile ->
  Z.land (mode_with_type ty m) 3584 = 0.
Proof.
  intros [-> | ->].
  - rewrite mode_with_type_dir, Z.land_lor_distr_l, permission_bits_only.
    reflexivity.
  - rewrite mode_with_type_file, Z.land_lor_distr_l, permission_bits_only.
    reflexivity.
Qed.

Lemma meta_of_inode_intro (parent : Z) (i : Inode) :
  meta_of_inode parent i
    (mkNodeMeta (inode_Ino i) parent (inode_Type i)
                (mode_with_type (inode_Type i) (inode_Mode i)) (inode_Size i)).
Proof.
  unfold meta_of_inode; simpl. repeat split; intros ->; reflexivity.
Qed.

Lemma Lookup_meta token parent name d :
  post false (Lookup token parent name) d
    (fun r d' =>
       d' = d /\
       match r with
       | Ok meta => exists i, sql_select_inode d token (lookup_ino d token parent name) = Some i
                              /\ meta_of_inode parent i meta
       | _ => True
       end).
Proof.
  unfold Lookup. unfold_repos.
  repeat post_step; auto.
  destruct (negb _); repeat post_step; auto.
  destruct (_ =? 0); repeat post_step; auto.
  fold (lookup_ino d token parent name).
  destruct (sql_select_inode d token _) as [i|] eqn:E; repeat post_step; auto.
  split; auto. exists i. split; auto. apply meta_of_inode_intro.
Qed.

(** ** What each mutation does under every fault plan

    Each lemma states, for every plan: the call has no effect unless it
    returns a value, and its effect, when there is one, is the committed
    effect of the mutation. *)

Ltac post_auto := repeat post_step; auto.

Arguments mode_with_type : simpl never.

Lemma CreateFile_post token parent name mode d :
  post false (CreateFile token parent name mode) d
    (fun r d' =>
       (is_ok r = false -> d' = d)
       /\ (d' = d \/ create_file_step d token parent name mode d')
       /\ match r with
          | Ok meta =>
              meta_of_inode parent
                (mkInode (meta_Ino meta) token NodeTypeFile mode 0 1) meta
          | _ => True
          end).
Proof.
  unfold CreateFile. unfold_repos.
  post_auto.
  fold (is_dir d token parent).
  destruct (is_dir d token parent) eqn:Edir; cbn [negb]; post_auto.
  destruct (existsb _ _) eqn:Eex; post_auto.
  destruct (sql_select_filesystem d token) as [f|] eqn:Efs; post_auto.
  destruct (sql_insert_inode d _) as [[] d1|c1] eqn:E1; post_auto.
  destruct (sql_insert_entry d1 _ _ _ _) as [[] d2|c2] eqn:E2; post_auto.
  destruct (sql_upsert_content _ _ _ _) as [[] d3|c3] eqn:E3; post_auto.
  - split; [discriminate|]. split; [now left|].
    apply (meta_of_inode_intro parent (mkInode _ _ _ _ _ _)).
  - split; [discriminate|]. split.
    + right. repeat split; auto. exists f, d1, d2. auto.
    + apply (meta_of_inode_intro parent (mkInode _ _ _ _ _ _)).
Qed.

Lemma CreateDir_post token parent name mode d :
  post false (CreateDir token parent name mode) d
    (fun r d' =>
       (is_ok r = false -> d' = d)
       /\ (d' = d \/ create_dir_step d token parent name mode d')
       /\ match r with
          | Ok meta =>
              meta_of_inode parent
                (mkInode (meta_Ino meta) token NodeTypeDir mode 0 1) meta
          | _ => True
          end).
Proof.
  unfold CreateDir. unfold_repos.
  post_auto.
  fold (is_dir d token parent).
  destruct (is_dir d token parent) eqn:Edir; cbn [negb]; post_auto.
  destruct (existsb _ _) eqn:Eex; post_auto.
  destruct (sql_select_filesystem d token) as [f|] eqn:Efs; post_auto.
  destruct (sql_insert_inode d _) as [[] d1|c1] eqn:E1; post_auto.
  destruct (sql_insert_entry d1 _ _ _ _) as [[] d2|c2] eqn:E2; post_auto.
  - split; [discriminate|]. split; [now left|].
    apply (meta_of_inode_intro parent (mkInode _ _ _ _ _ _)).
  - split; [discriminate|]. split.
    + right. repeat split; auto. exists f, d1, d2. auto.
    + apply (meta_of_inode_intro parent (mkInode _ _ _ _ _ _)).
Qed.

Lemma Unlink_post token parent name d :
  post false (Unlink token parent name) d
    (fun r d' =>
       (is_ok r = false -> d' = d)
       /\ (d' = d \/ unlink_step d token parent name d')).
Proof.
  unfold Unlink. unfold_repos.
  post_auto.
  fold (lookup_ino d token parent name).
  destruct (lookup_ino d token parent name =? 0) eqn:Eino; post_auto.
  fold (is_file d token (lookup_ino d token parent name)).
  destruct (is_file d token _) eqn:Efile; cbn [negb]; post_auto.
  assert (Hstep : forall d', d' = unlink_effect d token parent name ->
                             unlink_step d token parent name d').
  { intros d' ->. repeat split; auto. apply Z.eqb_neq; auto. }
  unfold unlink_effect in Hstep.
  destruct (sql_select_inode _ token _) as [i|] eqn:Ei; post_auto.
  all: try (destruct (inode_RefCount i =? 0) eqn:Erc; post_auto).
  all: split; [discriminate|auto].
Qed.

Lemma Rmdir_post token parent name d :
  post false (Rmdir token parent name) d
    (fun r d' =>
       (is_ok r = false -> d' = d)
       /\ (d' = d \/ rmdir_step d token parent name d')).
Proof.
  unfold Rmdir. unfold_repos.
  post_auto.
  fold (lookup_ino d token parent name).
  destruct (lookup_ino d token parent name =? 0) eqn:Eino; post_auto.
  fold (is_dir d token (lookup_ino d token parent name)).
  destruct (is_dir d token _) eqn:Edir; cbn [negb]; post_auto.
  destruct (lookup_ino d token parent name =? VTFS_ROOT_INO) eqn:Eroot; post_auto.
  destruct (sql_count_entries d token _ =? 0) eqn:Eempty; cbn [negb]; post_auto.
  split; [discriminate|]. right.
  apply Z.eqb_neq in Eino, Eroot. apply Z.eqb_eq in Eempty.
  repeat split; auto.
Qed.

Lemma go_slice_to_end (s : list byte) (lo : Z) (dst : list byte) :
  go_slice s lo (len s) = Some dst -> dst = skipn (Z.to_nat lo) s.
Proof.
  unfold go_slice, len.
  destruct (0 <=? lo) eqn:E0; [|discriminate].
  destruct (lo <=? Z.of_nat (length s)) eqn:E1; [|discriminate].
  rewrite Z.leb_refl. cbn [andb]. intros [= <-].
  apply firstn_all2. rewrite length_skipn. lia.
Qed.

Lemma make_bytes_some (n : Z) (b : list byte) :
  make_bytes n = Some b -> b = zeros n.
Proof.
  unfold make_bytes. destruct ((0 <=? n) && (n <=? maxAlloc)); [|discriminate].
  intros [= <-]. reflexivity.
Qed.

Lemma Write_post token ino data length offset d :
  post false (Write token ino data length offset) d
    (fun r d' =>
       (is_ok r = false -> d' = d)
       /\ (d' = d \/ write_step d token ino data length offset d')).
Proof.
  unfold Write. unfold_repos.
  destruct (length >? len data) eqn:Elen; post_auto.
  destruct (offset <? 0) eqn:Eoff; post_auto.
  destruct (sql_select_inode d token ino) as [i|] eqn:Ei; post_auto.
  destruct (inode_Type i =? NodeTypeFile) eqn:Ety; cbn [negb]; post_auto.
  fold (content_of d token ino).
  set (newSize := wrap64 (offset + wrap64 length)).
  assert (Hfile : is_file d token ino = true)
    by (unfold is_file; rewrite Ei; exact Ety).
  destruct (newSize >? len (content_of d token ino)) eqn:Egt.
  - destruct (make_bytes newSize) as [b|] eqn:Emk; post_auto.
    pose proof (make_bytes_some _ _ Emk) as ->.
    set (cur := go_copy (zeros newSize) (content_of d token ino)).
    destruct (go_slice cur offset (len cur)) as [dst|] eqn:Edst; post_auto.
    apply go_slice_to_end in Edst. subst dst.
    destruct (sql_upsert_content d token ino _) as [[] d1|c1] eqn:E1; post_auto.
    split; [discriminate|]. right. split; [exact Hfile|].
    exists d1. cbv zeta. unfold written. fold newSize. rewrite Egt.
    split; [exact E1|reflexivity].
  - post_auto.
    set (cur := content_of d token ino) in *.
    destruct (go_slice cur offset (len cur)) as [dst|] eqn:Edst; post_auto.
    apply go_slice_to_end in Edst. subst dst.
    destruct (sql_upsert_content d token ino _) as [[] d1|c1] eqn:E1; post_auto.
    split; [discriminate|]. right. split; [exact Hfile|].
    exists d1. cbv zeta. unfold written. fold newSize. fold cur. rewrite Egt.
    split; [exact E1|reflexivity].
Qed.

Lemma Link_post token target parent name d :
  post false (Link token target parent name) d
    (fun r d' =>
       (is_ok r = false -> d' = d)
       /\ (d' = d \/ link_step d token target parent name d')).
Proof.
  unfold Link. unfold_repos.
  post_auto.
  destruct (sql_select_inode d token target) as [i|] eqn:Ei; post_auto.
  destruct (inode_Type i =? NodeTypeFile) eqn:Ety; cbn [negb]; post_auto.
  destruct (existsb _ _) eqn:Eex; post_auto.
  destruct (sql_insert_entry d token parent name target) as [[] d1|c1] eqn:E1;
    post_auto.
  split; [discriminate|]. right. split; [|split; auto].
  - unfold is_file. rewrite Ei. exact Ety.
  - exists d1. auto.
Qed.

Lemma GetOrCreate_post token d :
  post false (fsRepo_GetOrCreate token) d
    (fun r d' => d' = d \/ namespace_step d token d').
Proof.
  unfold fsRepo_GetOrCreate. unfold_repos.
  post_auto.
  destruct (sql_select_filesystem d token) as [f|] eqn:Efs; post_auto.
  rewrite Efs. post_auto.
  destruct (sql_insert_inode _ _) as [[] d1|c1] eqn:E1; post_auto.
  all: right; split; auto.
Qed.

Lemma Init_post token d :
  post false (Init token) d (fun r d' => d' = d \/ namespace_step d token d').
Proof.
  unfold Init, fsRepo_Get, wrapErr, query.
  post_auto.
  destruct (sql_select_filesystem d token) as [f|] eqn:Efs; post_auto.
  eapply post_weaken; [apply GetOrCreate_post|].
  intros r d1 H. destruct r; post_auto.
Qed.

Lemma GetRoot_post token d :
  post false (GetRoot token) d
    (fun r d' =>
       (d' = d \/ namespace_step d token d')
       /\ match r with
          | Ok meta => exists i, sql_select_inode d' token VTFS_ROOT_INO = Some i
                                 /\ meta_of_inode VTFS_ROOT_INO i meta
          | _ => True
          end).
Proof.
  unfold GetRoot, wrapErr.
  post_auto.
  eapply post_weaken; [apply GetOrCreate_post|].
  intros r d1 H. destruct r; post_auto.
  unfold_repos. post_auto.
  destruct (sql_select_inode d1 token VTFS_ROOT_INO) as [i|] eqn:Ei; post_auto.
  split; auto. exists i. split; auto. apply meta_of_inode_intro.
Qed.

(** ** The mode reported in a [NodeMeta] *)

Lemma meta_of_inode_reports parent i meta :
  meta_of_inode parent i meta ->
  reports_mode (inode_Type i) (inode_Mode i) meta.
Proof.
  intros (_ & _ & Hty & _ & Hdir & Hfile).
  split; [exact Hty|]. split; intros E.
  - split; [auto|]. rewrite (Hdir E), Z.land_lor_distr_l, permission_bits_only.
    reflexivity.
  - split; [auto|]. rewrite (Hfile E), Z.land_lor_distr_l, permission_bits_only.
    reflexivity.
Qed.

(** C10: on every success path that returns a NodeMeta (GetRoot, Lookup,
    CreateFile, CreateDir), whatever the fault plan, the reported mode is
    S_IFDIR | (stored mode & 0o777) for a directory inode and
    S_IFREG | (stored mode & 0o777) for a regular file, where the stored mode
    is the mode of the inode row read (GetRoot, Lookup) or the mode supplied
    at creation (CreateFile, CreateDir); the bits 0o7000 are never reported. *)
Theorem reported_mode_is_type_and_permission_bits :
  forall (w : World) (token : string) (parent : Z) (name : string) (mode : Z),
    (forall meta, fst (GetRoot token w) = Ok meta ->
       exists i,
         sql_select_inode (db (snd (GetRoot token w))) token VTFS_ROOT_INO = Some i
         /\ reports_mode (inode_Type i) (inode_Mode i) meta)
    /\ (forall meta, fst (Lookup token parent name w) = Ok meta ->
       exists i,
         sql_select_inode (db w) token (lookup_ino (db w) token parent name) = Some i
         /\ reports_mode (inode_Type i) (inode_Mode i) meta)
    /\ (forall meta, fst (CreateFile token parent name mode w) = Ok meta ->
       reports_mode NodeTypeFile mode meta)
    /\ (forall meta, fst (CreateDir token parent name mode w) = Ok meta ->
       reports_mode NodeTypeDir mode meta).
Proof.
  intros w token parent name mode. split; [|split; [|split]].
  - intros meta E.
    pose proof (post_run _ w _ (GetRoot_post token (db w))) as [_ H].
    cbv beta in H. rewrite E in H. destruct H as (i & Hi & Hm).
    exists i. split; [exact Hi|]. apply (meta_of_inode_reports _ _ _ Hm).
  - intros meta E.
    pose proof (post_run _ w _ (Lookup_meta token parent name (db w))) as [_ H].
    rewrite E in H. destruct H as (i & Hi & Hm).
    exists i. split; [exact Hi|]. apply (meta_of_inode_reports _ _ _ Hm).
  - intros meta E.
    pose proof (post_run _ w _ (CreateFile_post token parent name mode (db w)))
      as (_ & _ & H).
    rewrite E in H. apply (meta_of_inode_reports _ _ _ H).
  - intros meta E.
    pose proof (post_run _ w _ (CreateDir_post token parent name mode (db w)))
      as (_ & _ & H).
    rewrite E in H. apply (meta_of_inode_reports _ _ _ H).
Qed.

Lemma reported_mode_witness :
  exists meta,
    fst (CreateFile "tok" 1000 "g" 2468 sample_world) = Ok meta
    /\ reports_mode NodeTypeFile 2468 meta
    /\ meta_Mode meta = 33188.
Proof.
  eexists. split; [vm_compute; reflexivity|]. split.
  - apply (reported_mode_is_type_and_permission_bits sample_world "tok" 1000 "g" 2468).
    vm_compute. reflexivity.
  - reflexivity.
Defined.

(** ** The code emitted for an error *)


(** ** Atomicity of the multi-step mutations *)

Lemma stmt_failed_not_ok (l : list event) :
  stmt_failed l -> forallb stmt_ok l = true -> False.
Proof.
  intros (e & Hin & He) Hall. rewrite forallb_forall in Hall.
  rewrite (Hall e Hin) in He. discriminate.
Qed.

Section FailFast.

Context {A B : Type}.

Lemma failfast_ret (a : A) : failfast (ret a).
Proof. intros w. exists []. rewrite app_nil_r. auto. Qed.

Lemma failfast_fail (e : error) : failfast (@fail A e).
Proof. intros w. exists []. rewrite app_nil_r. auto. Qed.

Lemma failfast_panic (p : string) : failfast (@panic A p).
Proof. intros w. exists []. rewrite app_nil_r. auto. Qed.

Lemma failfast_bind (m : M A) (k : A -> M B) :
  failfast m -> (forall a, failfast (k a)) -> failfast (bind m k).
Proof.
  intros Hm Hk w. destruct (Hm w) as (l1 & E1 & C1). unfold bind.
  destruct (m w) as [[a|e|p] w1]; simpl in *.
  - destruct (Hk a w1) as (l2 & E2 & C2). exists (l1 ++ l2).
    rewrite E2, E1, app_assoc. split; [reflexivity|].
    intros H. rewrite forallb_app, C1, C2; auto.
  - exists l1. split; [exact E1|discriminate].
  - exists l1. auto.
Qed.

Lemma failfast_mapErr (f : error -> error) (m : M A) :
  failfast m -> failfast (mapErr f m).
Proof.
  intros Hm w. destruct (Hm w) as (l1 & E1 & C1). unfold mapErr.
  destruct (m w) as [[a|e|p] w1]; simpl in *; exists l1; auto.
Qed.

Lemma failfast_client_call (op : string) (stmt : DB -> pg A) :
  failfast (client_call op stmt).
Proof.
  intros w. unfold client_call.
  destruct (hd false (faults w)).
  - eexists. split; [reflexivity|discriminate].
  - destruct (stmt (db w)); eexists; (split; [reflexivity|]).
    + reflexivity.
    + discriminate.
Qed.

Lemma failfast_WithTransaction (fn : M A) :
  failfast fn -> failfast (WithTransaction fn).
Proof.
  intros Hfn w. unfold WithTransaction.
  destruct (hd false (faults w)).
  - eexists. split; [reflexivity|discriminate].
  - match goal with |- context [fn ?w0] => destruct (Hfn w0) as (l & E & C) end.
    match goal with |- context [fn ?w0] => destruct (fn w0) as [[a|e|p] w1] end;
      simpl in *.
    + destruct (hd false (faults w1)); simpl; rewrite E, <- !app_assoc;
        eexists; (split; [reflexivity|]); intros _;
        simpl; rewrite forallb_app, C; auto.
    + rewrite E, <- !app_assoc. eexists. split; [reflexivity|discriminate].
    + rewrite E, <- !app_assoc. eexists. split; [reflexivity|].
      intros _. simpl. rewrite forallb_app, C; auto.
Qed.

End FailFast.

Ltac failfast_step :=
  match goal with
  | |- failfast (bind _ _) => apply failfast_bind; [|intros ?]
  | |- failfast (mapErr _ _) => apply failfast_mapErr
  | |- failfast (client_call _ _) => apply failfast_client_call
  | |- failfast (WithTransaction _) => apply failfast_WithTransaction
  | |- failfast (ret _) => apply failfast_ret
  | |- failfast (fail _) => apply failfast_fail
  | |- failfast (panic _) => apply failfast_panic
  | |- failfast (if ?c then _ else _) => destruct c
  | |- failfast (match ?x with _ => _ end) => destruct x
  end.

Lemma run_call_failfast (c : call) : failfast (run_call c).
Proof.
  destruct c; unfold run_call, Init, GetRoot, CreateFile, CreateDir, Unlink, Rmdir,
    Write, Link; unfold_repos; cbv zeta; repeat failfast_step.
Qed.

Lemma void_run {A} (m : M A) (w : World) :
  is_ok (fst (void m w)) = is_ok (fst (m w))
  /\ is_err (fst (void m w)) = is_err (fst (m w))
  /\ snd (void m w) = snd (m w).
Proof.
  unfold void, bind, ret. destruct (m w) as [[a|e|p] w1]; simpl; auto.
Qed.

Lemma run_call_atomic (c : call) :
  multi_step c = true -> atomic (run_call c).
Proof.
  intros Hc w. destruct c; try discriminate; simpl.
  - destruct (void_run (CreateFile token parentIno name mode) w) as (-> & _ & ->).
    apply (post_run _ w _ (CreateFile_post token parentIno name mode (db w))).
  - destruct (void_run (CreateDir token parentIno name mode) w) as (-> & _ & ->).
    apply (post_run _ w _ (CreateDir_post token parentIno name mode (db w))).
  - apply (post_run _ w _ (Unlink_post token parentIno name (db w))).
  - apply (post_run _ w _ (Rmdir_post token parentIno name (db w))).
  - destruct (void_run (Write token ino data length offset) w) as (-> & _ & ->).
    apply (post_run _ w _ (Write_post token ino data length offset (db w))).
  - apply (post_run _ w _ (Link_post token targetIno parentIno name (db w))).
Qed.

(** A failed statement or Begin is reported and rolled back: the call
    returns an error and the store is as before; the store is also unchanged
    whenever the call returns no value. *)
Lemma failed_statements_are_rolled_back (c : call) (w : World) :
  multi_step c = true ->
  (exists l, journal (snd (run_call c w)) = journal w ++ l
             /\ (stmt_failed l ->
                 is_err (fst (run_call c w)) = true
                 /\ db (snd (run_call c w)) = db w))
  /\ (is_ok (fst (run_call c w)) = false -> db (snd (run_call c w)) = db w).
Proof.
  intros Hc. split.
  - destruct (run_call_failfast c w) as (l & E & C). exists l.
    split; [exact E|]. intros Hfail.
    assert (Herr : is_err (fst (run_call c w)) = true).
    { destruct (is_err (fst (run_call c w))) eqn:Ee; [reflexivity|].
      exfalso. apply (stmt_failed_not_ok l Hfail). auto. }
    split; [exact Herr|]. apply (run_call_atomic c Hc).
    destruct (fst (run_call c w)); simpl in *; congruence.
  - apply (run_call_atomic c Hc).
Qed.

(** A run in which the sixth client call, CreateEntry inside the transaction
    of CreateFile, fails. *)
Example failed_statement_run :
  is_err (fst (CreateFile "tok" 1000 "g" 420 faulty_world)) = true
  /\ db (snd (CreateFile "tok" 1000 "g" 420 faulty_world)) = db faulty_world.
Proof. vm_compute. split; reflexivity. Qed.

(** *** The Commit

    The calls before a transaction are queries, the transaction's function
    issues statements only, and what follows the transaction returns a
    value: a failed Commit is the last client call of the operation. *)

Section CommitLost.

Context {A B : Type}.

Lemma nocommit_ret (a : A) : nocommit (ret a).
Proof. intros w. exists []. rewrite app_nil_r. split; [reflexivity|intros []]. Qed.

Lemma nocommit_fail (e : error) : nocommit (@fail A e).
Proof. intros w. exists []. rewrite app_nil_r. split; [reflexivity|intros []]. Qed.

Lemma nocommit_panic (p : string) : nocommit (@panic A p).
Proof. intros w. exists []. rewrite app_nil_r. split; [reflexivity|intros []]. Qed.

Lemma nocommit_bind (m : M A) (k : A -> M B) :
  nocommit m -> (forall a, nocommit (k a)) -> nocommit (bind m k).
Proof.
  intros Hm Hk w. destruct (Hm w) as (l1 & E1 & C1). unfold bind.
  destruct (m w) as [[a|e|p] w1]; simpl in *.
  - destruct (Hk a w1) as (l2 & E2 & C2). exists (l1 ++ l2).
    rewrite E2, E1, app_assoc. split; [reflexivity|].
    unfold commit_failed in *. rewrite in_app_iff. tauto.
  - exists l1. auto.
  - exists l1. auto.
Qed.

Lemma nocommit_mapErr (f : error -> error) (m : M A) :
  nocommit m -> nocommit (mapErr f m).
Proof.
  intros Hm w. destruct (Hm w) as (l1 & E1 & C1). unfold mapErr.
  destruct (m w) as [[a|e|p] w1]; simpl in *; exists l1; auto.
Qed.

Lemma nocommit_client_call (op : string) (stmt : DB -> pg A) :
  nocommit (client_call op stmt).
Proof.
  intros w. unfold client_call.
  destruct (hd false (faults w)); [|destruct (stmt (db w))];
    eexists; (split; [reflexivity|]); intros [H|[]]; discriminate.
Qed.

Lemma quiet_ret (a : A) : quiet (ret a).
Proof. split; [intros w; reflexivity|apply nocommit_ret]. Qed.

Lemma quiet_fail (e : error) : quiet (@fail A e).
Proof. split; [intros w; reflexivity|apply nocommit_fail]. Qed.

Lemma quiet_bind (m : M A) (k : A -> M B) :
  quiet m -> (forall a, quiet (k a)) -> quiet (bind m k).
Proof.
  intros [Rm Nm] Hk. split.
  - intros w. unfold bind. specialize (Rm w).
    destruct (m w) as [[a|e|p] w1]; simpl in *; [|exact Rm|exact Rm].
    destruct (Hk a) as [Rk _]. rewrite (Rk w1). exact Rm.
  - apply nocommit_bind; [exact Nm|]. intros a. apply (Hk a).
Qed.

Lemma quiet_mapErr (f : error -> error) (m : M A) :
  quiet m -> quiet (mapErr f m).
Proof.
  intros [Rm Nm]. split; [|apply nocommit_mapErr, Nm].
  intros w. unfold mapErr. specialize (Rm w).
  destruct (m w) as [[a|e|p] w1]; simpl in *; exact Rm.
Qed.

Lemma quiet_query (op : string) (q : DB -> A) :
  quiet (client_call op (fun d => PgOk (q d) d)).
Proof.
  split; [|apply nocommit_client_call].
  intros w. unfold client_call. destruct (hd false (faults w)); reflexivity.
Qed.

Lemma commit_lost_nocommit (m : M A) : nocommit m -> commit_lost m.
Proof.
  intros Hm w. destruct (Hm w) as (l & E & C). exists l.
  split; [exact E|]. intros H. contradiction.
Qed.

Lemma commit_lost_mapErr (f : error -> error) (m : M A) :
  commit_lost m -> commit_lost (mapErr f m).
Proof.
  intros Hm w. destruct (Hm w) as (l & E & C). unfold mapErr.
  destruct (m w) as [[a|e|p] w1]; simpl in *; exists l; (split; [exact E|]);
    intros H; destruct (C H) as [H1 H2]; auto; discriminate.
Qed.

Lemma commit_lost_bind_quiet (m : M A) (k : A -> M B) :
  quiet m -> (forall a, commit_lost (k a)) -> commit_lost (bind m k).
Proof.
  intros [Rm Nm] Hk w. destruct (Nm w) as (l1 & E1 & C1). specialize (Rm w).
  unfold bind. destruct (m w) as [[a|e|p] w1]; simpl in *.
  - destruct (Hk a w1) as (l2 & E2 & C2). exists (l1 ++ l2).
    rewrite E2, E1, app_assoc. split; [reflexivity|].
    intros H. unfold commit_failed in *. apply in_app_iff in H.
    destruct H as [H|H]; [contradiction|].
    destruct (C2 H) as [H1 H2]. split; [exact H1|congruence].
  - exists l1. split; [exact E1|]. intros H. contradiction.
  - exists l1. split; [exact E1|]. intros H. contradiction.
Qed.

Lemma commit_lost_bind_ret (m : M A) (k : A -> M B) :
  commit_lost m -> (forall a, exists b, k a = ret b) -> commit_lost (bind m k).
Proof.
  intros Hm Hk w. destruct (Hm w) as (l & E & C). unfold bind.
  destruct (m w) as [[a|e|p] w1]; simpl in *.
  - destruct (Hk a) as (b & ->). unfold ret. simpl. exists l. auto.
  - exists l. auto.
  - exists l. auto.
Qed.

Lemma commit_lost_WithTransaction (fn : M A) :
  nocommit fn -> commit_lost (WithTransaction fn).
Proof.
  intros Hfn w. unfold WithTransaction.
  destruct (hd false (faults w)).
  - eexists. split; [reflexivity|]. intros [H|[]]. discriminate.
  - match goal with |- context [fn ?w0] => destruct (Hfn w0) as (l & E & C) end.
    match goal with |- context [fn ?w0] => destruct (fn w0) as [[a|e|p] w1] end;
      simpl in *.
    + destruct (hd false (faults w1)); simpl; rewrite E, <- !app_assoc;
        eexists; (split; [reflexivity|]); auto.
      intros H. exfalso. unfold commit_failed in *. simpl in H.
      destruct H as [H|H]; [discriminate|]. apply in_app_iff in H.
      destruct H as [H|[H|[]]]; [contradiction|discriminate].
    + rewrite E, <- !app_assoc. eexists. split; [reflexivity|].
      intros H. exfalso. unfold commit_failed in *. simpl in H.
      destruct H as [H|H]; [discriminate|]. apply in_app_iff in H.
      destruct H as [H|[H|[]]]; [contradiction|discriminate].
    + rewrite E, <- !app_assoc. eexists. split; [reflexivity|].
      intros H. exfalso. unfold commit_failed in *. simpl in H.
      destruct H as [H|H]; [discriminate|]. apply in_app_iff in H.
      destruct H as [H|[H|[]]]; [contradiction|discriminate].
Qed.

End CommitLost.

Ltac nocommit_step :=
  match goal with
  | |- nocommit (bind _ _) => apply nocommit_bind; [|intros ?]
  | |- nocommit (mapErr _ _) => apply nocommit_mapErr
  | |- nocommit (client_call _ _) => apply nocommit_client_call
  | |- nocommit (ret _) => apply nocommit_ret
  | |- nocommit (fail _) => apply nocommit_fail
  | |- nocommit (panic _) => apply nocommit_panic
  | |- nocommit (if ?c then _ else _) => destruct c
  | |- nocommit (match ?x with _ => _ end) => destruct x
  end.

Ltac quiet_step :=
  match goal with
  | |- quiet (bind _ _) => apply quiet_bind; [|intros ?]
  | |- quiet (mapErr _ _) => apply quiet_mapErr
  | |- quiet (client_call _ _) => apply quiet_query
  | |- quiet (ret _) => apply quiet_ret
  | |- quiet (fail _) => apply quiet_fail
  end.

Ltac commit_lost_step :=
  match goal with
  | |- commit_lost (bind _ _) =>
      first [ apply commit_lost_bind_quiet; [solve [repeat quiet_step]|intros ?]
            | apply commit_lost_bind_ret; [|intros ?; eexists; reflexivity] ]
  | |- commit_lost (mapErr _ _) => apply commit_lost_mapErr
  | |- commit_lost (WithTransaction _) =>
      apply commit_lost_WithTransaction; repeat nocommit_step
  | |- commit_lost (fail _) => apply commit_lost_nocommit, nocommit_fail
  | |- commit_lost (ret _) => apply commit_lost_nocommit, nocommit_ret
  | |- commit_lost (if ?c then _ else _) => destruct c
  | |- commit_lost (match ?x with _ => _ end) => destruct x
  end.

Lemma run_call_commit_lost (c : call) :
  multi_step c = true -> commit_lost (run_call c).
Proof.
  intros Hc.
  destruct c; try discriminate;
    unfold run_call, CreateFile, CreateDir, Unlink, Rmdir, Write, Link;
    unfold_repos; cbv zeta; repeat commit_lost_step.
Qed.

(** C1: for CreateFile, CreateDir, Unlink, Rmdir, Write and Link, under every
    fault plan, the call only extends the journal of client calls, and:
    whichever step failed (a statement, the Begin or the Commit), the store
    after the call equals the store before it; when a statement or the Begin
    failed, the call returns an error; but when the Commit failed, the call
    returns a value, as if the mutation had been persisted.  The claim's
    "the operation returns an error" fails for the Commit: WithTransaction
    assigns the error of tx.Commit to its local variable after the result has
    been set. *)
Theorem failed_commit_is_reported_as_success :
  forall (c : call) (w : World),
    multi_step c = true ->
    exists l,
      journal (snd (run_call c w)) = journal w ++ l
      /\ (step_failed l -> db (snd (run_call c w)) = db w)
      /\ (stmt_failed l -> is_err (fst (run_call c w)) = true)
      /\ (commit_failed l ->
          step_failed l /\ is_ok (fst (run_call c w)) = true).
Proof.
  intros c w Hc.
  destruct (failed_statements_are_rolled_back c w Hc) as [(l & E & Hstmt) _].
  destruct (run_call_commit_lost c Hc w) as (l' & E' & Hcommit).
  assert (El : l' = l) by (apply (app_inv_head (journal w)); congruence).
  subst l'. exists l. split; [exact E|]. split; [|split].
  - intros (e & Hin & He).
    destruct e as [[|]|op [|]|[|]|]; try discriminate.
    + apply Hstmt. exists (EvBegin false). auto.
    + apply Hstmt. exists (EvStmt op false). auto.
    + apply Hcommit. exact Hin.
  - intros H. apply (Hstmt H).
  - intros H. split; [|apply (Hcommit H)].
    exists (EvCommit false). split; [exact H|reflexivity].
Qed.

Lemma failed_commit_is_reported_as_success_witness :
  is_ok (fst (run_call (CallCreateFile "tok" 1000 "g" 420) failed_commit_world))
  = true
  /\ db (snd (run_call (CallCreateFile "tok" 1000 "g" 420) failed_commit_world))
     = db failed_commit_world.
Proof.
  destruct (failed_commit_is_reported_as_success
              (CallCreateFile "tok" 1000 "g" 420) failed_commit_world eq_refl)
    as (l & E & Hdb & _ & Hok).
  change (journal failed_commit_world ++ l) with l in E.
  assert (Hc : commit_failed l).
  { rewrite <- E. vm_compute. tauto. }
  destruct (Hok Hc) as [Hstep Hr]. split; [exact Hr|]. apply (Hdb Hstep).
Defined.

(** A run in which only the Commit fails: [WithTransaction] drops its error,
    so CreateFile returns the new node while the store is as before. *)
Remark failed_commit_is_not_reported :
  is_ok (fst (CreateFile "tok" 1000 "g" 420 failed_commit_world)) = true
  /\ db (snd (CreateFile "tok" 1000 "g" 420 failed_commit_world))
     = db failed_commit_world
  /\ last (journal (snd (CreateFile "tok" 1000 "g" 420 failed_commit_world)))
          EvRollback = EvCommit false.
Proof. vm_compute. repeat split. Qed.

(** ** Fault-free runs of the operations *)

Lemma Unlink_run token parent name d :
  post true (Unlink token parent name) d
    (fun r d' =>
       let ino := lookup_ino d token parent name in
       if ino =? 0
       then r = Err (ServiceError kerrors.ENOENT "file not found") /\ d' = d
       else if is_file d token ino
       then r = Ok tt /\ d' = unlink_effect d token parent name
       else r = Err (ServiceError kerrors.EPERM "cannot unlink directory") /\ d' = d).
Proof.
  unfold Unlink. unfold_repos.
  post_auto.
  fold (lookup_ino d token parent name).
  destruct (lookup_ino d token parent name =? 0) eqn:Eino; post_auto.
  fold (is_file d token (lookup_ino d token parent name)).
  destruct (is_file d token _) eqn:Efile; cbn [negb]; post_auto.
  unfold unlink_effect.
  destruct (sql_select_inode _ token _) as [i|] eqn:Ei; post_auto.
  destruct (inode_RefCount i =? 0) eqn:Erc; post_auto.
Qed.

Lemma Rmdir_run token parent name d :
  post true (Rmdir token parent name) d
    (fun r d' =>
       let ino := lookup_ino d token parent name in
       if ino =? 0
       then r = Err (ServiceError kerrors.ENOENT "directory not found") /\ d' = d
       else if negb (is_dir d token ino)
       then r = Err (ServiceError kerrors.ENOTDIR "not a directory") /\ d' = d
       else if ino =? VTFS_ROOT_INO
       then r = Err (ServiceError kerrors.EPERM "cannot remove root directory")
            /\ d' = d
       else if sql_count_entries d token ino =? 0
       then r = Ok tt /\ d' = rmdir_effect d token parent name
       else r = Err (ServiceError kerrors.ENOTEMPTY "directory not empty") /\ d' = d).
Proof.
  unfold Rmdir. unfold_repos.
  post_auto.
  fold (lookup_ino d token parent name).
  destruct (lookup_ino d token parent name =? 0) eqn:Eino; post_auto.
  fold (is_dir d token (lookup_ino d token parent name)).
  destruct (is_dir d token _) eqn:Edir; cbn [negb]; post_auto.
  destruct (lookup_ino d token parent name =? VTFS_ROOT_INO) eqn:Eroot; post_auto.
  destruct (sql_count_entries d token _ =? 0) eqn:Eempty; cbn [negb]; post_auto.
Qed.

Lemma Rmdir_root_post token parent name d :
  post false (Rmdir token parent name) d
    (fun r d' =>
       lookup_ino d token parent name = VTFS_ROOT_INO ->
       is_err r = true /\ d' = d).
Proof.
  unfold Rmdir. unfold_repos.
  post_auto.
  fold (lookup_ino d token parent name).
  destruct (lookup_ino d token parent name =? 0) eqn:Eino; post_auto.
  fold (is_dir d token (lookup_ino d token parent name)).
  destruct (is_dir d token _) eqn:Edir; cbn [negb]; post_auto.
  destruct (lookup_ino d token parent name =? VTFS_ROOT_INO) eqn:Eroot; post_auto.
  apply Z.eqb_neq in Eroot.
  destruct (sql_count_entries d token _ =? 0) eqn:Eempty; cbn [negb]; post_auto.
  all: try (intros; contradiction).
  all: repeat split; intros; contradiction.
Qed.

(** ** Rows found after a statement *)

Section Find.

Context {X : Type}.
Variables p q : X -> bool.

Lemma find_filter_keep (l : list X) :
  (forall x, p x = true -> q x = true) -> find p (filter q l) = find p l.
Proof.
  intros H. induction l as [|x l IH]; simpl; [reflexivity|].
  destruct (p x) eqn:Ep.
  - rewrite (H x Ep). simpl. rewrite Ep. reflexivity.
  - destruct (q x); simpl; [rewrite Ep|]; exact IH.
Qed.

Lemma find_filter_drop (l : list X) :
  (forall x, p x = true -> q x = false) -> find p (filter q l) = None.
Proof.
  intros H. induction l as [|x l IH]; simpl; [reflexivity|].
  destruct (q x) eqn:Eq; simpl; [|exact IH].
  destruct (p x) eqn:Ep; [|exact IH].
  rewrite (H x Ep) in Eq. discriminate.
Qed.

Lemma find_filter_none (l : list X) :
  find p l = None -> find p (filter q l) = None.
Proof.
  induction l as [|x l IH]; simpl; [reflexivity|].
  destruct (p x) eqn:Ep; [discriminate|]. intros H.
  destruct (q x); simpl; [rewrite Ep|]; auto.
Qed.

Lemma find_map_key (f : X -> X) (l : list X) :
  (forall x, p (f x) = p x) -> find p (map f l) = option_map f (find p l).
Proof.
  intros H. induction l as [|x l IH]; simpl; [reflexivity|].
  rewrite H. destruct (p x); [reflexivity|exact IH].
Qed.

Lemma find_app_l (l l' : list X) (x : X) :
  find p l = Some x -> find p (l ++ l') = Some x.
Proof.
  induction l as [|y l IH]; simpl; [discriminate|].
  destruct (p y); auto.
Qed.

Lemma find_app_r (l l' : list X) :
  find p l = None -> find p (l ++ l') = find p l'.
Proof.
  induction l as [|y l IH]; simpl; [reflexivity|].
  destruct (p y); [discriminate|auto].
Qed.

Lemma existsb_find (l : list X) :
  existsb p l = match find p l with Some _ => true | None => false end.
Proof.
  induction l as [|y l IH]; simpl; [reflexivity|].
  destruct (p y); [reflexivity|exact IH].
Qed.

Lemma find_true (l : list X) (x : X) : find p l = Some x -> p x = true.
Proof. intros H. apply (find_some _ _ H). Qed.

End Find.

Lemma inode_at_iff token ino i :
  inode_at token ino i = true <-> inode_Token i = token /\ inode_Ino i = ino.
Proof.
  unfold inode_at. rewrite andb_true_iff, String.eqb_eq, Z.eqb_eq. tauto.
Qed.

Lemma de_at_iff token parent name e :
  de_at token parent name e = true
  <-> de_token e = token /\ de_parent_ino e = parent /\ de_name e = name.
Proof.
  unfold de_at. rewrite !andb_true_iff, !String.eqb_eq, Z.eqb_eq. tauto.
Qed.

Lemma de_in_iff token parent e :
  de_in token parent e = true <-> de_token e = token /\ de_parent_ino e = parent.
Proof.
  unfold de_in. rewrite andb_true_iff, String.eqb_eq, Z.eqb_eq. tauto.
Qed.

Lemma de_to_iff token ino e :
  de_to token ino e = true <-> de_token e = token /\ de_ino e = ino.
Proof.
  unfold de_to. rewrite andb_true_iff, String.eqb_eq, Z.eqb_eq. tauto.
Qed.

Lemma fc_at_iff token ino c :
  fc_at token ino c = true <-> fc_token c = token /\ fc_ino c = ino.
Proof.
  unfold fc_at. rewrite andb_true_iff, String.eqb_eq, Z.eqb_eq. tauto.
Qed.

Lemma not_true_false (b : bool) : ~ b = true -> b = false.
Proof. destruct b; congruence. Qed.

(** Deleting an inode leaves the rows of every other inode in place. *)
Lemma select_inode_delete_other d token ino token' ino' :
  (token', ino') <> (token, ino) ->
  sql_select_inode (sql_delete_inode d token ino) token' ino'
  = sql_select_inode d token' ino'.
Proof.
  intros Hne. unfold sql_select_inode, sql_delete_inode.
  destruct (existsb _ _); [|reflexivity]. simpl.
  apply find_filter_keep. intros x Hx. apply inode_at_iff in Hx.
  destruct Hx as [H1 H2]. apply negb_true_iff, not_true_false.
  rewrite inode_at_iff. intros [H3 H4]. apply Hne. congruence.
Qed.

Lemma select_inode_delete_same d token ino :
  sql_select_inode (sql_delete_inode d token ino) token ino = None.
Proof.
  unfold sql_select_inode, sql_delete_inode.
  destruct (existsb _ _) eqn:E; simpl.
  - apply find_filter_drop. intros x ->. reflexivity.
  - rewrite existsb_find in E. destruct (find _ _); [discriminate|reflexivity].
Qed.

Lemma select_entry_delete_inode_none d token ino token' parent name :
  sql_select_entry d token' parent name = None ->
  sql_select_entry (sql_delete_inode d token ino) token' parent name = None.
Proof.
  unfold sql_select_entry, sql_delete_inode.
  destruct (existsb _ _); [|auto]. simpl. apply find_filter_none.
Qed.

Lemma select_entry_delete_same d token parent name :
  sql_select_entry (sql_delete_entry d token parent name) token parent name = None.
Proof.
  unfold sql_select_entry, sql_delete_entry. simpl.
  apply find_filter_drop. intros x ->. reflexivity.
Qed.

(** ** Rmdir *)

Lemma count_entries_zero d token ino :
  (sql_count_entries d token ino =? 0) = true <-> dir_entries d token ino = [].
Proof.
  unfold sql_count_entries, dir_entries. rewrite Z.eqb_eq.
  destruct (filter _ _) as [|e l]; simpl length.
  - split; reflexivity.
  - split; intros H; [lia|discriminate].
Qed.

(** C5: under every fault plan and on every store, a call of Rmdir leaves the
    row of the root inode (number 1000) of every namespace in place; and a call
    whose entry resolves to the root inode fails and changes nothing, with
    OperationNotPermitted when the root inode is a directory and no client
    call fails.  No assumption is made on the entries of the root directory. *)
Theorem rmdir_root_is_not_permitted :
  forall (w : World) (token : string) (parent : Z) (name : string),
    (forall token' i,
        sql_select_inode (db w) token' VTFS_ROOT_INO = Some i ->
        sql_select_inode (db (snd (Rmdir token parent name w))) token' VTFS_ROOT_INO
        = Some i)
    /\ (lookup_ino (db w) token parent name = VTFS_ROOT_INO ->
        is_err (fst (Rmdir token parent name w)) = true
        /\ db (snd (Rmdir token parent name w)) = db w
        /\ (fault_free (faults w) ->
            is_dir (db w) token VTFS_ROOT_INO = true ->
            fst (Rmdir token parent name w)
            = Err (ServiceError kerrors.EPERM "cannot remove root directory"))).
Proof.
  intros w token parent name. split.
  - intros token' i Hi.
    destruct (post_run _ w _ (Rmdir_post token parent name (db w))) as [_ [E|S]].
    + rewrite E. exact Hi.
    + destruct S as (_ & _ & Hroot & _ & ->). unfold rmdir_effect.
      rewrite select_inode_delete_other; [exact Hi|]. congruence.
  - intros Hroot.
    destruct (post_run _ w _ (Rmdir_root_post token parent name (db w)) Hroot)
      as [He Hd].
    split; [exact He|]. split; [exact Hd|].
    intros Hf Hdir.
    pose proof (post_run_ff _ w _ Hf (Rmdir_run token parent name (db w))) as H.
    cbv zeta in H. rewrite Hroot in H. rewrite Hdir in H.
    change (VTFS_ROOT_INO =? 0) with false in H.
    rewrite Z.eqb_refl in H. cbn [negb] in H. apply H.
Qed.

Lemma rmdir_root_is_not_permitted_witness :
  fst (Rmdir "tok" 1001 "up" (mkWorld looped_db [] []))
  = Err (ServiceError kerrors.EPERM "cannot remove root directory")
  /\ db (snd (Rmdir "tok" 1001 "up" (mkWorld looped_db [] []))) = looped_db.
Proof.
  destruct (rmdir_root_is_not_permitted (mkWorld looped_db [] []) "tok" 1001 "up")
    as [_ H].
  destruct (H eq_refl) as (_ & Hd & He).
  split; [|exact Hd].
  apply He; [exact fault_free_nil|reflexivity].
Defined.

(** C6: when no client call fails, Rmdir on an entry that resolves to an
    existing directory other than the root succeeds if and only if that
    directory has no entries; it then removes the entry and the inode.  If the
    directory has an entry, Rmdir fails with DirectoryNotEmpty and the store is
    unchanged. *)
Theorem rmdir_succeeds_iff_directory_is_empty :
  forall (w : World) (token : string) (parent : Z) (name : string),
    fault_free (faults w) ->
    lookup_ino (db w) token parent name <> 0 ->
    is_dir (db w) token (lookup_ino (db w) token parent name) = true ->
    lookup_ino (db w) token parent name <> VTFS_ROOT_INO ->
    (fst (Rmdir token parent name w) = Ok tt
     <-> dir_entries (db w) token (lookup_ino (db w) token parent name) = [])
    /\ (dir_entries (db w) token (lookup_ino (db w) token parent name) = [] ->
        sql_select_entry (db (snd (Rmdir token parent name w))) token parent name
        = None
        /\ sql_select_inode (db (snd (Rmdir token parent name w))) token
             (lookup_ino (db w) token parent name) = None)
    /\ (dir_entries (db w) token (lookup_ino (db w) token parent name) <> [] ->
        fst (Rmdir token parent name w)
        = Err (ServiceError kerrors.ENOTEMPTY "directory not empty")
        /\ db (snd (Rmdir token parent name w)) = db w).
Proof.
  intros w token parent name Hf Hino Hdir Hroot.
  pose proof (post_run_ff _ w _ Hf (Rmdir_run token parent name (db w))) as H.
  cbv zeta in H.
  apply Z.eqb_neq in Hino, Hroot. rewrite Hino, Hdir, Hroot in H. cbn [negb] in H.
  destruct (sql_count_entries _ _ _ =? 0) eqn:Ec.
  - destruct H as [Hr Hd]. apply count_entries_zero in Ec.
    split; [tauto|]. split; [|intros Hne; contradiction].
    intros _. rewrite Hd. unfold rmdir_effect. split.
    + apply select_entry_delete_inode_none, select_entry_delete_same.
    + apply select_inode_delete_same.
  - destruct H as [Hr Hd].
    assert (Hne : dir_entries (db w) token (lookup_ino (db w) token parent name) <> []).
    { intros E. apply count_entries_zero in E. congruence. }
    split; [|split; [intros E; contradiction|auto]].
    rewrite Hr. split; [discriminate|intros E; contradiction].
Qed.

Lemma rmdir_succeeds_iff_directory_is_empty_witness :
  (fst (Rmdir "tok" 1000 "dir" sample_world)
   = Err (ServiceError kerrors.ENOTEMPTY "directory not empty")
   /\ db (snd (Rmdir "tok" 1000 "dir" sample_world)) = db sample_world)
  /\ fst (Rmdir "tok" 1000 "empty" two_dirs_world) = Ok tt.
Proof.
  split.
  - apply (rmdir_succeeds_iff_directory_is_empty sample_world "tok" 1000 "dir").
    + exact fault_free_nil.
    + vm_compute. discriminate.
    + reflexivity.
    + vm_compute. discriminate.
    + vm_compute. discriminate.
  - apply (rmdir_succeeds_iff_directory_is_empty two_dirs_world "tok" 1000 "empty").
    + exact fault_free_nil.
    + vm_compute. discriminate.
    + reflexivity.
    + vm_compute. discriminate.
    + reflexivity.
Defined.

(** ** Unlink *)

Lemma select_inode_update_ref_count d token ino delta :
  sql_select_inode (sql_update_ref_count d token ino delta) token ino
  = option_map (add_ref_count delta) (sql_select_inode d token ino).
Proof.
  unfold sql_select_inode, sql_update_ref_count. simpl.
  rewrite find_map_key.
  - destruct (find _ _) as [i|] eqn:E; simpl; [|reflexivity].
    rewrite (find_true _ _ _ E). reflexivity.
  - intros x. destruct (inode_at token ino x) eqn:E; [|exact E].
    exact E.
Qed.

Lemma select_content_delete_same d token ino :
  sql_select_content (sql_delete_content d token ino) token ino = None.
Proof.
  unfold sql_select_content, sql_delete_content. simpl.
  apply find_filter_drop. intros x ->. reflexivity.
Qed.

Lemma select_content_delete_inode_none d token ino token' ino' :
  sql_select_content d token' ino' = None ->
  sql_select_content (sql_delete_inode d token ino) token' ino' = None.
Proof.
  unfold sql_select_content, sql_delete_inode.
  destruct (existsb _ _); [|auto]. simpl. apply find_filter_none.
Qed.

Lemma lookup_ino_some d token parent name e :
  sql_select_entry d token parent name = Some e ->
  lookup_ino d token parent name = de_ino e.
Proof. unfold lookup_ino. intros ->. reflexivity. Qed.

Lemma lookup_ino_none d token parent name :
  sql_select_entry d token parent name = None ->
  lookup_ino d token parent name = 0.
Proof. unfold lookup_ino. intros ->. reflexivity. Qed.

(** C7: when no client call fails, Unlink fails with NotFound if no entry
    (parent, name) exists; fails with OperationNotPermitted and changes nothing
    if the entry's target is a directory inode; and if the target is a regular
    file returns success, the entry is gone, and the target's ref_count is
    decremented: exactly when it reaches 0 the target's inode row and content
    row are gone, otherwise the inode row is kept with the decremented count
    and the content is untouched. *)
Theorem unlink_removes_entry_and_last_reference :
  forall (w : World) (token : string) (parent : Z) (name : string),
    fault_free (faults w) ->
    (sql_select_entry (db w) token parent name = None ->
     fst (Unlink token parent name w)
     = Err (ServiceError kerrors.ENOENT "file not found")
     /\ db (snd (Unlink token parent name w)) = db w)
    /\ (forall e i,
          sql_select_entry (db w) token parent name = Some e ->
          de_ino e <> 0 ->
          sql_select_inode (db w) token (de_ino e) = Some i ->
          (inode_Type i = NodeTypeDir ->
           fst (Unlink token parent name w)
           = Err (ServiceError kerrors.EPERM "cannot unlink directory")
           /\ db (snd (Unlink token parent name w)) = db w)
          /\ (inode_Type i = NodeTypeFile ->
              fst (Unlink token parent name w) = Ok tt
              /\ sql_select_entry (db (snd (Unlink token parent name w)))
                   token parent name = None
              /\ (inode_RefCount i - 1 = 0 ->
                  sql_select_inode (db (snd (Unlink token parent name w)))
                    token (de_ino e) = None
                  /\ sql_select_content (db (snd (Unlink token parent name w)))
                       token (de_ino e) = None)
              /\ (inode_RefCount i - 1 <> 0 ->
                  sql_select_inode (db (snd (Unlink token parent name w)))
                    token (de_ino e) = Some (add_ref_count (-1) i)
                  /\ sql_select_content (db (snd (Unlink token parent name w)))
                       token (de_ino e)
                     = sql_select_content (db w) token (de_ino e)))).
Proof.
  intros w token parent name Hf.
  pose proof (post_run_ff _ w _ Hf (Unlink_run token parent name (db w))) as H.
  cbv zeta in H. split.
  - intros He. rewrite (lookup_ino_none _ _ _ _ He) in H. exact H.
  - intros e i He Hino Hi.
    unfold unlink_effect in H.
    rewrite (lookup_ino_some _ _ _ _ _ He) in H.
    apply Z.eqb_neq in Hino. rewrite Hino in H.
    unfold is_file in H. rewrite Hi in H. split.
    + intros Hty. rewrite Hty in H. exact H.
    + intros Hty. rewrite Hty, Z.eqb_refl in H. destruct H as [Hr Hd].
      split; [exact Hr|].
      rewrite select_inode_update_ref_count in Hd.
      change (sql_select_inode (sql_delete_entry (db w) token parent name)
                token (de_ino e))
        with (sql_select_inode (db w) token (de_ino e)) in Hd.
      rewrite Hi in Hd. cbn [option_map add_ref_count inode_RefCount] in Hd.
      change (inode_RefCount i + -1) with (inode_RefCount i - 1) in Hd.
      destruct (inode_RefCount i - 1 =? 0) eqn:Erc.
      * apply Z.eqb_eq in Erc. rewrite Hd.
        split; [|split; [intros _|intros Hne; contradiction]].
        -- apply select_entry_delete_inode_none.
           apply (select_entry_delete_same (db w) token parent name).
        -- split; [apply select_inode_delete_same|].
           apply select_content_delete_inode_none, select_content_delete_same.
      * apply Z.eqb_neq in Erc. rewrite Hd.
        split; [|split; [intros E; contradiction|intros _]].
        -- apply (select_entry_delete_same (db w) token parent name).
        -- split; [|reflexivity].
           rewrite select_inode_update_ref_count.
           change (sql_select_inode (sql_delete_entry (db w) token parent name)
                     token (de_ino e))
             with (sql_select_inode (db w) token (de_ino e)).
           rewrite Hi. reflexivity.
Qed.

Lemma unlink_removes_entry_and_last_reference_witness :
  fst (Unlink "tok" 1001 "f.txt" sample_world) = Ok tt
  /\ sql_select_inode (db (snd (Unlink "tok" 1001 "f.txt" sample_world))) "tok" 1002
     = None.
Proof.
  destruct (unlink_removes_entry_and_last_reference
              sample_world "tok" 1001 "f.txt" fault_free_nil) as [_ H].
  destruct (H (mkEntry "tok" 1001 "f.txt" 1002) (mkInode 1002 "tok" 1 2468 0 1)
              eq_refl ltac:(discriminate) eq_refl) as [_ H2].
  destruct (H2 eq_refl) as (Hr & _ & Hz & _).
  split; [exact Hr|]. apply Hz. reflexivity.
Defined.

(** ** Write *)

Lemma wrap64_id (z : Z) : - 2 ^ 63 <= z < 2 ^ 63 -> wrap64 z = z.
Proof.
  intros H. unfold wrap64. rewrite Z.mod_small; lia.
Qed.

Lemma len_nonneg {X} (l : list X) : 0 <= len l.
Proof. unfold len. lia. Qed.

Lemma len_app {X} (l l' : list X) : len (l ++ l') = len l + len l'.
Proof. unfold len. rewrite length_app. lia. Qed.

Lemma len_repeat {X} (x : X) (n : nat) : len (repeat x n) = Z.of_nat n.
Proof. unfold len. rewrite repeat_length. reflexivity. Qed.

Lemma len_firstn_le {X} (l : list X) (n : Z) :
  0 <= n <= len l -> len (firstn (Z.to_nat n) l) = n.
Proof. unfold len. intros H. rewrite length_firstn. lia. Qed.

Lemma skipn_repeat {X} (x : X) (k n : nat) :
  skipn k (repeat x n) = repeat x (n - k).
Proof.
  revert n. induction k as [|k IH]; intros n; simpl.
  - rewrite Nat.sub_0_r. reflexivity.
  - destruct n as [|n]; simpl; [reflexivity|apply IH].
Qed.

(** Extending with [make] and [copy] appends zero bytes. *)
Lemma extend_is_zero_extend (c : list byte) (newSize : Z) :
  len c < newSize ->
  go_copy (zeros newSize) c = zero_extend c newSize.
Proof.
  unfold go_copy, zeros, zero_extend, len. intros H.
  rewrite repeat_length, firstn_all2 by lia.
  rewrite skipn_repeat. f_equal. f_equal. lia.
Qed.

Lemma written_is_write_spec (c data : list byte) (n off : Z) :
  0 <= off -> 0 <= n <= len data -> off + n <= MaxInt64 ->
  written c (firstn (Z.to_nat n) data) (wrap64 (off + wrap64 n)) off
  = write_spec c data n off.
Proof.
  unfold MaxInt64. intros Hoff Hn Hmax.
  rewrite (wrap64_id n), (wrap64_id (off + n)) by lia.
  unfold written, write_spec, splice.
  assert (Hext : (if off + n >? len c
                  then go_copy (zeros (off + n)) c else c)
                 = zero_extend c (Z.max (len c) (off + n))).
  { destruct (off + n >? len c) eqn:E.
    - apply Z.gtb_lt in E. rewrite Z.max_r by lia.
      apply extend_is_zero_extend. lia.
    - rewrite Z.gtb_ltb in E. apply Z.ltb_ge in E. rewrite Z.max_l by lia.
      unfold zero_extend. rewrite Z.sub_diag. simpl. rewrite app_nil_r.
      reflexivity. }
  rewrite Hext. set (ext := zero_extend c (Z.max (len c) (off + n))).
  assert (Hlen : len ext = Z.max (len c) (off + n)).
  { unfold ext, zero_extend. rewrite len_app, len_repeat.
    pose proof (len_nonneg c). lia. }
  f_equal. unfold go_copy.
  assert (Hwd : length (firstn (Z.to_nat n) data) = Z.to_nat n).
  { rewrite length_firstn. unfold len in Hn. lia. }
  rewrite Hwd, firstn_all2.
  - f_equal. rewrite skipn_skipn. f_equal. lia.
  - rewrite Hwd, length_skipn. unfold len in Hlen. lia.
Qed.

Lemma len_write_spec (c data : list byte) (n off : Z) :
  0 <= off -> 0 <= n <= len data ->
  len (write_spec c data n off) = Z.max (len c) (off + n).
Proof.
  intros Hoff Hn. unfold write_spec, splice.
  set (ext := zero_extend c (Z.max (len c) (off + n))).
  assert (Hlen : len ext = Z.max (len c) (off + n)).
  { unfold ext, zero_extend. rewrite len_app, len_repeat.
    pose proof (len_nonneg c). lia. }
  rewrite !len_app, len_firstn_le by lia.
  rewrite (len_firstn_le data n) by lia.
  unfold len in *. rewrite length_skipn, length_firstn. lia.
Qed.

Lemma firstn_repeat {X} (x : X) (k n : nat) :
  (k <= n)%nat -> firstn k (repeat x n) = repeat x k.
Proof.
  revert n. induction k as [|k IH]; intros n H; simpl; [reflexivity|].
  destruct n as [|n]; [lia|]. simpl. f_equal. apply IH. lia.
Qed.

Lemma write_spec_empty (data : list byte) (n off : Z) :
  0 <= off -> 0 <= n <= len data ->
  write_spec [] data n off = repeat x00 (Z.to_nat off) ++ firstn (Z.to_nat n) data.
Proof.
  intros Hoff Hn. unfold write_spec, splice, zero_extend.
  change (len []) with 0. rewrite Z.max_r, Z.sub_0_r by lia. simpl app.
  rewrite skipn_repeat, firstn_repeat by lia.
  rewrite length_firstn. unfold len in Hn.
  replace (Z.to_nat (off + n) - (Z.to_nat off + Nat.min (Z.to_nat n) (length data)))%nat
    with 0%nat by lia.
  simpl. rewrite app_nil_r. reflexivity.
Qed.

Lemma select_inode_exists d token ino i :
  sql_select_inode d token ino = Some i ->
  existsb (inode_at token ino) (inodes d) = true.
Proof.
  unfold sql_select_inode. intros H. rewrite existsb_find, H. reflexivity.
Qed.

Lemma upsert_content_ok d token ino bytes :
  existsb (inode_at token ino) (inodes d) = true ->
  exists d1,
    sql_upsert_content d token ino bytes = PgOk tt d1
    /\ filesystems d1 = filesystems d
    /\ inodes d1 = inodes d
    /\ directory_entries d1 = directory_entries d
    /\ content_of d1 token ino = bytes.
Proof.
  intros Hex. unfold sql_upsert_content. rewrite Hex. cbn [negb].
  destruct (existsb (fc_at token ino) (file_contents d)) eqn:Ec;
    eexists; (split; [reflexivity|]); repeat (split; [reflexivity|]);
    unfold content_of, sql_select_content; simpl.
  - rewrite find_map_key.
    + rewrite existsb_find in Ec.
      destruct (find _ _) as [c|] eqn:Ef; [|discriminate]. simpl.
      rewrite (find_true _ _ _ Ef). reflexivity.
    + intros x. destruct (fc_at token ino x) eqn:E; exact E.
  - rewrite find_app_r.
    + simpl. unfold fc_at. simpl. rewrite String.eqb_refl, Z.eqb_refl. reflexivity.
    + rewrite existsb_find in Ec. destruct (find _ _); [discriminate|reflexivity].
Qed.

Lemma select_inode_update_size d token ino size :
  sql_select_inode (sql_update_size d token ino size) token ino
  = option_map (set_size size) (sql_select_inode d token ino).
Proof.
  unfold sql_select_inode, sql_update_size. simpl.
  rewrite find_map_key.
  - destruct (find _ _) as [i|] eqn:E; simpl; [|reflexivity].
    rewrite (find_true _ _ _ E). reflexivity.
  - intros x. destruct (inode_at token ino x) eqn:E; exact E.
Qed.

Lemma Write_run token ino data length offset d :
  post true (Write token ino data length offset) d
    (fun r d' =>
       forall i,
         (length >? len data) = false ->
         (offset <? 0) = false ->
         sql_select_inode d token ino = Some i ->
         inode_Type i = NodeTypeFile ->
         let newSize := wrap64 (offset + wrap64 length) in
         let cur := content_of d token ino in
         if (newSize >? len cur) && negb (newSize <=? maxAlloc)
         then r = Panic "makeslice: len out of range" /\ d' = d
         else
           let ext := if newSize >? len cur
                      then go_copy (zeros newSize) cur else cur in
           match go_slice ext offset (len ext) with
           | None => r = Panic "slice bounds out of range" /\ d' = d
           | Some _ =>
               let bytes :=
                 written cur (firstn (Z.to_nat length) data) newSize offset in
               exists d1,
                 sql_upsert_content d token ino bytes = PgOk tt d1
                 /\ r = Ok (wrap64 length)
                 /\ d' = sql_update_size d1 token ino (len bytes)
           end).
Proof.
  unfold Write. unfold_repos.
  destruct (length >? len data) eqn:Elen; post_auto; [discriminate|].
  destruct (offset <? 0) eqn:Eoff; post_auto; [discriminate|].
  destruct (sql_select_inode d token ino) as [i|] eqn:Ei; post_auto;
    [|discriminate].
  destruct (inode_Type i =? NodeTypeFile) eqn:Ety; cbn [negb]; post_auto.
  2:{ intros i' _ _ [= <-] Hty. rewrite Hty in Ety. discriminate. }
  fold (content_of d token ino).
  set (newSize := wrap64 (offset + wrap64 length)).
  set (c := content_of d token ino).
  assert (Hstore : forall ext,
             go_slice ext offset (len ext) <> None ->
             exists dst d1,
               go_slice ext offset (len ext) = Some dst
               /\ dst = skipn (Z.to_nat offset) ext
               /\ sql_upsert_content d token ino
                    (firstn (Z.to_nat offset) ext
                     ++ go_copy (skipn (Z.to_nat offset) ext)
                          (firstn (Z.to_nat length) data)) = PgOk tt d1).
  { intros ext Hne.
    destruct (go_slice ext offset (len ext)) as [dst|] eqn:Edst; [|contradiction].
    destruct (upsert_content_ok d token ino
                (firstn (Z.to_nat offset) ext
                 ++ go_copy (skipn (Z.to_nat offset) ext)
                      (firstn (Z.to_nat length) data))
                (select_inode_exists _ _ _ _ Ei)) as (d1 & E1 & _).
    exists dst, d1. split; [reflexivity|].
    split; [apply (go_slice_to_end _ _ _ Edst)|exact E1]. }
  destruct (newSize >? len c) eqn:Egt; cbn [andb].
  - assert (H0 : (0 <=? newSize) = true).
    { apply Z.leb_le. apply Z.gtb_lt in Egt. pose proof (len_nonneg c). lia. }
    unfold make_bytes. rewrite H0. cbn [andb].
    destruct (newSize <=? maxAlloc) eqn:Emax; cbn [negb]; post_auto.
    set (ext := go_copy (zeros newSize) c).
    destruct (go_slice ext offset (len ext)) as [dst|] eqn:Edst; post_auto.
    destruct (Hstore ext) as (dst' & d1 & E0 & -> & E1); [congruence|].
    rewrite Edst in E0. injection E0 as ->.
    rewrite E1. post_auto.
    intros i' _ _ _ _. exists d1. unfold written. fold c. rewrite Egt. fold ext.
    auto.
  - post_auto.
    destruct (go_slice c offset (len c)) as [dst|] eqn:Edst; post_auto.
    destruct (Hstore c) as (dst' & d1 & E0 & -> & E1); [congruence|].
    rewrite Edst in E0. injection E0 as ->.
    rewrite E1. post_auto.
    intros i' _ _ _ _. exists d1. unfold written. fold c. rewrite Egt.
    auto.
Qed.

(** C3 (as amended): when no client call fails, for an existing regular file
    with content c, every offset off >= 0 and every length n <= |data| with
    off + n <= 2^48 (the largest slice that the runtime allocates), Write
    returns n; afterwards the content is c zero-extended to length
    max(|c|, off + n) with data[0..n) spliced in at off, and the inode's size
    is that length.  Into an empty file this is off zero bytes followed by
    data[0..n). *)
Theorem write_zero_extends_and_splices :
  forall (w : World) (token : string) (ino : Z) (data : list byte) (n off : Z)
         (i : Inode),
    fault_free (faults w) ->
    sql_select_inode (db w) token ino = Some i ->
    inode_Type i = NodeTypeFile ->
    0 <= off -> 0 <= n <= len data -> off + n <= maxAlloc ->
    fst (Write token ino data n off w) = Ok n
    /\ content_of (db (snd (Write token ino data n off w))) token ino
       = write_spec (content_of (db w) token ino) data n off
    /\ sql_select_inode (db (snd (Write token ino data n off w))) token ino
       = Some (set_size (Z.max (len (content_of (db w) token ino)) (off + n)) i)
    /\ len (content_of (db (snd (Write token ino data n off w))) token ino)
       = Z.max (len (content_of (db w) token ino)) (off + n)
    /\ (content_of (db w) token ino = [] ->
        content_of (db (snd (Write token ino data n off w))) token ino
        = repeat x00 (Z.to_nat off) ++ firstn (Z.to_nat n) data).
Proof.
  intros w token ino data n off i Hf Hi Hty Hoff Hn Halloc.
  assert (Hmax : off + n <= MaxInt64)
    by (unfold maxAlloc in Halloc; unfold MaxInt64; lia).
  assert (Hle : (off + n <=? maxAlloc) = true) by (apply Z.leb_le; exact Halloc).
  pose proof (post_run_ff _ w _ Hf (Write_run token ino data n off (db w)) i) as H.
  cbv zeta in H.
  assert (Hgt : (n >? len data) = false).
  { rewrite Z.gtb_ltb. apply Z.ltb_ge. lia. }
  assert (Hlt : (off <? 0) = false) by (apply Z.ltb_ge; lia).
  specialize (H Hgt Hlt Hi Hty).
  unfold MaxInt64 in Hmax.
  rewrite (wrap64_id n), (wrap64_id (off + n)) in H by lia.
  rewrite Hle, andb_false_r in H.
  set (c := content_of (db w) token ino) in *.
  set (ext := if off + n >? len c then go_copy (zeros (off + n)) c else c) in *.
  assert (Hext : off <= len ext).
  { unfold ext. destruct (off + n >? len c) eqn:E.
    - apply Z.gtb_lt in E. rewrite extend_is_zero_extend by lia.
      unfold zero_extend. rewrite len_app, len_repeat.
      pose proof (len_nonneg c). lia.
    - rewrite Z.gtb_ltb in E. apply Z.ltb_ge in E. lia. }
  unfold go_slice in H.
  replace ((0 <=? off) && (off <=? len ext) && (len ext <=? len ext)) with true in H.
  2:{ symmetry. rewrite !andb_true_iff, !Z.leb_le. lia. }
  destruct H as (d1 & E1 & Hr & Hd).
  pose proof (written_is_write_spec c data n off Hoff Hn) as Hw.
  unfold MaxInt64 in Hw.
  rewrite (wrap64_id n), (wrap64_id (off + n)) in Hw by lia.
  rewrite Hw in E1, Hd by lia.
  destruct (upsert_content_ok (db w) token ino (write_spec c data n off)
              (select_inode_exists _ _ _ _ Hi)) as (d1' & E1' & _ & Hin & _ & Hc).
  rewrite E1 in E1'. injection E1' as <-.
  assert (Hcontent : content_of (db (snd (Write token ino data n off w))) token ino
                     = write_spec c data n off).
  { rewrite Hd. exact Hc. }
  split; [exact Hr|]. split; [exact Hcontent|]. split; [|split].
  - rewrite Hd, select_inode_update_size.
    unfold sql_select_inode. rewrite Hin. fold (sql_select_inode (db w) token ino).
    rewrite Hi. simpl. rewrite len_write_spec by lia. reflexivity.
  - rewrite Hcontent. apply len_write_spec; lia.
  - intros Hc0. rewrite Hcontent, Hc0. apply write_spec_empty; lia.
Qed.

Lemma write_zero_extends_and_splices_witness :
  fst (Write "tok" 1002 [x68; x65; x6c; x6c; x6f] 5 10 sample_world) = Ok 5
  /\ content_of (db (snd (Write "tok" 1002 [x68; x65; x6c; x6c; x6f] 5 10
                            sample_world))) "tok" 1002
     = repeat x00 10 ++ [x68; x65; x6c; x6c; x6f].
Proof.
  destruct (write_zero_extends_and_splices
              sample_world "tok" 1002 [x68; x65; x6c; x6c; x6f] 5 10
              (mkInode 1002 "tok" 1 2468 0 1))
    as (Hr & _ & _ & _ & Hc).
  - exact fault_free_nil.
  - reflexivity.
  - reflexivity.
  - lia.
  - unfold len. simpl. lia.
  - unfold maxAlloc. lia.
  - split; [exact Hr|]. apply Hc. reflexivity.
Defined.

(** C3 as stated fails where off + n overflows an int64: writing one byte at
    offset 2^63 - 1 into the empty file panics and stores nothing. *)
Lemma write_at_max_offset_panics :
  fst (Write "tok" 1002 [x68] 1 MaxInt64 sample_world)
  = Panic "slice bounds out of range"
  /\ fst (Write "tok" 1002 [x68] 1 MaxInt64 sample_world) <> Ok 1
  /\ db (snd (Write "tok" 1002 [x68] 1 MaxInt64 sample_world)) = db sample_world.
Proof.
  split; [vm_compute; reflexivity|]. split; [vm_compute; discriminate|].
  vm_compute. reflexivity.
Qed.

(** ** Read *)

Lemma go_slice_some (s : list byte) (lo k : Z) :
  0 <= lo -> 0 <= k -> lo + k <= len s ->
  go_slice s lo (lo + k)
  = Some (firstn (Z.to_nat k) (skipn (Z.to_nat lo) s)).
Proof.
  intros Hlo Hk Hhi. unfold go_slice.
  replace ((0 <=? lo) && (lo <=? lo + k) && (lo + k <=? len s)) with true.
  - do 3 f_equal. lia.
  - symmetry. rewrite !andb_true_iff, !Z.leb_le. lia.
Qed.

Lemma Read_run token ino buffer offset d :
  post true (Read token ino buffer offset) d
    (fun r d' =>
       d' = d /\
       forall i,
         sql_select_inode d token ino = Some i ->
         inode_Type i = NodeTypeFile ->
         0 <= offset <= MaxInt64 ->
         inode_Size i = len (content_of d token ino) ->
         inode_Size i <= MaxInt64 ->
         let n := Z.max 0 (Z.min (len buffer) (inode_Size i - offset)) in
         let data := firstn (Z.to_nat n)
                       (skipn (Z.to_nat offset) (content_of d token ino)) in
         r = Ok (n, data ++ skipn (Z.to_nat n) buffer)).
Proof.
  unfold Read. unfold_repos.
  post_auto.
  destruct (sql_select_inode d token ino) as [i|] eqn:Ei; post_auto;
    [|split; [reflexivity|discriminate]].
  destruct (inode_Type i =? NodeTypeFile) eqn:Ety; cbn [negb]; post_auto.
  2:{ split; [reflexivity|]. intros i' [= <-] Hty. rewrite Hty in Ety. discriminate. }
  destruct (offset <? 0) eqn:Eoff; post_auto.
  { split; [reflexivity|]. intros i' _ _ Ho. apply Z.ltb_lt in Eoff. lia. }
  apply Z.ltb_ge in Eoff.
  fold (content_of d token ino).
  set (c := content_of d token ino).
  assert (Hc := len_nonneg c). assert (Hb := len_nonneg buffer).
  destruct (wrap64 (inode_Size i - offset) <=? 0) eqn:Eav; post_auto.
  { split; [reflexivity|]. intros i' [= <-] _ Ho Hsz Hmax. unfold MaxInt64 in *.
    rewrite wrap64_id in Eav by lia. apply Z.leb_le in Eav.
    rewrite Z.max_l by lia. reflexivity. }
  assert (Hrun : forall i', Some i = Some i' -> 0 <= offset <= MaxInt64 ->
                 inode_Size i' = len c -> inode_Size i' <= MaxInt64 ->
                 0 < inode_Size i - offset
                 /\ wrap64 (inode_Size i - offset) = inode_Size i - offset).
  { intros i' [= <-] Ho Hsz Hmax. unfold MaxInt64 in *.
    rewrite wrap64_id in Eav by lia. apply Z.leb_gt in Eav.
    split; [lia|]. apply wrap64_id. lia. }
  set (toRead := if len buffer >? wrap64 (inode_Size i - offset)
                 then wrap64 (inode_Size i - offset) else len buffer).
  fold (content_of d token ino). fold c.
  destruct (offset >=? len c) eqn:Ege; post_auto.
  { split; [reflexivity|]. intros i' Hi' _ Ho Hsz Hmax.
    destruct (Hrun i' Hi' Ho Hsz Hmax) as [Hpos _]. injection Hi' as <-.
    rewrite Z.geb_leb in Ege. apply Z.leb_le in Ege. lia. }
  rewrite Z.geb_leb in Ege. apply Z.leb_gt in Ege.
  set (k := if toRead >? len c - offset then len c - offset else toRead).
  destruct (go_slice c offset (offset + k)) as [s|] eqn:Es; post_auto.
  - split; [reflexivity|]. intros i' Hi' _ Ho Hsz Hmax.
    destruct (Hrun i' Hi' Ho Hsz Hmax) as [Hpos Hw]. injection Hi' as <-.
    assert (Hk : k = Z.min (len buffer) (inode_Size i - offset)).
    { unfold k, toRead. rewrite Hw, Hsz.
      destruct (len buffer >? len c - offset) eqn:E1.
      - rewrite Z.gtb_ltb, Z.ltb_irrefl. apply Z.gtb_lt in E1. lia.
      - rewrite E1. rewrite Z.gtb_ltb in E1. apply Z.ltb_ge in E1. lia. }
    rewrite Z.max_r by lia. rewrite <- Hk.
    rewrite go_slice_some in Es by lia. injection Es as <-.
    set (data := firstn (Z.to_nat k) (skipn (Z.to_nat offset) c)).
    assert (Hdata : length data = Z.to_nat k).
    { unfold data. rewrite length_firstn, length_skipn. unfold len in *. lia. }
    unfold len at 1. rewrite Hdata, Z2Nat.id by lia.
    unfold go_copy. rewrite Hdata, firstn_all2; [reflexivity|].
    rewrite Hdata. unfold len in *. lia.
  - split; [reflexivity|]. intros i' Hi' _ Ho Hsz Hmax.
    destruct (Hrun i' Hi' Ho Hsz Hmax) as [Hpos Hw]. injection Hi' as <-.
    assert (Hk : 0 <= k /\ offset + k <= len c).
    { unfold k, toRead. rewrite Hw, Hsz.
      destruct (len buffer >? len c - offset) eqn:E1.
      - rewrite Z.gtb_ltb, Z.ltb_irrefl. lia.
      - rewrite E1. rewrite Z.gtb_ltb in E1. apply Z.ltb_ge in E1. lia. }
    rewrite go_slice_some in Es by lia. discriminate.
Qed.

(** C4: when no client call fails, for an existing regular file of size s
    whose content has that length, and every offset off >= 0, Read succeeds,
    leaves the store unchanged and returns exactly
    max(0, min(len(buffer), s - off)) bytes, which are the bytes of the
    content at positions [off, off + count); at off >= s it returns 0 bytes
    with success. *)
Theorem read_returns_clamped_range :
  forall (w : World) (token : string) (ino : Z) (buffer : list byte) (off : Z)
         (i : Inode),
    fault_free (faults w) ->
    sql_select_inode (db w) token ino = Some i ->
    inode_Type i = NodeTypeFile ->
    0 <= off <= MaxInt64 ->
    inode_Size i = len (content_of (db w) token ino) ->
    inode_Size i <= MaxInt64 ->
    exists n buffer',
      fst (Read token ino buffer off w) = Ok (n, buffer')
      /\ db (snd (Read token ino buffer off w)) = db w
      /\ (off < inode_Size i -> n = Z.min (len buffer) (inode_Size i - off))
      /\ (inode_Size i <= off -> n = 0)
      /\ len (firstn (Z.to_nat n) buffer') = n
      /\ firstn (Z.to_nat n) buffer'
         = firstn (Z.to_nat n)
             (skipn (Z.to_nat off) (content_of (db w) token ino)).
Proof.
  intros w token ino buffer off i Hf Hi Hty Hoff Hsz Hmax.
  destruct (post_run_ff _ w _ Hf (Read_run token ino buffer off (db w)))
    as [Hd H].
  specialize (H i Hi Hty Hoff Hsz Hmax). cbv zeta in H.
  set (n := Z.max 0 (Z.min (len buffer) (inode_Size i - off))) in *.
  set (data := firstn (Z.to_nat n)
                 (skipn (Z.to_nat off) (content_of (db w) token ino))) in *.
  pose proof (len_nonneg buffer) as Hb.
  assert (Hdata : length data = Z.to_nat n).
  { unfold data. rewrite length_firstn, length_skipn. unfold len in *. lia. }
  exists n, (data ++ skipn (Z.to_nat n) buffer).
  split; [exact H|]. split; [exact Hd|].
  split; [intros Hlt; unfold n; lia|]. split; [intros Hge; unfold n; lia|].
  assert (Hfirst : firstn (Z.to_nat n) (data ++ skipn (Z.to_nat n) buffer) = data).
  { rewrite <- Hdata. rewrite firstn_app, Nat.sub_diag, firstn_all. simpl.
    apply app_nil_r. }
  rewrite Hfirst. split.
  - unfold len. rewrite Hdata. unfold n. lia.
  - reflexivity.
Qed.

Lemma read_returns_clamped_range_witness :
  exists n buffer',
    fst (Read "tok" 1002 (repeat x01 20) 8 written_world) = Ok (n, buffer')
    /\ n = 7
    /\ firstn 7 buffer' = [x00; x00; x68; x65; x6c; x6c; x6f].
Proof.
  destruct (read_returns_clamped_range written_world "tok" 1002 (repeat x01 20) 8
              (mkInode 1002 "tok" 1 2468 15 1))
    as (n & buffer' & Hr & _ & Hn & _ & _ & Hb).
  - exact fault_free_nil.
  - reflexivity.
  - reflexivity.
  - unfold MaxInt64. lia.
  - reflexivity.
  - unfold MaxInt64. simpl. lia.
  - assert (E : n = 7) by (apply Hn; simpl; lia).
    exists n, buffer'. split; [exact Hr|]. split; [exact E|].
    rewrite E in Hb. exact Hb.
Defined.

(** ** IterateDir *)

Section Ordering.

Variable name_leb : string -> string -> bool.
Hypothesis name_leb_total : forall a b, name_leb a b = true \/ name_leb b a = true.






End Ordering.





(** ** The ref-count identity *)

(** C2 as stated fails: after the calls of [link_under_file] the file "b"
    (inode 1002) has ref_count 2 and a single entry, because the entry that
    Link placed under the file "a" was deleted with that file's inode; and the
    root inode has ref_count 1 and no entry. *)
Lemma ref_count_identity_fails :
  let d := db (run_calls link_under_file world0) in
  (exists i, sql_select_inode d "tok" 1002 = Some i
             /\ In i (inodes d)
             /\ inode_RefCount i = 2 /\ count_links d i = 1)
  /\ (exists r, sql_select_inode d "tok" VTFS_ROOT_INO = Some r
                /\ In r (inodes d)
                /\ inode_RefCount r = 1 /\ count_links d r = 0).
Proof.
  split.
  - exists (mkInode 1002 "tok" 1 420 0 2). vm_compute. tauto.
  - exists (mkInode 1000 "tok" 0 511 0 1). vm_compute. tauto.
Qed.

(** *** Rows and counts under the changes that statements make *)

Lemma count_links_entries d d' i :
  directory_entries d' = directory_entries d -> count_links d' i = count_links d i.
Proof. unfold count_links. intros ->. reflexivity. Qed.

Lemma is_dir_inodes d d' token ino :
  inodes d' = inodes d -> is_dir d' token ino = is_dir d token ino.
Proof. unfold is_dir, sql_select_inode. intros ->. reflexivity. Qed.

Lemma is_file_inodes d d' token ino :
  inodes d' = inodes d -> is_file d' token ino = is_file d token ino.
Proof. unfold is_file, sql_select_inode. intros ->. reflexivity. Qed.

Lemma links_inv_same_lists skip d d' :
  inodes d' = inodes d -> directory_entries d' = directory_entries d ->
  links_inv_but skip d -> links_inv_but skip d'.
Proof.
  intros Hi He (H1 & H2 & H3 & H4).
  unfold links_inv_but, refs_ok_but, parents_ok, targets_ok, keys_ok.
  rewrite He, Hi. repeat split; auto.
  - intros i Hin Hroot Hskip. rewrite (count_links_entries d d' i He). auto.
  - intros e Hin. rewrite (is_dir_inodes d d' _ _ Hi). auto.
Qed.

Lemma is_dir_app d d' n token ino :
  inodes d' = inodes d ++ [n] ->
  is_dir d token ino = true -> is_dir d' token ino = true.
Proof.
  unfold is_dir, sql_select_inode. intros ->.
  destruct (find _ (inodes d)) as [i|] eqn:E; [|discriminate].
  rewrite (find_app_l _ _ _ _ E). auto.
Qed.

Lemma exists_inode_app d d' n token ino :
  inodes d' = inodes d ++ [n] ->
  existsb (inode_at token ino) (inodes d) = true ->
  existsb (inode_at token ino) (inodes d') = true.
Proof. intros -> H. rewrite existsb_app, H. reflexivity. Qed.

Lemma inode_at_keeps f token ino i :
  keeps_identity f -> inode_at token ino (f i) = inode_at token ino i.
Proof.
  intros H. destruct (H i) as (H1 & H2 & _). unfold inode_at.
  rewrite H1, H2. reflexivity.
Qed.

Lemma is_dir_map d d' f token ino :
  keeps_identity f -> inodes d' = map f (inodes d) ->
  is_dir d' token ino = is_dir d token ino.
Proof.
  intros Hf Hi. unfold is_dir, sql_select_inode. rewrite Hi, find_map_key.
  - destruct (find _ _) as [i|]; simpl; [|reflexivity].
    destruct (Hf i) as (_ & _ & ->). reflexivity.
  - intros x. apply inode_at_keeps, Hf.
Qed.

Lemma is_file_map d d' f token ino :
  keeps_identity f -> inodes d' = map f (inodes d) ->
  is_file d' token ino = is_file d token ino.
Proof.
  intros Hf Hi. unfold is_file, sql_select_inode. rewrite Hi, find_map_key.
  - destruct (find _ _) as [i|]; simpl; [|reflexivity].
    destruct (Hf i) as (_ & _ & ->). reflexivity.
  - intros x. apply inode_at_keeps, Hf.
Qed.

Lemma exists_inode_map d d' f token ino :
  keeps_identity f -> inodes d' = map f (inodes d) ->
  existsb (inode_at token ino) (inodes d')
  = existsb (inode_at token ino) (inodes d).
Proof.
  intros Hf Hi. rewrite Hi, !existsb_find, find_map_key.
  - destruct (find _ _); reflexivity.
  - intros x. apply inode_at_keeps, Hf.
Qed.

Lemma keeps_identity_cond (c : Inode -> bool) (g : Inode -> Inode) :
  keeps_identity g -> keeps_identity (fun i => if c i then g i else i).
Proof. intros Hg i. destruct (c i); [apply Hg|auto]. Qed.

Lemma keeps_identity_set_size size : keeps_identity (set_size size).
Proof. intros i. auto. Qed.

Lemma keeps_identity_add_ref_count delta : keeps_identity (add_ref_count delta).
Proof. intros i. auto. Qed.

(** The ref-count identity survives an update that changes neither the
    ref_count nor the identity of a row, on the same entries. *)
Lemma links_inv_map_inodes skip d d' f :
  keeps_identity f ->
  (forall i, inode_RefCount (f i) = inode_RefCount i) ->
  inodes d' = map f (inodes d) ->
  directory_entries d' = directory_entries d ->
  links_inv_but skip d -> links_inv_but skip d'.
Proof.
  intros Hf Hrc Hi He (H1 & H2 & H3 & H4).
  split; [|split; [|split]].
  - intros i' Hin Hroot Hskip. rewrite Hi in Hin. apply in_map_iff in Hin.
    destruct Hin as (i & <- & Hin). destruct (Hf i) as (E1 & E2 & _).
    unfold count_links. rewrite Hrc, E1, E2, He.
    rewrite E1 in Hroot. rewrite E1, E2 in Hskip. apply H1; auto.
  - intros e Hin. rewrite He in Hin. rewrite (is_dir_map d d' f _ _ Hf Hi). auto.
  - intros e Hin. rewrite He in Hin.
    rewrite (exists_inode_map d d' f _ _ Hf Hi). auto.
  - unfold keys_ok. rewrite He. exact H4.
Qed.

(** *** Creating a namespace *)

Lemma insert_inode_ok d i d1 :
  sql_insert_inode d i = PgOk tt d1 ->
  existsb (inode_at (inode_Token i) (inode_Ino i)) (inodes d) = false
  /\ inodes d1 = inodes d ++ [i]
  /\ directory_entries d1 = directory_entries d.
Proof.
  unfold sql_insert_inode.
  destruct (existsb (inode_at _ _) _); [discriminate|].
  destruct (negb _); [discriminate|]. intros [= <-]. auto.
Qed.

Lemma links_inv_add_root d d' r :
  inode_Ino r = VTFS_ROOT_INO ->
  inodes d' = inodes d ++ [r] ->
  directory_entries d' = directory_entries d ->
  links_inv d -> links_inv d'.
Proof.
  intros Hr Hi He (H1 & H2 & H3 & H4).
  split; [|split; [|split]].
  - intros i Hin Hroot _. rewrite Hi in Hin. apply in_app_iff in Hin.
    rewrite (count_links_entries d d' i He).
    destruct Hin as [Hin|[<-|[]]]; [|contradiction].
    apply H1; auto. discriminate.
  - intros e Hin. rewrite He in Hin. apply (is_dir_app d d' r _ _ Hi). auto.
  - intros e Hin. rewrite He in Hin. apply (exists_inode_app d d' r _ _ Hi). auto.
  - unfold keys_ok. rewrite He. exact H4.
Qed.

Lemma namespace_step_inv d token d' :
  namespace_step d token d' -> links_inv d -> links_inv d'.
Proof.
  intros [_ Hins] Hinv. apply insert_inode_ok in Hins.
  destruct Hins as (_ & Hi & He).
  apply (links_inv_add_root
           (sql_insert_filesystem d token VTFS_ROOT_INO (VTFS_ROOT_INO + 1)) d'
           (mkInode VTFS_ROOT_INO token NodeTypeDir VTFS_ROOT_MODE 0 1));
    auto.
  apply (links_inv_same_lists None d); auto.
  - unfold sql_insert_filesystem. destruct (existsb _ _); reflexivity.
  - unfold sql_insert_filesystem. destruct (existsb _ _); reflexivity.
Qed.

(** *** Creating a file or a directory *)

Lemma insert_entry_ok d token parent name ino d1 :
  sql_insert_entry d token parent name ino = PgOk tt d1 ->
  existsb (de_at token parent name) (directory_entries d) = false
  /\ existsb (inode_at token ino) (inodes d) = true
  /\ existsb (inode_at token parent) (inodes d) = true
  /\ inodes d1 = inodes d
  /\ directory_entries d1 = directory_entries d ++ [mkEntry token parent name ino].
Proof.
  unfold sql_insert_entry.
  destruct (existsb (de_at _ _ _) _); [discriminate|].
  destruct (existsb (inode_at token ino) _); [|discriminate].
  destruct (existsb (inode_at token parent) _); [|discriminate].
  intros [= <-]. auto.
Qed.

Lemma de_key_at token parent name e :
  de_key e = (token, parent, name) -> de_at token parent name e = true.
Proof. unfold de_key. intros [= <- <- <-]. apply de_at_iff. auto. Qed.

Lemma existsb_false_In {X} (p : X -> bool) (l : list X) (x : X) :
  existsb p l = false -> In x l -> p x = false.
Proof.
  intros H Hin. apply not_true_false. intros Hp.
  assert (E : existsb p l = true) by (apply existsb_exists; eauto).
  congruence.
Qed.

Lemma keys_ok_add es token parent name ino :
  NoDup (map de_key es) ->
  existsb (de_at token parent name) es = false ->
  NoDup (map de_key (es ++ [mkEntry token parent name ino])).
Proof.
  intros Hnd Hfresh. rewrite map_app. simpl.
  apply (Permutation_NoDup (Permutation_cons_append _ _)).
  constructor; [|exact Hnd].
  intros Hin. apply in_map_iff in Hin. destruct Hin as (e & Hk & Hin).
  apply (de_key_at token parent name) in Hk.
  rewrite (existsb_false_In _ _ _ Hfresh Hin) in Hk. discriminate.
Qed.

Lemma count_after_add es token ino t n parent name :
  len (filter (de_to t n) (es ++ [mkEntry token parent name ino]))
  = len (filter (de_to t n) es)
    + (if String.eqb token t && (ino =? n) then 1 else 0).
Proof.
  rewrite filter_app, len_app. f_equal. simpl. unfold de_to at 1. simpl.
  destruct (String.eqb token t && (ino =? n)); reflexivity.
Qed.

Lemma no_entry_to_missing_inode d token ino :
  targets_ok d ->
  existsb (inode_at token ino) (inodes d) = false ->
  filter (de_to token ino) (directory_entries d) = [].
Proof.
  intros Ht Hex.
  destruct (filter _ _) as [|e l] eqn:E; [reflexivity|].
  assert (Hin : In e (filter (de_to token ino) (directory_entries d))).
  { rewrite E. now left. }
  apply filter_In in Hin. destruct Hin as [Hin Hto].
  apply de_to_iff in Hto. destruct Hto as [<- <-].
  rewrite (Ht e Hin) in Hex. discriminate.
Qed.

Lemma links_inv_create d d' n token parent name :
  links_inv d ->
  inodes d' = inodes d ++ [n] ->
  directory_entries d'
  = directory_entries d ++ [mkEntry token parent name (inode_Ino n)] ->
  inode_Token n = token -> inode_RefCount n = 1 ->
  existsb (inode_at token (inode_Ino n)) (inodes d) = false ->
  existsb (de_at token parent name) (directory_entries d) = false ->
  is_dir d token parent = true ->
  links_inv d'.
Proof.
  intros (H1 & H2 & H3 & H4) Hi He Htok Hrc Hfresh Hkey Hdir.
  split; [|split; [|split]].
  - intros i Hin Hroot _. unfold count_links. rewrite He, count_after_add.
    rewrite Hi in Hin. apply in_app_iff in Hin. destruct Hin as [Hin|[<-|[]]].
    + assert (Hne : String.eqb token (inode_Token i)
                    && (inode_Ino n =? inode_Ino i) = false).
      { apply not_true_false. intros E. apply andb_true_iff in E.
        destruct E as [E1 E2]. apply String.eqb_eq in E1. apply Z.eqb_eq in E2.
        pose proof (existsb_false_In _ _ _ Hfresh Hin) as Hat.
        unfold inode_at in Hat. rewrite <- E1, String.eqb_refl, E2, Z.eqb_refl in Hat.
        discriminate. }
      rewrite Hne, Z.add_0_r. apply H1; auto. discriminate.
    + rewrite Htok, String.eqb_refl, Z.eqb_refl. simpl.
      rewrite (no_entry_to_missing_inode d token (inode_Ino n) H3 Hfresh).
      rewrite Hrc. reflexivity.
  - intros e Hin. rewrite He in Hin. apply in_app_iff in Hin.
    apply (is_dir_app d d' n _ _ Hi).
    destruct Hin as [Hin|[<-|[]]]; [auto|exact Hdir].
  - intros e Hin. rewrite He in Hin. apply in_app_iff in Hin.
    destruct Hin as [Hin|[<-|[]]].
    + apply (exists_inode_app d d' n _ _ Hi). auto.
    + simpl. rewrite Hi, existsb_app. simpl. unfold inode_at at 2.
      rewrite Htok, String.eqb_refl, Z.eqb_refl. apply orb_true_r.
  - unfold keys_ok. rewrite He. apply keys_ok_add; assumption.
Qed.

Lemma create_file_step_inv d token parent name mode d' :
  create_file_step d token parent name mode d' -> links_inv d -> links_inv d'.
Proof.
  intros (Hdir & Hkey & f & d1 & d2 & _ & E1 & E2 & E3) Hinv.
  apply insert_inode_ok in E1. destruct E1 as (Hfresh & Hi1 & He1).
  apply insert_entry_ok in E2. destruct E2 as (Hk2 & _ & _ & Hi2 & He2).
  destruct (upsert_content_ok (sql_increment_next_ino d2 token) token (fs_NextIno f) [])
    as (d3 & E3' & _ & Hi3 & He3 & _).
  { simpl. rewrite Hi2, Hi1, existsb_app. simpl. unfold inode_at at 2. simpl.
    rewrite String.eqb_refl, Z.eqb_refl. apply orb_true_r. }
  rewrite E3 in E3'. injection E3' as <-.
  apply (links_inv_create d d' (mkInode (fs_NextIno f) token NodeTypeFile mode 0 1)
           token parent name); auto.
  - rewrite Hi3. simpl. rewrite Hi2. exact Hi1.
  - rewrite He3. simpl. rewrite He2, He1. reflexivity.
Qed.

Lemma create_dir_step_inv d token parent name mode d' :
  create_dir_step d token parent name mode d' -> links_inv d -> links_inv d'.
Proof.
  intros (Hdir & Hkey & f & d1 & d2 & _ & E1 & E2 & ->) Hinv.
  apply insert_inode_ok in E1. destruct E1 as (Hfresh & Hi1 & He1).
  apply insert_entry_ok in E2. destruct E2 as (Hk2 & _ & _ & Hi2 & He2).
  apply (links_inv_create d _ (mkInode (fs_NextIno f) token NodeTypeDir mode 0 1)
           token parent name); auto.
  - simpl. rewrite Hi2. exact Hi1.
  - simpl. rewrite He2, He1. reflexivity.
Qed.

(** *** Link and Write *)

Lemma inode_at_sym token ino i :
  String.eqb token (inode_Token i) && (ino =? inode_Ino i) = inode_at token ino i.
Proof. unfold inode_at. rewrite String.eqb_sym, Z.eqb_sym. reflexivity. Qed.

Lemma link_step_inv d token target parent name d' :
  is_dir d token parent = true ->
  link_step d token target parent name d' -> links_inv d -> links_inv d'.
Proof.
  intros Hdir (_ & Hkey & d1 & E1 & ->) (H1 & H2 & H3 & H4).
  apply insert_entry_ok in E1. destruct E1 as (_ & Htarget & _ & Hi1 & He1).
  set (f := fun i => if inode_at token target i then add_ref_count 1 i else i).
  assert (Hf : keeps_identity f).
  { apply keeps_identity_cond, keeps_identity_add_ref_count. }
  assert (Hi : inodes (sql_update_ref_count d1 token target 1) = map f (inodes d)).
  { simpl. rewrite Hi1. reflexivity. }
  split; [|split; [|split]].
  - intros i' Hin Hroot _. rewrite Hi in Hin. apply in_map_iff in Hin.
    destruct Hin as (i & <- & Hin). destruct (Hf i) as (E1 & E2 & _).
    rewrite E1 in Hroot. unfold count_links. rewrite E1, E2. simpl.
    rewrite He1, count_after_add, inode_at_sym.
    fold (count_links d i). unfold f.
    destruct (inode_at token target i); simpl.
    + rewrite (H1 i Hin Hroot); [reflexivity|discriminate].
    + rewrite Z.add_0_r. apply H1; auto. discriminate.
  - intros e Hin. simpl in Hin. rewrite He1 in Hin.
    rewrite (is_dir_map d _ f _ _ Hf Hi).
    apply in_app_iff in Hin. destruct Hin as [Hin|[<-|[]]]; [auto|exact Hdir].
  - intros e Hin. simpl in Hin. rewrite He1 in Hin.
    rewrite (exists_inode_map d _ f _ _ Hf Hi).
    apply in_app_iff in Hin. destruct Hin as [Hin|[<-|[]]]; [auto|exact Htarget].
  - unfold keys_ok. simpl. rewrite He1. apply keys_ok_add; assumption.
Qed.

Lemma write_step_inv d token ino data length offset d' :
  write_step d token ino data length offset d' -> links_inv d -> links_inv d'.
Proof.
  intros (Hfile & d1 & E1 & ->) Hinv. cbv zeta in E1.
  set (bytes := written (content_of d token ino) (firstn (Z.to_nat length) data)
                        (wrap64 (offset + wrap64 length)) offset) in *.
  destruct (upsert_content_ok d token ino bytes) as (d1' & E1' & _ & Hi1 & He1 & _).
  { unfold is_file in Hfile.
    destruct (sql_select_inode d token ino) eqn:E; [|discriminate].
    apply (select_inode_exists _ _ _ _ E). }
  rewrite E1 in E1'. injection E1' as <-.
  apply (links_inv_map_inodes None d1 (sql_update_size d1 token ino (len bytes))
           (fun i => if inode_at token ino i then set_size (len bytes) i else i)).
  - apply keeps_identity_cond. apply keeps_identity_set_size.
  - intros i. destruct (inode_at token ino i); reflexivity.
  - reflexivity.
  - reflexivity.
  - apply (links_inv_same_lists None d); auto.
Qed.

(** *** Removing an entry *)

Lemma filter_all {X} (p : X -> bool) (l : list X) :
  (forall x, In x l -> p x = true) -> filter p l = l.
Proof.
  intros H. apply forallb_filter_id, forallb_forall. exact H.
Qed.

Lemma filter_filter_keep {X} (q keep : X -> bool) (l : list X) :
  (forall x, In x l -> q x = true -> keep x = true) ->
  filter q (filter keep l) = filter q l.
Proof.
  induction l as [|x l IH]; intros H; simpl; [reflexivity|].
  assert (IH' : filter q (filter keep l) = filter q l).
  { apply IH. intros y Hy. apply H. now right. }
  destruct (q x) eqn:Eq.
  - rewrite (H x (or_introl eq_refl) Eq). simpl. rewrite Eq, IH'. reflexivity.
  - destruct (keep x); simpl; [rewrite Eq|]; exact IH'.
Qed.

Lemma filter_filter_nil {X} (q p : X -> bool) (l : list X) :
  filter q l = [] -> filter q (filter p l) = [].
Proof.
  induction l as [|x l IH]; simpl; [reflexivity|].
  destruct (q x) eqn:Eq; [discriminate|]. intros H.
  destruct (p x); simpl; [rewrite Eq|]; auto.
Qed.

Lemma NoDup_map_filter {X Y} (f : X -> Y) (p : X -> bool) (l : list X) :
  NoDup (map f l) -> NoDup (map f (filter p l)).
Proof.
  induction l as [|x l IH]; simpl; intros H; [constructor|].
  inversion H as [|? ? Hnin Hnd]; subst.
  destruct (p x); simpl; [|auto].
  constructor; [|auto].
  intros Hin. apply Hnin. apply in_map_iff in Hin.
  destruct Hin as (y & Hy & Hin). apply filter_In in Hin.
  apply in_map_iff. exists y. tauto.
Qed.

(** With (token, parent, name) a key, deleting the entry of a key removes
    exactly the entry that a lookup finds. *)
Lemma count_delete_key (q : de_row -> bool) token parent name l e0 :
  NoDup (map de_key l) ->
  find (de_at token parent name) l = Some e0 ->
  len (filter q l)
  = (if q e0 then 1 else 0)
    + len (filter q (filter (fun e => negb (de_at token parent name e)) l)).
Proof.
  induction l as [|x l IH]; simpl; intros Hnd Hfind; [discriminate|].
  inversion Hnd as [|? ? Hnin Hnd']; subst.
  destruct (de_at token parent name x) eqn:Ex.
  - injection Hfind as <-. simpl.
    rewrite (filter_all (fun e => negb (de_at token parent name e)) l).
    + destruct (q x); unfold len; simpl length; lia.
    + intros y Hy. apply negb_true_iff, not_true_false. intros Ey.
      apply Hnin. apply in_map_iff. exists y. split; [|exact Hy].
      apply de_at_iff in Ex, Ey. unfold de_key.
      destruct Ex as (-> & -> & ->). destruct Ey as (-> & -> & ->). reflexivity.
  - simpl. specialize (IH Hnd' Hfind).
    destruct (q x); unfold len in *; simpl length; lia.
Qed.

Lemma select_entry_at d token parent name e0 :
  sql_select_entry d token parent name = Some e0 ->
  In e0 (directory_entries d) /\ de_token e0 = token.
Proof.
  unfold sql_select_entry. intros H. apply find_some in H.
  destruct H as [Hin Hat]. apply de_at_iff in Hat. tauto.
Qed.

Lemma links_inv_unlink_entry d token parent name e0 :
  links_inv d ->
  sql_select_entry d token parent name = Some e0 ->
  links_inv (sql_update_ref_count (sql_delete_entry d token parent name)
                                  token (de_ino e0) (-1)).
Proof.
  intros (H1 & H2 & H3 & H4) He0.
  destruct (select_entry_at _ _ _ _ _ He0) as [Hin0 Htok0].
  set (f := fun i => if inode_at token (de_ino e0) i then add_ref_count (-1) i else i).
  set (d' := sql_update_ref_count _ _ _ _).
  assert (Hf : keeps_identity f).
  { apply keeps_identity_cond, keeps_identity_add_ref_count. }
  assert (Hi : inodes d' = map f (inodes d)) by reflexivity.
  split; [|split; [|split]].
  - intros i' Hin Hroot _. rewrite Hi in Hin. apply in_map_iff in Hin.
    destruct Hin as (i & <- & Hin). destruct (Hf i) as (E1 & E2 & _).
    rewrite E1 in Hroot. unfold count_links. rewrite E1, E2. simpl.
    assert (Hold := H1 i Hin Hroot ltac:(discriminate)).
    unfold count_links in Hold.
    rewrite (count_delete_key _ token parent name _ e0 H4 He0) in Hold.
    unfold de_to at 1 in Hold. rewrite Htok0, inode_at_sym in Hold.
    unfold f. destruct (inode_at token (de_ino e0) i); simpl; lia.
  - intros e Hin. simpl in Hin. apply filter_In in Hin.
    rewrite (is_dir_map d d' f _ _ Hf Hi). apply H2. tauto.
  - intros e Hin. simpl in Hin. apply filter_In in Hin.
    rewrite (exists_inode_map d d' f _ _ Hf Hi). apply H3. tauto.
  - unfold keys_ok. simpl. apply NoDup_map_filter, H4.
Qed.

Lemma links_inv_delete_entry_but d token parent name e0 :
  links_inv d ->
  sql_select_entry d token parent name = Some e0 ->
  links_inv_but (Some (token, de_ino e0)) (sql_delete_entry d token parent name).
Proof.
  intros (H1 & H2 & H3 & H4) He0.
  destruct (select_entry_at _ _ _ _ _ He0) as [Hin0 Htok0].
  split; [|split; [|split]].
  - intros i Hin Hroot Hskip. simpl in Hin.
    assert (Hold := H1 i Hin Hroot ltac:(discriminate)).
    unfold count_links in *. simpl.
    rewrite (count_delete_key _ token parent name _ e0 H4 He0) in Hold.
    unfold de_to at 1 in Hold. rewrite Htok0, inode_at_sym in Hold.
    destruct (inode_at token (de_ino e0) i) eqn:E; [|lia].
    apply inode_at_iff in E. destruct E as [E1 E2].
    exfalso. apply Hskip. rewrite E1, E2. reflexivity.
  - intros e Hin. simpl in Hin. apply filter_In in Hin.
    change (is_dir d (de_token e) (de_parent_ino e) = true). apply H2. tauto.
  - intros e Hin. simpl in Hin. apply filter_In in Hin. simpl. apply H3. tauto.
  - unfold keys_ok. simpl. apply NoDup_map_filter, H4.
Qed.

(** *** Deleting an inode *)

Lemma links_inv_delete_inode d token ino :
  links_inv_but (Some (token, ino)) d ->
  dir_entries d token ino = [] ->
  links_inv (sql_delete_inode d token ino).
Proof.
  intros (H1 & H2 & H3 & H4) Hempty. unfold sql_delete_inode.
  destruct (existsb (inode_at token ino) (inodes d)) eqn:Eex.
  - assert (Hkeep : forall e, In e (directory_entries d) ->
                      de_in token ino e = false).
    { intros e Hin. apply not_true_false. intros E.
      assert (Hd : In e (dir_entries d token ino)) by (apply filter_In; auto).
      rewrite Hempty in Hd. destruct Hd. }
    set (d' := mkDB _ _ _ _).
    assert (Hsel : forall t n, (t, n) <> (token, ino) ->
                     sql_select_inode d' t n = sql_select_inode d t n).
    { intros t n Hne.
      rewrite <- (select_inode_delete_other d token ino t n Hne).
      unfold sql_delete_inode. rewrite Eex. reflexivity. }
    split; [|split; [|split]].
    + intros i Hin Hroot _. simpl in Hin. apply filter_In in Hin.
      destruct Hin as [Hin Hat]. apply negb_true_iff in Hat.
      unfold count_links. simpl. rewrite filter_filter_keep.
      * apply H1; auto. intros [= E1 E2].
        unfold inode_at in Hat. rewrite E1, E2, String.eqb_refl, Z.eqb_refl in Hat.
        discriminate.
      * intros e He Hto. rewrite (Hkeep e He), andb_true_r.
        apply negb_true_iff, not_true_false. intros Hto'.
        apply de_to_iff in Hto, Hto'. unfold inode_at in Hat.
        destruct Hto as [E1 E2]. destruct Hto' as [E3 E4].
        rewrite <- E1, E3, <- E2, E4, String.eqb_refl, Z.eqb_refl in Hat.
        discriminate.
    + intros e Hin. simpl in Hin. apply filter_In in Hin.
      destruct Hin as [Hin Hk]. apply andb_true_iff in Hk. destruct Hk as [_ Hk].
      apply negb_true_iff in Hk. unfold is_dir. rewrite Hsel.
      * apply H2, Hin.
      * intros [= E1 E2].
        assert (E : de_in token ino e = true) by (apply de_in_iff; auto).
        congruence.
    + intros e Hin. simpl in Hin. apply filter_In in Hin.
      destruct Hin as [Hin Hk]. apply andb_true_iff in Hk. destruct Hk as [Hk _].
      apply negb_true_iff in Hk.
      rewrite existsb_find. fold (sql_select_inode d' (de_token e) (de_ino e)).
      rewrite Hsel.
      * unfold sql_select_inode. rewrite <- existsb_find. apply H3, Hin.
      * intros [= E1 E2].
        assert (E : de_to token ino e = true) by (apply de_to_iff; auto).
        congruence.
    + unfold keys_ok. simpl. apply NoDup_map_filter, H4.
  - split; [|tauto].
    intros i Hin Hroot _. apply H1; auto.
    intros [= E1 E2].
    pose proof (existsb_false_In _ _ _ Eex Hin) as Hat.
    unfold inode_at in Hat. rewrite E1, E2, String.eqb_refl, Z.eqb_refl in Hat.
    discriminate.
Qed.

Lemma links_inv_weaken skip d : links_inv d -> links_inv_but skip d.
Proof.
  intros (H1 & H2). split; [|exact H2].
  intros i Hin Hroot _. apply H1; auto. discriminate.
Qed.

Lemma dir_and_file d token ino :
  is_dir d token ino = true -> is_file d token ino = true -> False.
Proof.
  unfold is_dir, is_file. destruct (sql_select_inode d token ino) as [i|];
    [|discriminate].
  intros H1 H2. apply Z.eqb_eq in H1, H2. rewrite H1 in H2. discriminate.
Qed.

Lemma file_has_no_entries d token ino :
  parents_ok d -> is_file d token ino = true -> dir_entries d token ino = [].
Proof.
  intros Hp Hfile. unfold dir_entries.
  destruct (filter _ _) as [|e l] eqn:E; [reflexivity|].
  assert (Hin : In e (filter (de_in token ino) (directory_entries d))).
  { rewrite E. now left. }
  apply filter_In in Hin. destruct Hin as [Hin Hat].
  apply de_in_iff in Hat. destruct Hat as [E1 E2].
  exfalso. apply (dir_and_file d token ino); [|exact Hfile].
  rewrite <- E1, <- E2. apply Hp, Hin.
Qed.

Lemma lookup_ino_found d token parent name :
  lookup_ino d token parent name <> 0 ->
  exists e0, sql_select_entry d token parent name = Some e0
             /\ lookup_ino d token parent name = de_ino e0.
Proof.
  unfold lookup_ino. destruct (sql_select_entry d token parent name) as [e0|].
  - intros _. exists e0. auto.
  - intros H. contradiction.
Qed.

Lemma unlink_step_inv d token parent name d' :
  unlink_step d token parent name d' -> links_inv d -> links_inv d'.
Proof.
  intros (Hino & Hfile & ->) Hinv.
  destruct (lookup_ino_found _ _ _ _ Hino) as (e0 & He0 & Hl).
  unfold unlink_effect. rewrite Hl in *.
  pose proof (links_inv_unlink_entry d token parent name e0 Hinv He0) as Hinv2.
  set (d2 := sql_update_ref_count _ _ _ _) in *.
  destruct (sql_select_inode d2 token (de_ino e0)) as [i|]; [|exact Hinv2].
  destruct (inode_RefCount i =? 0); [|exact Hinv2].
  apply links_inv_delete_inode.
  - apply links_inv_weaken. apply (links_inv_same_lists None d2); auto.
  - apply file_has_no_entries.
    + apply (links_inv_same_lists None d2 (sql_delete_content d2 token (de_ino e0)));
        auto.
    + change (is_file d2 token (de_ino e0) = true). unfold d2.
      rewrite (is_file_map (sql_delete_entry d token parent name) _
                 (fun i => if inode_at token (de_ino e0) i
                           then add_ref_count (-1) i else i)).
      * exact Hfile.
      * apply keeps_identity_cond, keeps_identity_add_ref_count.
      * reflexivity.
Qed.

Lemma rmdir_step_inv d token parent name d' :
  rmdir_step d token parent name d' -> links_inv d -> links_inv d'.
Proof.
  intros (Hino & Hdir & Hroot & Hcount & ->) Hinv.
  destruct (lookup_ino_found _ _ _ _ Hino) as (e0 & He0 & Hl).
  unfold rmdir_effect. rewrite Hl in *.
  apply links_inv_delete_inode.
  - apply links_inv_delete_entry_but; assumption.
  - unfold dir_entries. simpl. apply filter_filter_nil.
    apply count_entries_zero. rewrite Hcount. reflexivity.
Qed.

(** *** Every reachable store satisfies the invariant *)

Lemma call_step_inv d c d' :
  admissible d c -> call_step d c d' -> links_inv d -> links_inv d'.
Proof.
  destruct c; simpl; intros Hadm Hstep Hinv.
  - apply (namespace_step_inv d token d'); assumption.
  - apply (namespace_step_inv d token d'); assumption.
  - apply (create_file_step_inv d token parentIno name mode d'); assumption.
  - apply (create_dir_step_inv d token parentIno name mode d'); assumption.
  - apply (unlink_step_inv d token parentIno name d'); assumption.
  - apply (rmdir_step_inv d token parentIno name d'); assumption.
  - apply (write_step_inv d token ino data length offset d'); assumption.
  - apply (link_step_inv d token targetIno parentIno name d'); assumption.
Qed.

(** Under every fault plan a call has no effect on the store or exactly its
    committed effect. *)
Lemma run_call_effect (c : call) (w : World) :
  db (snd (run_call c w)) = db w
  \/ call_step (db w) c (db (snd (run_call c w))).
Proof.
  destruct c; simpl.
  - apply (post_run _ w _ (Init_post token (db w))).
  - destruct (void_run (GetRoot token) w) as (_ & _ & ->).
    apply (post_run _ w _ (GetRoot_post token (db w))).
  - destruct (void_run (CreateFile token parentIno name mode) w) as (_ & _ & ->).
    apply (post_run _ w _ (CreateFile_post token parentIno name mode (db w))).
  - destruct (void_run (CreateDir token parentIno name mode) w) as (_ & _ & ->).
    apply (post_run _ w _ (CreateDir_post token parentIno name mode (db w))).
  - apply (post_run _ w _ (Unlink_post token parentIno name (db w))).
  - apply (post_run _ w _ (Rmdir_post token parentIno name (db w))).
  - destruct (void_run (Write token ino data length offset) w) as (_ & _ & ->).
    apply (post_run _ w _ (Write_post token ino data length offset (db w))).
  - apply (post_run _ w _ (Link_post token targetIno parentIno name (db w))).
Qed.

Lemma links_inv_empty : links_inv empty_db.
Proof.
  split; [|split; [|split]].
  - intros i [].
  - intros e [].
  - intros e [].
  - constructor.
Qed.

Lemma reachable_links_inv d : reachable d -> links_inv d.
Proof.
  induction 1 as [|w c Hr IH Hadm]; [apply links_inv_empty|].
  destruct (run_call_effect c w) as [-> | Hstep]; [exact IH|].
  apply (call_step_inv (db w) c); assumption.
Qed.

Lemma reachable_run_calls (cs : list call) (w : World) :
  reachable (db w) -> admissible_calls cs w -> reachable (db (run_calls cs w)).
Proof.
  revert w. induction cs as [|c cs IH]; intros w Hr Hadm; simpl; [exact Hr|].
  destruct Hadm as [Hc Hcs]. apply IH; [|exact Hcs].
  apply reach_call; assumption.
Qed.

(** C2 (as amended): after every sequence of calls of the service
    (CreateFile, CreateDir, Link, Unlink, and also Init, GetRoot, Rmdir and
    Write) made from the empty store under any fault plan, provided each Link
    is addressed at a parent that is a directory, every inode row other than
    a namespace's root has as ref_count the number of directory entries whose
    target is that inode. *)
Theorem ref_count_is_number_of_entries :
  forall (cs : list call) (plan : list bool) (i : Inode),
    admissible_calls cs (mkWorld empty_db plan []) ->
    In i (inodes (db (run_calls cs (mkWorld empty_db plan [])))) ->
    inode_Ino i <> VTFS_ROOT_INO ->
    inode_RefCount i
    = count_links (db (run_calls cs (mkWorld empty_db plan []))) i.
Proof.
  intros cs plan i Hadm Hin Hroot.
  assert (Hr : reachable (db (run_calls cs (mkWorld empty_db plan [])))).
  { apply reachable_run_calls; [apply reach_empty|exact Hadm]. }
  destruct (reachable_links_inv _ Hr) as [H1 _].
  apply H1; auto. discriminate.
Qed.

Lemma ref_count_is_number_of_entries_witness :
  inode_RefCount (mkInode 1002 "tok" 1 420 0 2) = 2
  /\ count_links (db (run_calls hard_link_calls world0))
       (mkInode 1002 "tok" 1 420 0 2) = 2.
Proof.
  split; [reflexivity|].
  symmetry.
  apply (ref_count_is_number_of_entries hard_link_calls []
           (mkInode 1002 "tok" 1 420 0 2)).
  - vm_compute. repeat split.
  - vm_compute. tauto.
  - discriminate.
Defined.

(** ** Sizes and keys on the reachable stores *)

Lemma content_of_contents d d' token ino :
  file_contents d' = file_contents d ->
  content_of d' token ino = content_of d token ino.
Proof. unfold content_of, sql_select_content. intros ->. reflexivity. Qed.

Lemma fc_at_other token ino t n c :
  (t, n) <> (token, ino) -> fc_at t n c = true -> fc_at token ino c = false.
Proof.
  intros Hne Hat. apply not_true_false. intros Hat'.
  apply fc_at_iff in Hat, Hat'. apply Hne.
  destruct Hat as [<- <-]. destruct Hat' as [<- <-]. reflexivity.
Qed.

Lemma content_of_delete_other d token ino t n :
  (t, n) <> (token, ino) ->
  content_of (sql_delete_content d token ino) t n = content_of d t n.
Proof.
  intros Hne. unfold content_of, sql_select_content, sql_delete_content. simpl.
  rewrite find_filter_keep; [reflexivity|].
  intros c Hc. rewrite (fc_at_other token ino t n c Hne Hc). reflexivity.
Qed.

Lemma content_of_delete_inode_other d token ino t n :
  (t, n) <> (token, ino) ->
  content_of (sql_delete_inode d token ino) t n = content_of d t n.
Proof.
  intros Hne. unfold sql_delete_inode.
  destruct (existsb _ _); [|reflexivity].
  unfold content_of, sql_select_content. simpl.
  rewrite find_filter_keep; [reflexivity|].
  intros c Hc. rewrite (fc_at_other token ino t n c Hne Hc). reflexivity.
Qed.

Lemma content_of_upsert_other d token ino bytes d1 t n :
  sql_upsert_content d token ino bytes = PgOk tt d1 ->
  (t, n) <> (token, ino) ->
  content_of d1 t n = content_of d t n.
Proof.
  unfold sql_upsert_content. intros H Hne.
  destruct (negb _); [discriminate|].
  unfold content_of, sql_select_content.
  destruct (existsb (fc_at token ino) (file_contents d)); injection H as <-; simpl.
  - rewrite find_map_key.
    + destruct (find (fc_at t n) (file_contents d)) as [c|] eqn:E; simpl;
        [|reflexivity].
      rewrite (fc_at_other token ino t n c Hne (find_true _ _ _ E)). reflexivity.
    + intros c. destruct (fc_at token ino c) eqn:E; [|reflexivity].
      unfold fc_at in *. simpl. reflexivity.
  - destruct (find (fc_at t n) (file_contents d)) as [c|] eqn:E.
    + rewrite (find_app_l _ _ _ _ E). reflexivity.
    + rewrite (find_app_r _ _ _ E). simpl.
      destruct (fc_at t n (mkContent token ino bytes)) eqn:Eat; [|reflexivity].
      apply fc_at_iff in Eat. simpl in Eat. destruct Eat as [<- <-].
      contradiction Hne. reflexivity.
Qed.

Lemma inode_key_other token ino i :
  inode_at token ino i = false -> (inode_Token i, inode_Ino i) <> (token, ino).
Proof.
  intros Hat [= E1 E2]. unfold inode_at in Hat.
  rewrite E1, E2, String.eqb_refl, Z.eqb_refl in Hat. discriminate.
Qed.

Lemma sizes_ok_same d d' :
  inodes d' = inodes d -> file_contents d' = file_contents d ->
  sizes_ok d -> sizes_ok d'.
Proof.
  intros Hi Hc H i Hin Hty. rewrite Hi in Hin.
  rewrite (content_of_contents d d' _ _ Hc). auto.
Qed.

Lemma sizes_ok_map d d' f :
  keeps_identity f -> (forall i, inode_Size (f i) = inode_Size i) ->
  inodes d' = map f (inodes d) -> file_contents d' = file_contents d ->
  sizes_ok d -> sizes_ok d'.
Proof.
  intros Hf Hsz Hi Hc H i' Hin Hty. rewrite Hi in Hin.
  apply in_map_iff in Hin. destruct Hin as (i & <- & Hin).
  destruct (Hf i) as (E1 & E2 & E3). rewrite E3 in Hty.
  rewrite Hsz, E1, E2, (content_of_contents d d' _ _ Hc). auto.
Qed.

Lemma sizes_ok_add_dir d d' n :
  inode_Type n = NodeTypeDir ->
  inodes d' = inodes d ++ [n] -> file_contents d' = file_contents d ->
  sizes_ok d -> sizes_ok d'.
Proof.
  intros Hn Hi Hc H i Hin Hty. rewrite Hi in Hin. apply in_app_iff in Hin.
  rewrite (content_of_contents d d' _ _ Hc).
  destruct Hin as [Hin|[<-|[]]]; [auto|].
  rewrite Hn in Hty. discriminate.
Qed.

Lemma sizes_ok_delete_inode d token ino :
  sizes_ok d -> sizes_ok (sql_delete_inode d token ino).
Proof.
  intros H i Hin Hty.
  assert (Hi : In i (inodes d) /\ inode_at token ino i = false).
  { unfold sql_delete_inode in Hin.
    destruct (existsb (inode_at token ino) (inodes d)) eqn:E.
    - simpl in Hin. apply filter_In in Hin. destruct Hin as [Hin Hat].
      apply negb_true_iff in Hat. auto.
    - split; [exact Hin|]. apply (existsb_false_In _ _ _ E Hin). }
  destruct Hi as [Hin' Hat].
  rewrite content_of_delete_inode_other; [auto|apply inode_key_other, Hat].
Qed.

Lemma namespace_step_sizes d token d' :
  namespace_step d token d' -> sizes_ok d -> sizes_ok d'.
Proof.
  intros [_ Hins] H. unfold sql_insert_inode in Hins.
  destruct (existsb (inode_at _ _) _); [discriminate|].
  destruct (negb _); [discriminate|]. injection Hins as <-.
  apply (sizes_ok_add_dir
           (sql_insert_filesystem d token VTFS_ROOT_INO (VTFS_ROOT_INO + 1)) _
           (mkInode VTFS_ROOT_INO token NodeTypeDir VTFS_ROOT_MODE 0 1));
    try reflexivity.
  apply (sizes_ok_same d); auto;
    unfold sql_insert_filesystem; destruct (existsb _ _); reflexivity.
Qed.

Lemma insert_inode_contents d i d1 :
  sql_insert_inode d i = PgOk tt d1 -> file_contents d1 = file_contents d.
Proof.
  unfold sql_insert_inode.
  destruct (existsb (inode_at _ _) _); [discriminate|].
  destruct (negb _); [discriminate|]. intros [= <-]. reflexivity.
Qed.

Lemma insert_entry_contents d token parent name ino d1 :
  sql_insert_entry d token parent name ino = PgOk tt d1 ->
  file_contents d1 = file_contents d.
Proof.
  unfold sql_insert_entry.
  destruct (existsb (de_at _ _ _) _); [discriminate|].
  destruct (negb _); [discriminate|]. intros [= <-]. reflexivity.
Qed.

Lemma create_file_step_sizes d token parent name mode d' :
  create_file_step d token parent name mode d' -> sizes_ok d -> sizes_ok d'.
Proof.
  intros (_ & _ & f & d1 & d2 & _ & E1 & E2 & E3) H.
  pose proof (insert_inode_contents _ _ _ E1) as Hc1.
  pose proof (insert_entry_contents _ _ _ _ _ _ E2) as Hc2.
  apply insert_inode_ok in E1. destruct E1 as (Hfresh & Hi1 & _).
  apply insert_entry_ok in E2. destruct E2 as (_ & Hex & _ & Hi2 & _).
  destruct (upsert_content_ok (sql_increment_next_ino d2 token) token (fs_NextIno f) [])
    as (d3 & E3' & _ & Hi3 & _ & Hc3); [simpl; rewrite Hi2; exact Hex|].
  rewrite E3 in E3'. injection E3' as <-.
  intros i Hin Hty. rewrite Hi3 in Hin. simpl in Hin. rewrite Hi2, Hi1 in Hin.
  apply in_app_iff in Hin. destruct Hin as [Hin|[<-|[]]].
  - rewrite (content_of_upsert_other _ _ _ _ _ _ _ E3).
    + rewrite (content_of_contents d (sql_increment_next_ino d2 token)); [auto|].
      simpl. rewrite Hc2, Hc1. reflexivity.
    + apply inode_key_other. apply (existsb_false_In _ _ _ Hfresh Hin).
  - simpl. rewrite Hc3. reflexivity.
Qed.

Lemma create_dir_step_sizes d token parent name mode d' :
  create_dir_step d token parent name mode d' -> sizes_ok d -> sizes_ok d'.
Proof.
  intros (_ & _ & f & d1 & d2 & _ & E1 & E2 & ->) H.
  pose proof (insert_inode_contents _ _ _ E1) as Hc1.
  pose proof (insert_entry_contents _ _ _ _ _ _ E2) as Hc2.
  apply insert_inode_ok in E1. destruct E1 as (_ & Hi1 & _).
  apply insert_entry_ok in E2. destruct E2 as (_ & _ & _ & Hi2 & _).
  apply (sizes_ok_add_dir d _ (mkInode (fs_NextIno f) token NodeTypeDir mode 0 1));
    auto.
  - simpl. rewrite Hi2. exact Hi1.
  - simpl. rewrite Hc2. exact Hc1.
Qed.

Lemma link_step_sizes d token target parent name d' :
  link_step d token target parent name d' -> sizes_ok d -> sizes_ok d'.
Proof.
  intros (_ & _ & d1 & E1 & ->) H.
  pose proof (insert_entry_contents _ _ _ _ _ _ E1) as Hc1.
  apply insert_entry_ok in E1. destruct E1 as (_ & _ & _ & Hi1 & _).
  apply (sizes_ok_map d _
           (fun i => if inode_at token target i then add_ref_count 1 i else i)).
  - apply keeps_identity_cond, keeps_identity_add_ref_count.
  - intros i. destruct (inode_at token target i); reflexivity.
  - simpl. rewrite Hi1. reflexivity.
  - exact Hc1.
  - exact H.
Qed.

Lemma write_step_sizes d token ino data length offset d' :
  write_step d token ino data length offset d' -> sizes_ok d -> sizes_ok d'.
Proof.
  intros (Hfile & d1 & E1 & ->) H. cbv zeta in E1.
  set (bytes := written (content_of d token ino) (firstn (Z.to_nat length) data)
                        (wrap64 (offset + wrap64 length)) offset) in *.
  destruct (upsert_content_ok d token ino bytes) as (d1' & E1' & _ & Hi1 & _ & Hc1).
  { unfold is_file in Hfile.
    destruct (sql_select_inode d token ino) eqn:E; [|discriminate].
    apply (select_inode_exists _ _ _ _ E). }
  rewrite E1 in E1'. injection E1' as <-.
  intros i' Hin Hty. simpl in Hin. rewrite Hi1 in Hin.
  apply in_map_iff in Hin. destruct Hin as (i & <- & Hin).
  rewrite (content_of_contents d1 (sql_update_size d1 token ino (len bytes)))
    by reflexivity.
  destruct (inode_at token ino i) eqn:Eat.
  - apply inode_at_iff in Eat. destruct Eat as [Et En]. simpl.
    rewrite Et, En, Hc1. reflexivity.
  - rewrite (content_of_upsert_other _ _ _ _ _ _ _ E1);
      [auto|apply inode_key_other, Eat].
Qed.

Lemma unlink_step_sizes d token parent name d' :
  unlink_step d token parent name d' -> sizes_ok d -> sizes_ok d'.
Proof.
  intros (_ & _ & ->) H. unfold unlink_effect.
  set (ino := lookup_ino d token parent name).
  set (d2 := sql_update_ref_count _ _ _ _).
  assert (H2 : sizes_ok d2).
  { apply (sizes_ok_map d d2
             (fun i => if inode_at token ino i then add_ref_count (-1) i else i)).
    - apply keeps_identity_cond, keeps_identity_add_ref_count.
    - intros i. destruct (inode_at token ino i); reflexivity.
    - reflexivity.
    - reflexivity.
    - exact H. }
  destruct (sql_select_inode d2 token ino) as [i|]; [|exact H2].
  destruct (inode_RefCount i =? 0); [|exact H2].
  intros j Hin Hty.
  assert (Hj : In j (inodes d2) /\ inode_at token ino j = false).
  { unfold sql_delete_inode in Hin.
    destruct (existsb (inode_at token ino)
                (inodes (sql_delete_content d2 token ino))) eqn:E.
    - simpl in Hin. apply filter_In in Hin. destruct Hin as [Hin Hat].
      apply negb_true_iff in Hat. auto.
    - split; [exact Hin|]. apply (existsb_false_In _ _ _ E Hin). }
  destruct Hj as [Hin' Hat].
  rewrite content_of_delete_inode_other by (apply inode_key_other, Hat).
  rewrite content_of_delete_other by (apply inode_key_other, Hat).
  apply H2; assumption.
Qed.

Lemma rmdir_step_sizes d token parent name d' :
  rmdir_step d token parent name d' -> sizes_ok d -> sizes_ok d'.
Proof.
  intros (_ & _ & _ & _ & ->) H. unfold rmdir_effect.
  apply sizes_ok_delete_inode. apply (sizes_ok_same d); auto.
Qed.

Lemma call_step_sizes d c d' : call_step d c d' -> sizes_ok d -> sizes_ok d'.
Proof.
  destruct c; simpl; intros Hstep H.
  - apply (namespace_step_sizes d token d'); assumption.
  - apply (namespace_step_sizes d token d'); assumption.
  - apply (create_file_step_sizes d token parentIno name mode d'); assumption.
  - apply (create_dir_step_sizes d token parentIno name mode d'); assumption.
  - apply (unlink_step_sizes d token parentIno name d'); assumption.
  - apply (rmdir_step_sizes d token parentIno name d'); assumption.
  - apply (write_step_sizes d token ino data length offset d'); assumption.
  - apply (link_step_sizes d token targetIno parentIno name d'); assumption.
Qed.

(** On every reachable store the size of a regular file is the length of
    its content, which is what reading a file relies on. *)
Lemma reachable_sizes_ok d : reachable d -> sizes_ok d.
Proof.
  induction 1 as [|w c Hr IH Hadm]; [intros i []|].
  destruct (run_call_effect c w) as [-> | Hstep]; [exact IH|].
  apply (call_step_sizes (db w) c); assumption.
Qed.

Lemma inode_key_at token ino i :
  inode_key i = (token, ino) -> inode_at token ino i = true.
Proof. unfold inode_key. intros [= <- <-]. apply inode_at_iff. auto. Qed.

Lemma inode_keys_add l n :
  NoDup (map inode_key l) ->
  existsb (inode_at (inode_Token n) (inode_Ino n)) l = false ->
  NoDup (map inode_key (l ++ [n])).
Proof.
  intros Hnd Hfresh. rewrite map_app. simpl.
  apply (Permutation_NoDup (Permutation_cons_append _ _)).
  constructor; [|exact Hnd].
  intros Hin. apply in_map_iff in Hin. destruct Hin as (i & Hk & Hin).
  apply (inode_key_at (inode_Token n) (inode_Ino n)) in Hk.
  rewrite (existsb_false_In _ _ _ Hfresh Hin) in Hk. discriminate.
Qed.

Lemma inode_keys_map f l :
  keeps_identity f -> map inode_key (map f l) = map inode_key l.
Proof.
  intros Hf. rewrite map_map. apply map_ext. intros i.
  destruct (Hf i) as (E1 & E2 & _). unfold inode_key. rewrite E1, E2. reflexivity.
Qed.

Lemma inode_keys_delete d token ino :
  inode_keys_ok d -> inode_keys_ok (sql_delete_inode d token ino).
Proof.
  unfold inode_keys_ok, sql_delete_inode. intros H.
  destruct (existsb _ _); [|exact H]. simpl. apply NoDup_map_filter, H.
Qed.

Lemma insert_filesystem_inodes d token root next :
  inodes (sql_insert_filesystem d token root next) = inodes d.
Proof.
  unfold sql_insert_filesystem.
  destruct (existsb (fs_at token) (filesystems d)); reflexivity.
Qed.

Lemma call_step_inode_keys d c d' :
  call_step d c d' -> inode_keys_ok d -> inode_keys_ok d'.
Proof.
  unfold inode_keys_ok. destruct c; simpl; intros Hstep H.
  - destruct Hstep as [_ E]. apply insert_inode_ok in E.
    destruct E as (Hfresh & -> & _).
    rewrite insert_filesystem_inodes in *. apply inode_keys_add; assumption.
  - destruct Hstep as [_ E]. apply insert_inode_ok in E.
    destruct E as (Hfresh & -> & _).
    rewrite insert_filesystem_inodes in *. apply inode_keys_add; assumption.
  - destruct Hstep as (_ & _ & f & d1 & d2 & _ & E1 & E2 & E3).
    apply insert_inode_ok in E1. destruct E1 as (Hfresh & Hi1 & _).
    apply insert_entry_ok in E2. destruct E2 as (_ & Hex & _ & Hi2 & _).
    destruct (upsert_content_ok (sql_increment_next_ino d2 token) token
                (fs_NextIno f) [])
      as (d3 & E3' & _ & Hi3 & _); [simpl; rewrite Hi2; exact Hex|].
    rewrite E3 in E3'. injection E3' as <-.
    rewrite Hi3. simpl. rewrite Hi2, Hi1. apply inode_keys_add; assumption.
  - destruct Hstep as (_ & _ & f & d1 & d2 & _ & E1 & E2 & ->).
    apply insert_inode_ok in E1. destruct E1 as (Hfresh & Hi1 & _).
    apply insert_entry_ok in E2. destruct E2 as (_ & _ & _ & Hi2 & _).
    simpl. rewrite Hi2, Hi1. apply inode_keys_add; assumption.
  - destruct Hstep as (_ & _ & ->). unfold unlink_effect.
    set (ino := lookup_ino d token parentIno name).
    set (d2 := sql_update_ref_count _ _ _ _).
    assert (H2 : inode_keys_ok d2).
    { unfold inode_keys_ok, d2. simpl. rewrite inode_keys_map; [exact H|].
      apply keeps_identity_cond, keeps_identity_add_ref_count. }
    destruct (sql_select_inode d2 token ino) as [i|]; [|exact H2].
    destruct (inode_RefCount i =? 0); [|exact H2].
    apply inode_keys_delete. exact H2.
  - destruct Hstep as (_ & _ & _ & _ & ->). unfold rmdir_effect.
    apply inode_keys_delete. exact H.
  - destruct Hstep as (Hfile & d1 & E1 & ->). cbv zeta in E1.
    destruct (upsert_content_ok d token ino
                (written (content_of d token ino) (firstn (Z.to_nat length) data)
                         (wrap64 (offset + wrap64 length)) offset))
      as (d1' & E1' & _ & Hi1 & _).
    { unfold is_file in Hfile.
      destruct (sql_select_inode d token ino) eqn:E; [|discriminate].
      apply (select_inode_exists _ _ _ _ E). }
    rewrite E1 in E1'. injection E1' as <-.
    simpl. rewrite Hi1, inode_keys_map; [exact H|].
    apply keeps_identity_cond. apply keeps_identity_set_size.
  - destruct Hstep as (_ & _ & d1 & E1 & ->).
    apply insert_entry_ok in E1. destruct E1 as (_ & _ & _ & Hi1 & _).
    simpl. rewrite Hi1, inode_keys_map; [exact H|].
    apply keeps_identity_cond, keeps_identity_add_ref_count.
Qed.

Lemma reachable_inode_keys_ok d : reachable d -> inode_keys_ok d.
Proof.
  induction 1 as [|w c Hr IH Hadm]; [constructor|].
  destruct (run_call_effect c w) as [-> | Hstep]; [exact IH|].
  apply (call_step_inode_keys (db w) c); assumption.
Qed.

Lemma filter_unique_key l token ino :
  NoDup (map inode_key l) ->
  existsb (inode_at token ino) l = true ->
  exists i, filter (inode_at token ino) l = [i].
Proof.
  induction l as [|x l IH]; simpl; intros Hnd Hex; [discriminate|].
  inversion Hnd as [|? ? Hnin Hnd']; subst.
  destruct (inode_at token ino x) eqn:Ex.
  - exists x. f_equal.
    destruct (filter (inode_at token ino) l) as [|y l'] eqn:E; [reflexivity|].
    assert (Hin : In y (filter (inode_at token ino) l)) by (rewrite E; now left).
    apply filter_In in Hin. destruct Hin as [Hin Hy].
    exfalso. apply Hnin. apply in_map_iff. exists y. split; [|exact Hin].
    apply inode_at_iff in Ex, Hy. unfold inode_key.
    destruct Ex as [-> ->]. destruct Hy as [-> ->]. reflexivity.
  - apply IH; assumption.
Qed.

(** On every reachable store each entry joins exactly one inode row, so the
    enumeration of a directory has one row per entry. *)
Lemma reachable_joins_once d token dirIno :
  reachable d -> joins_once d token dirIno.
Proof.
  intros Hr e Hin. apply filter_In in Hin. destruct Hin as [Hin _].
  apply filter_unique_key.
  - apply (reachable_inode_keys_ok d Hr).
  - destruct (reachable_links_inv d Hr) as (_ & _ & Ht & _). apply Ht, Hin.
Qed.

(** * Further properties of the server *)

(** ** Committed effects are sequences of accepted statements *)

Lemma stmt_steps_one d d' : stmt_step d d' -> stmt_steps d d'.
Proof. intros H. eapply steps_cons; [exact H|apply steps_nil]. Qed.

Lemma stmt_steps_app d d1 d2 :
  stmt_steps d d1 -> stmt_steps d1 d2 -> stmt_steps d d2.
Proof.
  induction 1 as [|d d0 d1 H H0 IH]; intros H2; [exact H2|].
  eapply steps_cons; [exact H|apply IH, H2].
Qed.

Lemma call_step_stmts d c d' : call_step d c d' -> stmt_steps d d'.
Proof.
  destruct c; simpl.
  - intros [_ E]. eapply steps_cons; [apply st_insert_filesystem|].
    apply stmt_steps_one. eapply st_insert_inode, E.
  - intros [_ E]. eapply steps_cons; [apply st_insert_filesystem|].
    apply stmt_steps_one. eapply st_insert_inode, E.
  - intros (_ & _ & f & d1 & d2 & _ & E1 & E2 & E3).
    eapply steps_cons; [eapply st_insert_inode, E1|].
    eapply steps_cons; [eapply st_insert_entry, E2|].
    eapply steps_cons; [apply st_increment_next_ino|].
    apply stmt_steps_one. eapply st_upsert_content, E3.
  - intros (_ & _ & f & d1 & d2 & _ & E1 & E2 & ->).
    eapply steps_cons; [eapply st_insert_inode, E1|].
    eapply steps_cons; [eapply st_insert_entry, E2|].
    apply stmt_steps_one. apply st_increment_next_ino.
  - intros (_ & _ & ->). unfold unlink_effect.
    set (ino := lookup_ino d token parentIno name).
    assert (H2 : stmt_steps d (sql_update_ref_count
                                 (sql_delete_entry d token parentIno name)
                                 token ino (-1))).
    { eapply steps_cons; [apply st_delete_entry|].
      apply stmt_steps_one. apply st_update_ref_count. }
    destruct (sql_select_inode _ token ino) as [i|]; [|exact H2].
    destruct (inode_RefCount i =? 0); [|exact H2].
    eapply stmt_steps_app; [exact H2|].
    eapply steps_cons; [apply st_delete_content|].
    apply stmt_steps_one. apply st_delete_inode.
  - intros (_ & _ & _ & _ & ->). unfold rmdir_effect.
    eapply steps_cons; [apply st_delete_entry|].
    apply stmt_steps_one. apply st_delete_inode.
  - intros (_ & d1 & E1 & ->).
    eapply steps_cons; [eapply st_upsert_content, E1|].
    apply stmt_steps_one. apply st_update_size.
  - intros (_ & _ & d1 & E1 & ->).
    eapply steps_cons; [eapply st_insert_entry, E1|].
    apply stmt_steps_one. apply st_update_ref_count.
Qed.

(** Whatever every committed effect keeps holds after every sequence of
    calls, under every fault plan. *)
Lemma run_calls_keep (P : DB -> Prop) :
  (forall d c d', call_step d c d' -> P d -> P d') ->
  forall cs w, P (db w) -> P (db (run_calls cs w)).
Proof.
  intros Hstep cs. induction cs as [|c cs IH]; intros w H; simpl; [exact H|].
  apply IH. destruct (run_call_effect c w) as [-> | Hc]; [exact H|].
  apply (Hstep (db w) c); assumption.
Qed.

Lemma stmt_steps_keep (P : DB -> Prop) :
  (forall d d', stmt_step d d' -> P d -> P d') ->
  forall d d', stmt_steps d d' -> P d -> P d'.
Proof.
  intros Hstep d d' H. induction H as [|d d1 d2 H1 H2 IH]; intros Hd; [exact Hd|].
  apply IH. apply (Hstep d d1); assumption.
Qed.

(** ** The schema's keys and references *)

Lemma exists_inode_delete_other d token ino t n :
  (t, n) <> (token, ino) ->
  existsb (inode_at t n) (inodes (sql_delete_inode d token ino))
  = existsb (inode_at t n) (inodes d).
Proof.
  intros Hne. rewrite !existsb_find.
  fold (sql_select_inode (sql_delete_inode d token ino) t n).
  fold (sql_select_inode d t n).
  rewrite select_inode_delete_other by exact Hne. reflexivity.
Qed.

Lemma exists_fs_map (f : Filesystem -> Filesystem) l token :
  (forall x, fs_Token (f x) = fs_Token x) ->
  existsb (fs_at token) (map f l) = existsb (fs_at token) l.
Proof.
  intros Hf. induction l as [|x l IH]; simpl; [reflexivity|].
  unfold fs_at at 1 3. rewrite Hf, IH. reflexivity.
Qed.

Lemma increment_keeps_token token x :
  fs_Token (if fs_at token x
            then mkFilesystem (fs_Token x) (fs_RootIno x) (fs_NextIno x + 1)
            else x) = fs_Token x.
Proof. destruct (fs_at token x); reflexivity. Qed.

Lemma upsert_content_In d token ino data d1 c :
  sql_upsert_content d token ino data = PgOk tt d1 ->
  In c (file_contents d1) ->
  In c (file_contents d) \/ (fc_token c = token /\ fc_ino c = ino).
Proof.
  unfold sql_upsert_content. destruct (negb _); [discriminate|].
  destruct (existsb (fc_at token ino) (file_contents d)); intros [= <-]; simpl.
  - intros Hin. apply in_map_iff in Hin. destruct Hin as (c0 & <- & Hin).
    destruct (fc_at token ino c0) eqn:E; [|now left].
    right. apply fc_at_iff in E. simpl. exact E.
  - intros Hin. apply in_app_iff in Hin. destruct Hin as [Hin|[<-|[]]]; auto.
Qed.

Lemma upsert_content_lists d token ino data d1 :
  sql_upsert_content d token ino data = PgOk tt d1 ->
  existsb (inode_at token ino) (inodes d) = true
  /\ filesystems d1 = filesystems d /\ inodes d1 = inodes d
  /\ directory_entries d1 = directory_entries d.
Proof.
  unfold sql_upsert_content.
  destruct (existsb (inode_at token ino) (inodes d)); [|discriminate]. cbn [negb].
  destruct (existsb (fc_at token ino) (file_contents d)); intros [= <-]; auto.
Qed.

Lemma insert_inode_lists d i d1 :
  sql_insert_inode d i = PgOk tt d1 ->
  existsb (fs_at (inode_Token i)) (filesystems d) = true
  /\ filesystems d1 = filesystems d /\ file_contents d1 = file_contents d.
Proof.
  unfold sql_insert_inode.
  destruct (existsb (inode_at _ _) _); [discriminate|].
  destruct (existsb (fs_at _) _); [|discriminate]. intros [= <-]. auto.
Qed.

Lemma insert_entry_lists d token parent name ino d1 :
  sql_insert_entry d token parent name ino = PgOk tt d1 ->
  filesystems d1 = filesystems d /\ file_contents d1 = file_contents d.
Proof.
  unfold sql_insert_entry.
  destruct (existsb (de_at _ _ _) _); [discriminate|].
  destruct (negb _); [discriminate|]. intros [= <-]. auto.
Qed.

(** Inode rows are only added or updated in place, entries and contents are
    old ones or refer to inode rows: the schema is kept. *)
Lemma schema_ok_grow d d' :
  schema_ok d ->
  inode_keys_ok d' -> keys_ok d' ->
  (forall t n, existsb (inode_at t n) (inodes d) = true ->
               existsb (inode_at t n) (inodes d') = true) ->
  (forall e, In e (directory_entries d') ->
     In e (directory_entries d)
     \/ (existsb (inode_at (de_token e) (de_ino e)) (inodes d') = true
         /\ existsb (inode_at (de_token e) (de_parent_ino e)) (inodes d') = true)) ->
  (forall c, In c (file_contents d') ->
     In c (file_contents d)
     \/ existsb (inode_at (fc_token c) (fc_ino c)) (inodes d') = true) ->
  namespaces_exist d' ->
  schema_ok d'.
Proof.
  intros (_ & _ & Ht & Hp & Hc & _) Hik Hk Hin He Hcs Hns.
  split; [exact Hik|]. split; [exact Hk|]. split; [|split; [|split]].
  - intros e H. destruct (He e H) as [Hold|[H1 _]]; [apply Hin, Ht, Hold|exact H1].
  - intros e H. destruct (He e H) as [Hold|[_ H2]]; [apply Hin, Hp, Hold|exact H2].
  - intros c H. destruct (Hcs c H) as [Hold|H1]; [apply Hin, Hc, Hold|exact H1].
  - exact Hns.
Qed.

Lemma stmt_step_schema d d' : stmt_step d d' -> schema_ok d -> schema_ok d'.
Proof.
  intros Hs Hinv. pose proof Hinv as (Hik & Hk & Ht & Hp & Hc & Hns).
  destruct Hs.
  - (* insert filesystem *)
    apply (schema_ok_grow d); auto.
    + unfold inode_keys_ok. rewrite insert_filesystem_inodes. exact Hik.
    + unfold keys_ok, sql_insert_filesystem.
      destruct (existsb (fs_at token) (filesystems d)); exact Hk.
    + intros t n. rewrite insert_filesystem_inodes. auto.
    + intros e H. left. unfold sql_insert_filesystem in H.
      destruct (existsb (fs_at token) (filesystems d)); exact H.
    + intros c H. left. unfold sql_insert_filesystem in H.
      destruct (existsb (fs_at token) (filesystems d)); exact H.
    + intros i H. rewrite insert_filesystem_inodes in H.
      unfold sql_insert_filesystem.
      destruct (existsb (fs_at token) (filesystems d)); [apply Hns, H|].
      simpl. rewrite existsb_app, (Hns i H). reflexivity.
  - (* increment next_ino *)
    apply (schema_ok_grow d); auto.
    intros i H. simpl. rewrite exists_fs_map; [apply Hns, H|].
    intros x. apply increment_keeps_token.
  - (* insert inode *)
    destruct (insert_inode_lists _ _ _ H) as (Hfs & Ef & Ec).
    destruct (insert_inode_ok _ _ _ H) as (Hfresh & Ei & Ee).
    apply (schema_ok_grow d); auto.
    + unfold inode_keys_ok. rewrite Ei. apply inode_keys_add; assumption.
    + unfold keys_ok. rewrite Ee. exact Hk.
    + intros t n Hex. rewrite Ei, existsb_app, Hex. reflexivity.
    + intros e He. left. rewrite <- Ee. exact He.
    + intros c Hc'. left. rewrite <- Ec. exact Hc'.
    + intros j Hj. rewrite Ef. rewrite Ei in Hj. apply in_app_iff in Hj.
      destruct Hj as [Hj|[<-|[]]]; [apply Hns, Hj|exact Hfs].
  - (* update size *)
    apply (schema_ok_grow d); auto.
    + unfold inode_keys_ok. simpl. rewrite inode_keys_map; [exact Hik|].
      apply keeps_identity_cond. apply keeps_identity_set_size.
    + intros t n Hex.
      rewrite (exists_inode_map d _
                 (fun i => if inode_at token ino i then set_size size i else i));
        [exact Hex| |reflexivity].
      apply keeps_identity_cond. apply keeps_identity_set_size.
    + intros i Hi. simpl in *. apply in_map_iff in Hi.
      destruct Hi as (i0 & <- & Hi0).
      destruct (inode_at token ino i0); simpl; apply Hns, Hi0.
  - (* update ref_count *)
    apply (schema_ok_grow d); auto.
    + unfold inode_keys_ok. simpl. rewrite inode_keys_map; [exact Hik|].
      apply keeps_identity_cond, keeps_identity_add_ref_count.
    + intros t n Hex.
      rewrite (exists_inode_map d _
                 (fun i => if inode_at token ino i then add_ref_count delta i else i));
        [exact Hex| |reflexivity].
      apply keeps_identity_cond, keeps_identity_add_ref_count.
    + intros i Hi. simpl in *. apply in_map_iff in Hi.
      destruct Hi as (i0 & <- & Hi0).
      destruct (inode_at token ino i0); simpl; apply Hns, Hi0.
  - (* delete inode *)
    split; [apply inode_keys_delete, Hik|].
    unfold sql_delete_inode.
    destruct (existsb (inode_at token ino) (inodes d)) eqn:Eex;
      [|repeat split; assumption].
    assert (Hother : forall t n, (t, n) <> (token, ino) ->
              existsb (inode_at t n) (inodes d) = true ->
              existsb (inode_at t n)
                (filter (fun i => negb (inode_at token ino i)) (inodes d)) = true).
    { intros t n Hne Hex.
      pose proof (exists_inode_delete_other d token ino t n Hne) as E.
      unfold sql_delete_inode in E. rewrite Eex in E. simpl in E.
      rewrite E. exact Hex. }
    split; [|split; [|split; [|split]]]; simpl.
    + unfold keys_ok. simpl. apply NoDup_map_filter, Hk.
    + intros e He. apply filter_In in He. destruct He as [He Hkeep].
      apply andb_true_iff in Hkeep. destruct Hkeep as [Hto _].
      apply negb_true_iff in Hto. apply Hother; [|apply Ht, He].
      intros [= E1 E2].
      assert (E : de_to token ino e = true) by (apply de_to_iff; auto).
      congruence.
    + intros e He. apply filter_In in He. destruct He as [He Hkeep].
      apply andb_true_iff in Hkeep. destruct Hkeep as [_ Hin].
      apply negb_true_iff in Hin. apply Hother; [|apply Hp, He].
      intros [= E1 E2].
      assert (E : de_in token ino e = true) by (apply de_in_iff; auto).
      congruence.
    + intros c Hc'. apply filter_In in Hc'. destruct Hc' as [Hc' Hkeep].
      apply negb_true_iff in Hkeep. apply Hother; [|apply Hc, Hc'].
      intros [= E1 E2].
      assert (E : fc_at token ino c = true) by (apply fc_at_iff; auto).
      congruence.
    + intros i Hi. apply filter_In in Hi. apply Hns. tauto.
  - (* insert entry *)
    destruct (insert_entry_lists _ _ _ _ _ _ H) as (Ef & Ec).
    destruct (insert_entry_ok _ _ _ _ _ _ H) as (Hfresh & Hto & Hpar & Ei & Ee).
    apply (schema_ok_grow d); auto.
    + unfold inode_keys_ok. rewrite Ei. exact Hik.
    + unfold keys_ok. rewrite Ee. apply keys_ok_add; assumption.
    + intros t n. rewrite Ei. auto.
    + intros e He. rewrite Ee in He. apply in_app_iff in He.
      destruct He as [He|[<-|[]]]; [now left|]. right. rewrite Ei. auto.
    + intros c Hc'. left. rewrite <- Ec. exact Hc'.
    + intros i Hi. rewrite Ef. rewrite Ei in Hi. apply Hns, Hi.
  - (* delete entry *)
    apply (schema_ok_grow d); auto.
    + unfold keys_ok. simpl. apply NoDup_map_filter, Hk.
    + intros e He. left. simpl in He. apply filter_In in He. tauto.
  - (* upsert content *)
    destruct (upsert_content_lists _ _ _ _ _ H) as (Hex & Ef & Ei & Ee).
    apply (schema_ok_grow d); auto.
    + unfold inode_keys_ok. rewrite Ei. exact Hik.
    + unfold keys_ok. rewrite Ee. exact Hk.
    + intros t n. rewrite Ei. auto.
    + intros e He. left. rewrite <- Ee. exact He.
    + intros c Hc'. destruct (upsert_content_In _ _ _ _ _ c H Hc') as [Hold|[E1 E2]];
        [now left|]. right. rewrite Ei, E1, E2. exact Hex.
    + intros i Hi. rewrite Ef. rewrite Ei in Hi. apply Hns, Hi.
  - (* delete content *)
    apply (schema_ok_grow d); auto.
    intros c Hc'. left. simpl in Hc'. apply filter_In in Hc'. tauto.
Qed.

Lemma schema_ok_empty : schema_ok empty_db.
Proof.
  repeat split; try constructor; intros x [].
Qed.

Lemma call_step_schema d c d' : call_step d c d' -> schema_ok d -> schema_ok d'.
Proof.
  intros H. apply (stmt_steps_keep schema_ok stmt_step_schema).
  apply (call_step_stmts d c d' H).
Qed.

(** ** Inode numbers and the namespace counter *)

Lemma select_fs_increment d token t :
  sql_select_filesystem (sql_increment_next_ino d token) t
  = option_map (bump_next_ino token) (sql_select_filesystem d t).
Proof.
  unfold sql_select_filesystem, sql_increment_next_ino. simpl.
  apply (find_map_key (fs_at t) (bump_next_ino token)).
  intros x. unfold bump_next_ino, fs_at. destruct (String.eqb (fs_Token x) token);
    reflexivity.
Qed.

Lemma select_fs_exists d t :
  existsb (fs_at t) (filesystems d)
  = match sql_select_filesystem d t with Some _ => true | None => false end.
Proof. apply existsb_find. Qed.

Lemma select_fs_insert_old d token root next t f :
  sql_select_filesystem d t = Some f ->
  sql_select_filesystem (sql_insert_filesystem d token root next) t = Some f.
Proof.
  intros H. unfold sql_insert_filesystem.
  destruct (existsb (fs_at token) (filesystems d)); [exact H|].
  unfold sql_select_filesystem. simpl. apply find_app_l. exact H.
Qed.

Lemma select_fs_insert_new d token root next :
  sql_select_filesystem d token = None ->
  sql_select_filesystem (sql_insert_filesystem d token root next) token
  = Some (mkFilesystem token root next).
Proof.
  intros H. unfold sql_insert_filesystem. rewrite select_fs_exists, H.
  unfold sql_select_filesystem. simpl. rewrite find_app_r by exact H.
  simpl. unfold fs_at. simpl. rewrite String.eqb_refl. reflexivity.
Qed.

Lemma select_fs_insert_inv d token root next t f :
  sql_select_filesystem (sql_insert_filesystem d token root next) t = Some f ->
  sql_select_filesystem d t = Some f
  \/ (sql_select_filesystem d t = None /\ t = token
      /\ f = mkFilesystem token root next).
Proof.
  unfold sql_insert_filesystem.
  destruct (existsb (fs_at token) (filesystems d)); [now left|].
  unfold sql_select_filesystem. simpl.
  destruct (find (fs_at t) (filesystems d)) as [g|] eqn:E.
  - rewrite (find_app_l _ _ _ _ E). now left.
  - rewrite (find_app_r _ _ _ E). simpl.
    destruct (fs_at t (mkFilesystem token root next)) eqn:Eat; [|discriminate].
    intros [= <-]. right. unfold fs_at in Eat. simpl in Eat.
    apply String.eqb_eq in Eat. auto.
Qed.

Lemma select_fs_In d t f :
  sql_select_filesystem d t = Some f -> In f (filesystems d) /\ fs_Token f = t.
Proof.
  unfold sql_select_filesystem. intros H. apply find_some in H.
  destruct H as [Hin Hat]. split; [exact Hin|]. apply String.eqb_eq, Hat.
Qed.

Lemma inodes_from_allocated d d' :
  inodes_from d d' -> allocated_ok d -> allocated_ok d'.
Proof.
  intros [Hfs Hin] [H1 H2]. split.
  - rewrite Hfs. exact H1.
  - intros i' Hi'. destruct (Hin i' Hi') as (i & Hi & Hk & _).
    injection Hk as Et En. destruct (H2 i Hi) as (f & Hf & Hr).
    exists f. unfold sql_select_filesystem in *. rewrite Hfs, Et, En. auto.
Qed.

Lemma inodes_from_refl d : inodes_from d d.
Proof. split; [reflexivity|]. intros i Hi. exists i. auto. Qed.

Lemma inodes_from_trans d d1 d2 :
  inodes_from d d1 -> inodes_from d1 d2 -> inodes_from d d2.
Proof.
  intros [F1 H1] [F2 H2]. split; [congruence|].
  intros i2 Hi2. destruct (H2 i2 Hi2) as (i1 & Hi1 & K1 & T1).
  destruct (H1 i1 Hi1) as (i & Hi & K & T). exists i. split; [exact Hi|].
  split; congruence.
Qed.

Lemma inodes_from_map d d' f :
  keeps_identity f -> filesystems d' = filesystems d ->
  inodes d' = map f (inodes d) -> inodes_from d d'.
Proof.
  intros Hf Hfs Hi. split; [exact Hfs|].
  intros i' Hi'. rewrite Hi in Hi'. apply in_map_iff in Hi'.
  destruct Hi' as (i & <- & Hin). exists i. split; [exact Hin|].
  destruct (Hf i) as (E1 & E2 & E3). unfold inode_key. rewrite E1, E2. auto.
Qed.

Lemma inodes_from_same d d' :
  filesystems d' = filesystems d -> inodes d' = inodes d -> inodes_from d d'.
Proof.
  intros Hfs Hi. split; [exact Hfs|]. rewrite Hi. intros i H. exists i. auto.
Qed.

Lemma inodes_from_delete d token ino :
  inodes_from d (sql_delete_inode d token ino).
Proof.
  unfold sql_delete_inode. destruct (existsb _ _); [|apply inodes_from_refl].
  split; [reflexivity|]. simpl. intros i Hi. apply filter_In in Hi.
  exists i. tauto.
Qed.

(** Unlink, Rmdir, Write and Link add no inode rows and keep the namespaces. *)
Lemma unlink_step_from d token parent name d' :
  unlink_step d token parent name d' -> inodes_from d d'.
Proof.
  intros (_ & _ & ->). unfold unlink_effect.
  set (ino := lookup_ino d token parent name).
  set (d2 := sql_update_ref_count _ _ _ _).
  assert (H2 : inodes_from d d2).
  { apply (inodes_from_map d d2
             (fun i => if inode_at token ino i then add_ref_count (-1) i else i));
      try reflexivity.
    apply keeps_identity_cond, keeps_identity_add_ref_count. }
  destruct (sql_select_inode d2 token ino) as [i|]; [|exact H2].
  destruct (inode_RefCount i =? 0); [|exact H2].
  eapply inodes_from_trans; [exact H2|].
  eapply inodes_from_trans; [|apply inodes_from_delete].
  apply inodes_from_same; reflexivity.
Qed.

Lemma rmdir_step_from d token parent name d' :
  rmdir_step d token parent name d' -> inodes_from d d'.
Proof.
  intros (_ & _ & _ & _ & ->). unfold rmdir_effect.
  eapply inodes_from_trans; [|apply inodes_from_delete].
  apply inodes_from_same; reflexivity.
Qed.

Lemma write_step_from d token ino data length offset d' :
  write_step d token ino data length offset d' -> inodes_from d d'.
Proof.
  intros (_ & d1 & H). cbv zeta in H. destruct H as (E1 & ->).
  set (bytes := written _ _ _ _) in *.
  destruct (upsert_content_lists _ _ _ _ _ E1) as (_ & Ef & Ei & _).
  apply (inodes_from_map d _
           (fun i => if inode_at token ino i then set_size (len bytes) i else i)).
  - apply keeps_identity_cond. apply keeps_identity_set_size.
  - simpl. exact Ef.
  - simpl. rewrite Ei. reflexivity.
Qed.

Lemma link_step_from d token target parent name d' :
  link_step d token target parent name d' -> inodes_from d d'.
Proof.
  intros (_ & _ & d1 & E1 & ->).
  destruct (insert_entry_lists _ _ _ _ _ _ E1) as (Ef & _).
  destruct (insert_entry_ok _ _ _ _ _ _ E1) as (_ & _ & _ & Ei & _).
  apply (inodes_from_map d _
           (fun i => if inode_at token target i then add_ref_count 1 i else i)).
  - apply keeps_identity_cond, keeps_identity_add_ref_count.
  - simpl. exact Ef.
  - simpl. rewrite Ei. reflexivity.
Qed.

Lemma allocated_ok_create d d' token f n :
  allocated_ok d ->
  sql_select_filesystem d token = Some f ->
  inode_Token n = token -> inode_Ino n = fs_NextIno f ->
  filesystems d' = filesystems (sql_increment_next_ino d token) ->
  inodes d' = inodes d ++ [n] ->
  allocated_ok d'.
Proof.
  intros [H1 H2] Hf Ht Hn Hfs Hi. split.
  - rewrite Hfs. simpl. intros g Hg. apply in_map_iff in Hg.
    destruct Hg as (g0 & <- & Hg0). specialize (H1 g0 Hg0).
    destruct (fs_at token g0); simpl; unfold VTFS_ROOT_INO in *; lia.
  - assert (Hsel : forall t, sql_select_filesystem d' t
                             = option_map (bump_next_ino token)
                                 (sql_select_filesystem d t)).
    { intros t. rewrite <- select_fs_increment.
      unfold sql_select_filesystem. rewrite Hfs. reflexivity. }
    intros i Hin. rewrite Hi in Hin. apply in_app_iff in Hin.
    destruct Hin as [Hin|[<-|[]]].
    + destruct (H2 i Hin) as (g & Hg & Hr). exists (bump_next_ino token g).
      rewrite Hsel, Hg. split; [reflexivity|].
      unfold bump_next_ino. destruct (fs_at token g); simpl; unfold VTFS_ROOT_INO in *; lia.
    + exists (bump_next_ino token f). rewrite Hsel, Ht, Hf.
      split; [reflexivity|].
      destruct (select_fs_In _ _ _ Hf) as [Hfin Hft].
      specialize (H1 f Hfin). unfold bump_next_ino, fs_at.
      rewrite Hft, String.eqb_refl. simpl. unfold VTFS_ROOT_INO in *. lia.
Qed.

Lemma call_step_allocated d c d' :
  call_step d c d' -> allocated_ok d -> allocated_ok d'.
Proof.
  destruct c; simpl; intros Hstep Hinv.
  1-2: (destruct Hstep as [Hnone E]; destruct Hinv as [H1 H2];
        destruct (insert_inode_lists _ _ _ E) as (_ & Ef & _);
        destruct (insert_inode_ok _ _ _ E) as (_ & Ei & _);
        rewrite insert_filesystem_inodes in Ei;
        assert (Hsel : forall t, sql_select_filesystem d' t
                  = sql_select_filesystem
                      (sql_insert_filesystem d token VTFS_ROOT_INO
                         (VTFS_ROOT_INO + 1)) t)
          by (intros t; unfold sql_select_filesystem; rewrite Ef; reflexivity);
        split;
        [ rewrite Ef; unfold sql_insert_filesystem;
          destruct (existsb (fs_at token) (filesystems d)); [exact H1|];
          simpl; intros g Hg; apply in_app_iff in Hg;
          destruct Hg as [Hg|[<-|[]]]; [apply H1, Hg|simpl; unfold VTFS_ROOT_INO in *; lia]
        | intros i Hin; rewrite Ei in Hin; apply in_app_iff in Hin;
          destruct Hin as [Hin|[<-|[]]];
          [ destruct (H2 i Hin) as (g & Hg & Hr); exists g; rewrite Hsel;
            split; [apply select_fs_insert_old, Hg|exact Hr]
          | eexists; rewrite Hsel; simpl;
            split; [apply select_fs_insert_new, Hnone|simpl; unfold VTFS_ROOT_INO in *; lia] ] ]).
  - destruct Hstep as (_ & _ & f & d1 & d2 & Hf & E1 & E2 & E3).
    destruct (insert_inode_lists _ _ _ E1) as (_ & Ef1 & _).
    destruct (insert_inode_ok _ _ _ E1) as (_ & Ei1 & _).
    destruct (insert_entry_lists _ _ _ _ _ _ E2) as (Ef2 & _).
    destruct (insert_entry_ok _ _ _ _ _ _ E2) as (_ & _ & _ & Ei2 & _).
    destruct (upsert_content_lists _ _ _ _ _ E3) as (_ & Ef3 & Ei3 & _).
    apply (allocated_ok_create d d' token f
             (mkInode (fs_NextIno f) token NodeTypeFile mode 0 1)); auto.
    + rewrite Ef3. simpl. rewrite Ef2, Ef1. reflexivity.
    + rewrite Ei3. simpl. rewrite Ei2, Ei1. reflexivity.
  - destruct Hstep as (_ & _ & f & d1 & d2 & Hf & E1 & E2 & ->).
    destruct (insert_inode_lists _ _ _ E1) as (_ & Ef1 & _).
    destruct (insert_inode_ok _ _ _ E1) as (_ & Ei1 & _).
    destruct (insert_entry_lists _ _ _ _ _ _ E2) as (Ef2 & _).
    destruct (insert_entry_ok _ _ _ _ _ _ E2) as (_ & _ & _ & Ei2 & _).
    apply (allocated_ok_create d _ token f
             (mkInode (fs_NextIno f) token NodeTypeDir mode 0 1)); auto.
    + simpl. rewrite Ef2, Ef1. reflexivity.
    + simpl. rewrite Ei2, Ei1. reflexivity.
  - apply (inodes_from_allocated d d'); [|exact Hinv].
    apply (unlink_step_from d token parentIno name d' Hstep).
  - apply (inodes_from_allocated d d'); [|exact Hinv].
    apply (rmdir_step_from d token parentIno name d' Hstep).
  - apply (inodes_from_allocated d d'); [|exact Hinv].
    apply (write_step_from d token ino data length offset d' Hstep).
  - apply (inodes_from_allocated d d'); [|exact Hinv].
    apply (link_step_from d token targetIno parentIno name d' Hstep).
Qed.

(** ** Root inodes and directory reference counts *)

Lemma touches_refl d token ino : touches d token ino d.
Proof. split; [reflexivity|]. split; [reflexivity|]. intros i H. eauto. Qed.

Lemma touches_trans d d1 d2 token ino :
  touches d token ino d1 -> touches d1 token ino d2 -> touches d token ino d2.
Proof.
  intros (F1 & O1 & S1) (F2 & O2 & S2). split; [congruence|]. split.
  - intros t n Hne. rewrite O2, O1 by exact Hne. reflexivity.
  - intros i2 H2. destruct (S2 i2 H2) as (i1 & H1 & T1).
    destruct (S1 i1 H1) as (i & H & T). exists i. split; [exact H|congruence].
Qed.

Lemma touches_same d d' token ino :
  filesystems d' = filesystems d -> inodes d' = inodes d -> touches d token ino d'.
Proof.
  intros Hf Hi. unfold touches, sql_select_inode. rewrite Hf, Hi.
  split; [reflexivity|]. split; [reflexivity|]. intros i H. eauto.
Qed.

Lemma touches_map d d' token ino g :
  keeps_identity g -> filesystems d' = filesystems d ->
  inodes d' = map (fun i => if inode_at token ino i then g i else i) (inodes d) ->
  touches d token ino d'.
Proof.
  intros Hg Hf Hi. split; [exact Hf|].
  assert (Hk : keeps_identity (fun i => if inode_at token ino i then g i else i))
    by (apply keeps_identity_cond, Hg).
  split.
  - intros t n Hne. unfold sql_select_inode. rewrite Hi. clear Hi.
    induction (inodes d) as [|x l IH]; simpl; [reflexivity|].
    destruct (inode_at token ino x) eqn:Ex.
    + rewrite (inode_at_keeps g t n x Hg).
      assert (Ef : inode_at t n x = false).
      { apply not_true_false. intros Et. apply Hne.
        apply inode_at_iff in Ex, Et. destruct Ex as [<- <-], Et as [<- <-].
        reflexivity. }
      rewrite Ef. exact IH.
    + destruct (inode_at t n x); [reflexivity|exact IH].
  - intros i' H'. unfold sql_select_inode in *. rewrite Hi, find_map_key in H'.
    + destruct (find (inode_at token ino) (inodes d)) as [i|]; [|discriminate].
      injection H' as <-. exists i. split; [reflexivity|].
      destruct (Hk i) as (_ & _ & E). exact E.
    + intros x.
      apply (inode_at_keeps (fun i => if inode_at token ino i then g i else i)),
        Hk.
Qed.

Lemma touches_delete d token ino : touches d token ino (sql_delete_inode d token ino).
Proof.
  split.
  - unfold sql_delete_inode. destruct (existsb _ _); reflexivity.
  - split.
    + intros t n Hne. apply select_inode_delete_other, Hne.
    + intros i H. rewrite select_inode_delete_same in H. discriminate.
Qed.

Lemma unlink_step_touches d token parent name d' :
  unlink_step d token parent name d' ->
  touches d token (lookup_ino d token parent name) d'.
Proof.
  intros (_ & _ & ->). unfold unlink_effect.
  set (ino := lookup_ino d token parent name).
  set (d2 := sql_update_ref_count _ _ _ _).
  assert (H2 : touches d token ino d2).
  { apply (touches_map d d2 token ino (add_ref_count (-1))); try reflexivity.
    apply keeps_identity_add_ref_count. }
  destruct (sql_select_inode d2 token ino) as [i|]; [|exact H2].
  destruct (inode_RefCount i =? 0); [|exact H2].
  eapply touches_trans; [exact H2|].
  eapply touches_trans; [|apply touches_delete].
  apply touches_same; reflexivity.
Qed.

Lemma rmdir_step_touches d token parent name d' :
  rmdir_step d token parent name d' ->
  touches d token (lookup_ino d token parent name) d'.
Proof.
  intros (_ & _ & _ & _ & ->). unfold rmdir_effect.
  eapply touches_trans; [|apply touches_delete].
  apply touches_same; reflexivity.
Qed.

Lemma write_step_touches d token ino data length offset d' :
  write_step d token ino data length offset d' -> touches d token ino d'.
Proof.
  intros (_ & d1 & H). cbv zeta in H. destruct H as (E1 & ->).
  set (bytes := written _ _ _ _) in *.
  destruct (upsert_content_lists _ _ _ _ _ E1) as (_ & Ef & Ei & _).
  apply (touches_map d _ token ino (set_size (len bytes))).
  - apply keeps_identity_set_size.
  - simpl. exact Ef.
  - simpl. rewrite Ei. reflexivity.
Qed.

Lemma link_step_touches d token target parent name d' :
  link_step d token target parent name d' -> touches d token target d'.
Proof.
  intros (_ & _ & d1 & E1 & ->).
  destruct (insert_entry_lists _ _ _ _ _ _ E1) as (Ef & _).
  destruct (insert_entry_ok _ _ _ _ _ _ E1) as (_ & _ & _ & Ei & _).
  apply (touches_map d _ token target (add_ref_count 1)).
  - apply keeps_identity_add_ref_count.
  - simpl. exact Ef.
  - simpl. rewrite Ei. reflexivity.
Qed.

Lemma root_is_dir d token f :
  roots_ok d -> sql_select_filesystem d token = Some f ->
  is_dir d token VTFS_ROOT_INO = true /\ is_file d token VTFS_ROOT_INO = false.
Proof.
  intros Hr Hf. unfold is_dir, is_file. rewrite (Hr token f Hf). auto.
Qed.

(** A change at a key that is no directory, or is not a root, keeps the roots. *)
Lemma touches_roots d token ino d' :
  touches d token ino d' ->
  is_dir d token ino = false \/ ino <> VTFS_ROOT_INO ->
  roots_ok d -> roots_ok d'.
Proof.
  intros (Hf & Ho & _) Hcase Hr t f Hsel.
  assert (Hsel0 : sql_select_filesystem d t = Some f)
    by (unfold sql_select_filesystem in *; rewrite <- Hf; exact Hsel).
  rewrite Ho; [apply (Hr t f Hsel0)|].
  intros [= -> <-]. destruct Hcase as [Hd|Hne]; [|congruence].
  destruct (root_is_dir d token f Hr Hsel0). congruence.
Qed.

Lemma file_not_dir d token ino : is_file d token ino = true -> is_dir d token ino = false.
Proof.
  unfold is_file, is_dir. destruct (sql_select_inode d token ino) as [i|];
    [|discriminate].
  intros H. apply Z.eqb_eq in H. rewrite H. reflexivity.
Qed.

Lemma select_inode_app d d' n t k i :
  inodes d' = inodes d ++ [n] ->
  sql_select_inode d t k = Some i -> sql_select_inode d' t k = Some i.
Proof.
  unfold sql_select_inode. intros -> H. apply find_app_l, H.
Qed.

Lemma call_step_roots d c d' : call_step d c d' -> roots_ok d -> roots_ok d'.
Proof.
  destruct c; simpl; intros Hstep Hr.
  1-2: (destruct Hstep as [Hnone E];
        destruct (insert_inode_lists _ _ _ E) as (_ & Ef & _);
        destruct (insert_inode_ok _ _ _ E) as (Hfresh & Ei & _);
        rewrite insert_filesystem_inodes in Ei, Hfresh; simpl in Hfresh;
        intros t f Hsel;
        assert (Hsel0 : sql_select_filesystem
                          (sql_insert_filesystem d token VTFS_ROOT_INO
                             (VTFS_ROOT_INO + 1)) t = Some f)
          by (unfold sql_select_filesystem in *; rewrite <- Ef; exact Hsel);
        destruct (select_fs_insert_inv _ _ _ _ _ _ Hsel0)
          as [Hold|(_ & -> & _)];
        [ apply (select_inode_app d d' _ _ _ _ Ei), (Hr t f Hold)
        | unfold sql_select_inode; rewrite Ei, find_app_r;
          [ simpl; unfold inode_at; simpl; rewrite String.eqb_refl; reflexivity
          | rewrite existsb_find in Hfresh;
            destruct (find (inode_at token VTFS_ROOT_INO) (inodes d));
            [discriminate|reflexivity] ] ]).
  - destruct Hstep as (_ & _ & f & d1 & d2 & Hf & E1 & E2 & E3).
    destruct (insert_inode_lists _ _ _ E1) as (_ & Ef1 & _).
    destruct (insert_inode_ok _ _ _ E1) as (_ & Ei1 & _).
    destruct (insert_entry_lists _ _ _ _ _ _ E2) as (Ef2 & _).
    destruct (insert_entry_ok _ _ _ _ _ _ E2) as (_ & _ & _ & Ei2 & _).
    destruct (upsert_content_lists _ _ _ _ _ E3) as (_ & Ef3 & Ei3 & _).
    simpl in Ef3, Ei3. intros t g Hsel.
    assert (Hsel0 : exists g0, sql_select_filesystem d t = Some g0).
    { unfold sql_select_filesystem in Hsel. rewrite Ef3, Ef2, Ef1 in Hsel.
      pose proof (select_fs_increment d token t) as Hinc.
      unfold sql_select_filesystem at 1 in Hinc. simpl in Hinc.
      rewrite Hinc in Hsel.
      destruct (sql_select_filesystem d t) as [g0|]; [eauto|discriminate]. }
    destruct Hsel0 as (g0 & Hg0).
    apply (select_inode_app d d' (mkInode (fs_NextIno f) token NodeTypeFile mode 0 1)).
    + rewrite Ei3, Ei2, Ei1. reflexivity.
    + apply (Hr t g0 Hg0).
  - destruct Hstep as (_ & _ & f & d1 & d2 & Hf & E1 & E2 & ->).
    destruct (insert_inode_lists _ _ _ E1) as (_ & Ef1 & _).
    destruct (insert_inode_ok _ _ _ E1) as (_ & Ei1 & _).
    destruct (insert_entry_lists _ _ _ _ _ _ E2) as (Ef2 & _).
    destruct (insert_entry_ok _ _ _ _ _ _ E2) as (_ & _ & _ & Ei2 & _).
    intros t g Hsel.
    assert (Hsel0 : exists g0, sql_select_filesystem d t = Some g0).
    { unfold sql_select_filesystem in Hsel. simpl in Hsel. rewrite Ef2, Ef1 in Hsel.
      pose proof (select_fs_increment d token t) as Hinc.
      unfold sql_select_filesystem at 1 in Hinc. simpl in Hinc.
      rewrite Hinc in Hsel.
      destruct (sql_select_filesystem d t) as [g0|]; [eauto|discriminate]. }
    destruct Hsel0 as (g0 & Hg0).
    apply (select_inode_app d _ (mkInode (fs_NextIno f) token NodeTypeDir mode 0 1)).
    + simpl. rewrite Ei2, Ei1. reflexivity.
    + apply (Hr t g0 Hg0).
  - apply (touches_roots d token (lookup_ino d token parentIno name) d');
      [apply (unlink_step_touches _ _ _ _ _ Hstep)| |exact Hr].
    left. apply file_not_dir. apply Hstep.
  - apply (touches_roots d token (lookup_ino d token parentIno name) d');
      [apply (rmdir_step_touches _ _ _ _ _ Hstep)| |exact Hr].
    right. apply Hstep.
  - apply (touches_roots d token ino d');
      [apply (write_step_touches _ _ _ _ _ _ _ Hstep)| |exact Hr].
    left. apply file_not_dir. apply Hstep.
  - apply (touches_roots d token targetIno d');
      [apply (link_step_touches _ _ _ _ _ _ Hstep)| |exact Hr].
    left. apply file_not_dir. apply Hstep.
Qed.

Lemma select_inode_unique d i :
  inode_keys_ok d -> In i (inodes d) ->
  sql_select_inode d (inode_Token i) (inode_Ino i) = Some i.
Proof.
  unfold inode_keys_ok, sql_select_inode.
  induction (inodes d) as [|x l IH]; simpl; intros Hnd Hin; [contradiction|].
  inversion Hnd as [|k ks Hnotin Hnd']; subst.
  destruct Hin as [->|Hin].
  - unfold inode_at. rewrite String.eqb_refl, Z.eqb_refl. reflexivity.
  - destruct (inode_at (inode_Token i) (inode_Ino i) x) eqn:Ex.
    + exfalso. apply Hnotin. apply inode_at_iff in Ex. destruct Ex as [Et En].
      apply in_map_iff. exists i. split; [|exact Hin].
      unfold inode_key. rewrite Et, En. reflexivity.
    + apply IH; assumption.
Qed.

Lemma select_inode_In d token ino i :
  sql_select_inode d token ino = Some i ->
  In i (inodes d) /\ inode_Token i = token /\ inode_Ino i = ino.
Proof.
  unfold sql_select_inode. intros H. apply find_some in H.
  destruct H as [Hin Hat]. apply inode_at_iff in Hat. tauto.
Qed.

(** A change at the key of a file keeps the reference counts of directories. *)
Lemma touches_dirs d token ino d' :
  touches d token ino d' -> inode_keys_ok d' ->
  is_dir d token ino = false \/ sql_select_inode d' token ino = None ->
  dirs_ok d -> dirs_ok d'.
Proof.
  intros (_ & Ho & Hs) Hk Hcase Hd i' Hin Hty.
  pose proof (select_inode_unique d' i' Hk Hin) as Hsel.
  destruct (string_dec (inode_Token i') token) as [Et|Et];
    [destruct (Z.eq_dec (inode_Ino i') ino) as [En|En]|].
  - rewrite Et, En in Hsel. destruct Hcase as [Hdir|Hnone]; [|congruence].
    destruct (Hs i' Hsel) as (i & Hi & Ety). unfold is_dir in Hdir.
    rewrite Hi in Hdir. rewrite <- Ety, Hty in Hdir. discriminate.
  - rewrite Ho in Hsel by congruence.
    apply (Hd i'); [apply (select_inode_In _ _ _ _ Hsel)|exact Hty].
  - rewrite Ho in Hsel by congruence.
    apply (Hd i'); [apply (select_inode_In _ _ _ _ Hsel)|exact Hty].
Qed.

Lemma dirs_ok_add d d' n :
  inodes d' = inodes d ++ [n] -> inode_RefCount n = 1 -> dirs_ok d -> dirs_ok d'.
Proof.
  intros Hi Hn Hd i Hin Hty. rewrite Hi in Hin. apply in_app_iff in Hin.
  destruct Hin as [Hin|[<-|[]]]; [apply Hd; assumption|exact Hn].
Qed.

Lemma call_step_dirs d c d' :
  call_step d c d' -> inode_keys_ok d -> dirs_ok d -> dirs_ok d'.
Proof.
  intros Hstep Hk Hd.
  pose proof (call_step_inode_keys d c d' Hstep Hk) as Hk'.
  destruct c; simpl in Hstep.
  1-2: (destruct Hstep as [_ E];
        destruct (insert_inode_ok _ _ _ E) as (_ & Ei & _);
        rewrite insert_filesystem_inodes in Ei;
        apply (dirs_ok_add d d' _ Ei); [reflexivity|exact Hd]).
  - destruct Hstep as (_ & _ & f & d1 & d2 & Hf & E1 & E2 & E3).
    destruct (insert_inode_ok _ _ _ E1) as (_ & Ei1 & _).
    destruct (insert_entry_ok _ _ _ _ _ _ E2) as (_ & _ & _ & Ei2 & _).
    destruct (upsert_content_lists _ _ _ _ _ E3) as (_ & _ & Ei3 & _).
    simpl in Ei3.
    apply (dirs_ok_add d d' (mkInode (fs_NextIno f) token NodeTypeFile mode 0 1));
      [rewrite Ei3, Ei2, Ei1; reflexivity|reflexivity|exact Hd].
  - destruct Hstep as (_ & _ & f & d1 & d2 & Hf & E1 & E2 & ->).
    destruct (insert_inode_ok _ _ _ E1) as (_ & Ei1 & _).
    destruct (insert_entry_ok _ _ _ _ _ _ E2) as (_ & _ & _ & Ei2 & _).
    apply (dirs_ok_add d _ (mkInode (fs_NextIno f) token NodeTypeDir mode 0 1));
      [simpl; rewrite Ei2, Ei1; reflexivity|reflexivity|exact Hd].
  - apply (touches_dirs d token (lookup_ino d token parentIno name) d');
      [apply (unlink_step_touches _ _ _ _ _ Hstep)|exact Hk'| |exact Hd].
    left. apply file_not_dir. apply Hstep.
  - apply (touches_dirs d token (lookup_ino d token parentIno name) d');
      [apply (rmdir_step_touches _ _ _ _ _ Hstep)|exact Hk'| |exact Hd].
    right. destruct Hstep as (_ & _ & _ & _ & ->). unfold rmdir_effect.
    apply select_inode_delete_same.
  - apply (touches_dirs d token ino d');
      [apply (write_step_touches _ _ _ _ _ _ _ Hstep)|exact Hk'| |exact Hd].
    left. apply file_not_dir. apply Hstep.
  - apply (touches_dirs d token targetIno d');
      [apply (link_step_touches _ _ _ _ _ _ Hstep)|exact Hk'| |exact Hd].
    left. apply file_not_dir. apply Hstep.
Qed.

Lemma call_step_store d c d' : call_step d c d' -> store_inv d -> store_inv d'.
Proof.
  intros Hstep (Hs & Ha & Hr & Hz & Hd).
  split; [apply (call_step_schema d c d' Hstep Hs)|].
  split; [apply (call_step_allocated d c d' Hstep Ha)|].
  split; [apply (call_step_roots d c d' Hstep Hr)|].
  split; [apply (call_step_sizes d c d' Hstep Hz)|].
  apply (call_step_dirs d c d' Hstep); [apply Hs|exact Hd].
Qed.

Lemma store_inv_empty : store_inv empty_db.
Proof.
  split; [apply schema_ok_empty|]. split; [|split; [|split]].
  - split; intros x [].
  - intros t f H. discriminate.
  - intros i [].
  - intros i [].
Qed.

Lemma run_calls_store_inv cs plan j :
  store_inv (db (run_calls cs (mkWorld empty_db plan j))).
Proof. apply (run_calls_keep store_inv call_step_store). apply store_inv_empty. Qed.

(** ** What holds after every sequence of calls

    The store starts empty (migrations/001_init.sql creates the tables);
    the calls are made under any fault plan, each whatever the previous one
    returned. *)

(** The keys and references of the schema hold after every sequence of
    calls: inode rows and directory entries are unique by key, the target and
    the parent of every entry and the inode of every content row exist, and
    every inode belongs to a namespace.  No call leaves a dangling row. *)
Theorem calls_keep_keys_and_references :
  forall (cs : list call) (plan : list bool) (j : list event),
    schema_ok (db (run_calls cs (mkWorld empty_db plan j))).
Proof. intros cs plan j. apply (run_calls_store_inv cs plan j). Qed.

(** After every sequence of calls, every inode's number is at least the
    root's (1000) and below the next_ino counter of its namespace, which
    exists: the counter of a namespace is ahead of every number in use. *)
Theorem inode_numbers_are_below_next_ino :
  forall (cs : list call) (plan : list bool) (j : list event) (i : Inode),
    In i (inodes (db (run_calls cs (mkWorld empty_db plan j)))) ->
    exists f,
      sql_select_filesystem (db (run_calls cs (mkWorld empty_db plan j)))
        (inode_Token i) = Some f
      /\ VTFS_ROOT_INO <= inode_Ino i < fs_NextIno f.
Proof.
  intros cs plan j i Hin.
  destruct (run_calls_store_inv cs plan j) as (_ & (_ & Ha) & _).
  apply Ha, Hin.
Qed.

Lemma inode_numbers_are_below_next_ino_witness :
  In (mkInode 1002 "tok" NodeTypeFile 2468 0 1) (inodes (db sample_world))
  /\ exists f,
       sql_select_filesystem (db sample_world) "tok" = Some f
       /\ VTFS_ROOT_INO <= 1002 < fs_NextIno f.
Proof.
  split.
  - vm_compute. auto.
  - apply (inode_numbers_are_below_next_ino
             [CallInit "tok"; CallCreateDir "tok" 1000 "dir" 493;
              CallCreateFile "tok" 1001 "f.txt" 2468] [] []
             (mkInode 1002 "tok" NodeTypeFile 2468 0 1)).
    vm_compute. auto.
Defined.

(** After every sequence of calls, the root inode of every namespace is the
    row that GetOrCreate inserted: inode 1000, a directory with mode 0777,
    size 0 and ref_count 1.  No call removes, links, writes or otherwise
    changes a root. *)
Theorem root_inode_is_never_changed :
  forall (cs : list call) (plan : list bool) (j : list event)
         (token : string) (f : Filesystem),
    sql_select_filesystem (db (run_calls cs (mkWorld empty_db plan j))) token
    = Some f ->
    sql_select_inode (db (run_calls cs (mkWorld empty_db plan j))) token
      VTFS_ROOT_INO
    = Some (mkInode VTFS_ROOT_INO token NodeTypeDir VTFS_ROOT_MODE 0 1).
Proof.
  intros cs plan j token f Hf.
  destruct (run_calls_store_inv cs plan j) as (_ & _ & Hr & _).
  apply (Hr token f Hf).
Qed.

Lemma root_inode_is_never_changed_witness :
  sql_select_inode
    (db (run_calls [CallInit "tok"; CallCreateFile "tok" 1000 "a" 420;
                    CallLink "tok" 1000 1000 "self"; CallRmdir "tok" 1000 "a";
                    CallWrite "tok" 1000 [x68] 1 0] world0))
    "tok" VTFS_ROOT_INO
  = Some (mkInode VTFS_ROOT_INO "tok" NodeTypeDir VTFS_ROOT_MODE 0 1).
Proof.
  apply (root_inode_is_never_changed
           [CallInit "tok"; CallCreateFile "tok" 1000 "a" 420;
            CallLink "tok" 1000 1000 "self"; CallRmdir "tok" 1000 "a";
            CallWrite "tok" 1000 [x68] 1 0] [] [] "tok"
           (mkFilesystem "tok" 1000 1002)).
  vm_compute. reflexivity.
Defined.

(** After every sequence of calls, every directory inode has ref_count 1:
    Link refuses a directory as its target and Unlink refuses to remove one,
    so a directory never gains or loses a name through them. *)
Theorem directories_have_ref_count_one :
  forall (cs : list call) (plan : list bool) (j : list event) (i : Inode),
    In i (inodes (db (run_calls cs (mkWorld empty_db plan j)))) ->
    inode_Type i = NodeTypeDir ->
    inode_RefCount i = 1.
Proof.
  intros cs plan j i Hin Hty.
  destruct (run_calls_store_inv cs plan j) as (_ & _ & _ & _ & Hd).
  apply (Hd i Hin Hty).
Qed.

Lemma directories_have_ref_count_one_witness :
  inode_RefCount (mkInode 1001 "tok" NodeTypeDir 493 0 1) = 1.
Proof.
  apply (directories_have_ref_count_one
           [CallInit "tok"; CallCreateDir "tok" 1000 "dir" 493;
            CallLink "tok" 1001 1000 "alias"] [] []
           (mkInode 1001 "tok" NodeTypeDir 493 0 1)).
  - vm_compute. auto.
  - reflexivity.
Defined.

(** After every sequence of calls, the size recorded in the inode of every
    regular file is the length of its stored content (0 when it has no
    content row): CreateFile and Write keep the two in step. *)
Theorem file_size_is_content_length :
  forall (cs : list call) (plan : list bool) (j : list event) (i : Inode),
    In i (inodes (db (run_calls cs (mkWorld empty_db plan j)))) ->
    inode_Type i = NodeTypeFile ->
    inode_Size i
    = len (content_of (db (run_calls cs (mkWorld empty_db plan j)))
             (inode_Token i) (inode_Ino i)).
Proof.
  intros cs plan j i Hin Hty.
  destruct (run_calls_store_inv cs plan j) as (_ & _ & _ & Hz & _).
  apply (Hz i Hin Hty).
Qed.

Lemma file_size_is_content_length_witness :
  15 = len (content_of (db written_world) "tok" 1002).
Proof.
  apply (file_size_is_content_length
           [CallInit "tok"; CallCreateDir "tok" 1000 "dir" 493;
            CallCreateFile "tok" 1001 "f.txt" 2468;
            CallWrite "tok" 1002 [x68; x65; x6c; x6c; x6f] 5 10] [] []
           (mkInode 1002 "tok" NodeTypeFile 2468 15 1)).
  - vm_compute. auto.
  - reflexivity.
Defined.

(** ** The operations on a store whose calls do not fail *)

Lemma served_store_inv d : served d -> store_inv d.
Proof. intros (cs & plan & j & ->). apply run_calls_store_inv. Qed.



Lemma served_calls cs : served (db (run_calls cs world0)).
Proof. exists cs, [], []. reflexivity. Qed.

Lemma served_sample : served (db sample_world).
Proof. apply served_calls. Qed.


Lemma select_fs_with_namespace d token :
  sql_select_filesystem d token = None ->
  sql_select_filesystem (with_namespace d token) token
  = Some (mkFilesystem token VTFS_ROOT_INO (VTFS_ROOT_INO + 1)).
Proof.
  intros H. unfold sql_select_filesystem, with_namespace. cbn [filesystems].
  rewrite find_app_r by exact H. cbn [find]. unfold fs_at. cbn [fs_Token].
  rewrite String.eqb_refl. reflexivity.
Qed.







(** On a served store the target of an entry exists and its number is not 0. *)
Lemma entry_target d token parent name e :
  store_inv d -> sql_select_entry d token parent name = Some e ->
  de_ino e <> 0
  /\ exists i, sql_select_inode d token (de_ino e) = Some i.
Proof.
  intros ((_ & _ & Ht & _) & (_ & Ha) & _) He.
  unfold sql_select_entry in He. apply find_some in He. destruct He as [Hin Hat].
  apply de_at_iff in Hat. destruct Hat as (Et & _ & _).
  specialize (Ht e Hin). rewrite Et in Ht.
  rewrite existsb_find in Ht. fold (sql_select_inode d token (de_ino e)) in Ht.
  destruct (sql_select_inode d token (de_ino e)) as [i|] eqn:Ei; [|discriminate].
  destruct (select_inode_In _ _ _ _ Ei) as (Hi & _ & En).
  destruct (Ha i Hi) as (f & _ & Hr). unfold VTFS_ROOT_INO in Hr.
  split; [lia|eauto].
Qed.

Lemma Lookup_run token parent name d :
  post true (Lookup token parent name) d
    (fun r d' =>
       d' = d
       /\ r = if negb (is_dir d token parent)
              then Err (ServiceError kerrors.ENOTDIR "parent is not a directory")
              else if lookup_ino d token parent name =? 0
              then Err (ServiceError kerrors.ENOENT "file not found")
              else match sql_select_inode d token (lookup_ino d token parent name) with
                   | None => Err (ServiceError kerrors.ENOENT "inode not found")
                   | Some i =>
                       Ok (mkNodeMeta (inode_Ino i) parent (inode_Type i)
                             (mode_with_type (inode_Type i) (inode_Mode i))
                             (inode_Size i))
                   end).
Proof.
  unfold Lookup. unfold_repos.
  post_auto.
  fold (is_dir d token parent).
  destruct (negb (is_dir d token parent)); post_auto.
  fold (lookup_ino d token parent name).
  destruct (lookup_ino d token parent name =? 0); post_auto.
  destruct (sql_select_inode d token _) as [i|] eqn:E; post_auto.
Qed.

(** Lookup on a store that the service produced, when no client call fails:
    the store is not changed; a parent that is not a directory (or does not
    exist) gives ENOTDIR; a name that the directory does not hold gives
    ENOENT; a name that it holds always resolves, to the entry's inode number
    with the parent passed in, the inode's type and size, and its mode with
    the type bits. *)
Theorem lookup_resolves_entries :
  forall (w : World) (token : string) (parent : Z) (name : string),
    served (db w) -> fault_free (faults w) ->
    db (snd (Lookup token parent name w)) = db w
    /\ (is_dir (db w) token parent = false ->
        fst (Lookup token parent name w)
        = Err (ServiceError kerrors.ENOTDIR "parent is not a directory"))
    /\ (is_dir (db w) token parent = true ->
        sql_select_entry (db w) token parent name = None ->
        fst (Lookup token parent name w)
        = Err (ServiceError kerrors.ENOENT "file not found"))
    /\ (forall e,
          is_dir (db w) token parent = true ->
          sql_select_entry (db w) token parent name = Some e ->
          exists i,
            sql_select_inode (db w) token (de_ino e) = Some i
            /\ fst (Lookup token parent name w)
               = Ok (mkNodeMeta (de_ino e) parent (inode_Type i)
                       (mode_with_type (inode_Type i) (inode_Mode i))
                       (inode_Size i))).
Proof.
  intros w token parent name Hs Hf.
  pose proof (served_store_inv _ Hs) as Hinv.
  destruct (post_run_ff _ w _ Hf (Lookup_run token parent name (db w))) as [Hd Hr].
  split; [exact Hd|]. split; [|split].
  - intros E. rewrite E in Hr. exact Hr.
  - intros E He. rewrite E, (lookup_ino_none _ _ _ _ He) in Hr. exact Hr.
  - intros e E He.
    destruct (entry_target _ _ _ _ _ Hinv He) as (Hne & i & Hi).
    exists i. split; [exact Hi|].
    rewrite E, (lookup_ino_some _ _ _ _ _ He), Hi in Hr.
    apply Z.eqb_neq in Hne. rewrite Hne in Hr. cbn [negb] in Hr.
    destruct (select_inode_In _ _ _ _ Hi) as (_ & _ & En). rewrite En in Hr.
    exact Hr.
Qed.

Lemma lookup_resolves_entries_witness :
  fst (Lookup "tok" 1001 "f.txt" sample_world)
  = Ok (mkNodeMeta 1002 1001 NodeTypeFile 33188 0)
  /\ fst (Lookup "tok" 1002 "x" sample_world)
     = Err (ServiceError kerrors.ENOTDIR "parent is not a directory").
Proof.
  split.
  - destruct (lookup_resolves_entries sample_world "tok" 1001 "f.txt"
                served_sample fault_free_nil) as (_ & _ & _ & H).
    destruct (H (mkEntry "tok" 1001 "f.txt" 1002) eq_refl eq_refl)
      as (i & Hi & Hr).
    injection Hi as <-. exact Hr.
  - apply (lookup_resolves_entries sample_world "tok" 1002 "x"
             served_sample fault_free_nil).
    reflexivity.
Defined.

(** ** CreateFile and CreateDir *)








Lemma post_faults_after {A} (m : M A) (w : World) (Q : outcome A -> DB -> Prop) :
  fault_free (faults w) -> post true m (db w) Q -> fault_free (faults (snd (m w))).
Proof. intros Hf H. apply (H w eq_refl); auto. Qed.

Lemma select_entry_exists d token parent name :
  existsb (de_at token parent name) (directory_entries d)
  = match sql_select_entry d token parent name with
    | Some _ => true
    | None => false
    end.
Proof. apply existsb_find. Qed.






(** ** Reference counts stay positive *)

Lemma refs_positive_add d d' n :
  inodes d' = inodes d ++ [n] -> 1 <= inode_RefCount n ->
  refs_positive d -> refs_positive d'.
Proof.
  intros Hi Hn Hd i Hin. rewrite Hi in Hin. apply in_app_iff in Hin.
  destruct Hin as [Hin|[<-|[]]]; [apply Hd; assumption|exact Hn].
Qed.

Lemma refs_positive_map d d' f :
  inodes d' = map f (inodes d) ->
  (forall i, inode_RefCount i <= inode_RefCount (f i)) ->
  refs_positive d -> refs_positive d'.
Proof.
  intros Hi Hf Hd i' Hin. rewrite Hi in Hin. apply in_map_iff in Hin.
  destruct Hin as (i & <- & Hin). specialize (Hd i Hin). specialize (Hf i). lia.
Qed.

Lemma refs_positive_delete d token ino :
  refs_positive d -> refs_positive (sql_delete_inode d token ino).
Proof.
  intros Hd i Hin. apply Hd. unfold sql_delete_inode in Hin.
  destruct (existsb _ _); [|exact Hin]. simpl in Hin.
  apply filter_In in Hin. tauto.
Qed.

Lemma unlink_effect_refs d token parent name :
  inode_keys_ok d -> refs_positive d ->
  refs_positive (unlink_effect d token parent name).
Proof.
  intros Hk Hd. unfold unlink_effect.
  set (ino := lookup_ino d token parent name).
  set (d2 := sql_update_ref_count _ _ _ _).
  assert (Hi2 : inodes d2
                = map (fun i => if inode_at token ino i then add_ref_count (-1) i
                                else i) (inodes d)) by reflexivity.
  assert (HA : forall x, In x (inodes d2) -> inode_at token ino x = false ->
                         1 <= inode_RefCount x).
  { intros x Hx Hat. rewrite Hi2 in Hx. apply in_map_iff in Hx.
    destruct Hx as (y & <- & Hy). destruct (inode_at token ino y) eqn:Ey.
    - unfold inode_at, add_ref_count in Hat. cbn [inode_Token inode_Ino] in Hat.
      unfold inode_at in Ey. congruence.
    - apply Hd, Hy. }
  assert (HB : forall x, In x (inodes d2) -> 0 <= inode_RefCount x).
  { intros x Hx. rewrite Hi2 in Hx. apply in_map_iff in Hx.
    destruct Hx as (y & <- & Hy). specialize (Hd y Hy).
    destruct (inode_at token ino y); cbn [add_ref_count inode_RefCount]; lia. }
  assert (HC : inode_keys_ok d2).
  { unfold inode_keys_ok. rewrite Hi2, inode_keys_map; [exact Hk|].
    apply keeps_identity_cond, keeps_identity_add_ref_count. }
  destruct (sql_select_inode d2 token ino) as [i'|] eqn:Esel.
  - destruct (inode_RefCount i' =? 0) eqn:Ez.
    + intros x Hx. unfold sql_delete_inode in Hx.
      cbn [inodes sql_delete_content] in Hx.
      rewrite (select_inode_exists _ _ _ _ Esel) in Hx. cbn [inodes] in Hx.
      apply filter_In in Hx. destruct Hx as [Hx Hat].
      apply negb_true_iff in Hat. apply (HA x Hx Hat).
    + intros x Hx. destruct (inode_at token ino x) eqn:Hat; [|apply (HA x Hx Hat)].
      pose proof (select_inode_unique d2 x HC Hx) as Hu.
      apply inode_at_iff in Hat. destruct Hat as [Et En].
      rewrite Et, En, Esel in Hu. injection Hu as ->.
      apply Z.eqb_neq in Ez. specialize (HB x Hx). lia.
  - intros x Hx. destruct (inode_at token ino x) eqn:Hat; [|apply (HA x Hx Hat)].
    unfold sql_select_inode in Esel.
    pose proof (find_none _ _ Esel x Hx). congruence.
Qed.

Lemma call_step_refs_positive d c d' :
  call_step d c d' -> inode_keys_ok d -> refs_positive d -> refs_positive d'.
Proof.
  intros Hstep Hk Hd. destruct c; simpl in Hstep.
  1-2: (destruct Hstep as [_ E];
        destruct (insert_inode_ok _ _ _ E) as (_ & Ei & _);
        rewrite insert_filesystem_inodes in Ei;
        apply (refs_positive_add d d' _ Ei); [simpl; lia|exact Hd]).
  - destruct Hstep as (_ & _ & f & d1 & d2 & Hf & E1 & E2 & E3).
    destruct (insert_inode_ok _ _ _ E1) as (_ & Ei1 & _).
    destruct (insert_entry_ok _ _ _ _ _ _ E2) as (_ & _ & _ & Ei2 & _).
    destruct (upsert_content_lists _ _ _ _ _ E3) as (_ & _ & Ei3 & _).
    simpl in Ei3.
    apply (refs_positive_add d d' (mkInode (fs_NextIno f) token NodeTypeFile mode 0 1));
      [rewrite Ei3, Ei2, Ei1; reflexivity|simpl; lia|exact Hd].
  - destruct Hstep as (_ & _ & f & d1 & d2 & Hf & E1 & E2 & ->).
    destruct (insert_inode_ok _ _ _ E1) as (_ & Ei1 & _).
    destruct (insert_entry_ok _ _ _ _ _ _ E2) as (_ & _ & _ & Ei2 & _).
    apply (refs_positive_add d _ (mkInode (fs_NextIno f) token NodeTypeDir mode 0 1));
      [simpl; rewrite Ei2, Ei1; reflexivity|simpl; lia|exact Hd].
  - destruct Hstep as (_ & _ & ->). apply unlink_effect_refs; assumption.
  - destruct Hstep as (_ & _ & _ & _ & ->). unfold rmdir_effect.
    apply refs_positive_delete. intros i Hi. apply Hd, Hi.
  - destruct Hstep as (_ & d1 & H). cbv zeta in H. destruct H as (E1 & ->).
    destruct (upsert_content_lists _ _ _ _ _ E1) as (_ & _ & Ei & _).
    eapply (refs_positive_map d); [simpl; rewrite Ei; reflexivity| |exact Hd].
    intros i. cbv beta. destruct (inode_at token ino i); simpl; lia.
  - destruct Hstep as (_ & _ & d1 & E1 & ->).
    destruct (insert_entry_ok _ _ _ _ _ _ E1) as (_ & _ & _ & Ei & _).
    eapply (refs_positive_map d); [simpl; rewrite Ei; reflexivity| |exact Hd].
    intros i. cbv beta. destruct (inode_at token targetIno i); simpl; lia.
Qed.

Lemma served_refs_positive d : served d -> refs_positive d.
Proof.
  intros (cs & plan & j & ->).
  assert (H : inode_keys_ok (db (run_calls cs (mkWorld empty_db plan j)))
              /\ refs_positive (db (run_calls cs (mkWorld empty_db plan j)))).
  { apply (run_calls_keep (fun d => inode_keys_ok d /\ refs_positive d)).
    - intros d c d' Hstep [Hk Hp]. split.
      + apply (call_step_inode_keys d c d' Hstep Hk).
      + apply (call_step_refs_positive d c d' Hstep Hk Hp).
    - split; [constructor|intros i []]. }
  apply H.
Qed.

(** After every sequence of calls, every inode row has a ref_count of at
    least 1: Unlink deletes the inode, with its content, in the transaction
    in which its count reaches 0, so no inode with count 0 is ever stored. *)
Theorem ref_counts_are_positive :
  forall (cs : list call) (plan : list bool) (j : list event) (i : Inode),
    In i (inodes (db (run_calls cs (mkWorld empty_db plan j)))) ->
    1 <= inode_RefCount i.
Proof.
  intros cs plan j i Hin.
  apply (served_refs_positive (db (run_calls cs (mkWorld empty_db plan j)))).
  - exists cs, plan, j. reflexivity.
  - exact Hin.
Qed.

Lemma ref_counts_are_positive_witness :
  1 <= inode_RefCount (mkInode 1002 "tok" NodeTypeFile 420 0 1).
Proof.
  apply (ref_counts_are_positive
           [CallInit "tok"; CallCreateDir "tok" 1000 "dir" 493;
            CallCreateFile "tok" 1001 "f.txt" 420; CallLink "tok" 1002 1000 "g";
            CallUnlink "tok" 1001 "f.txt"] [] []
           (mkInode 1002 "tok" NodeTypeFile 420 0 1)).
  vm_compute. auto.
Defined.

(** ** Link *)





(** ** Round trips *)


















(** The outcome and the store of a Write that fits the int64 range. *)
Lemma Write_result (w : World) token ino data n off i :
  fault_free (faults w) ->
  sql_select_inode (db w) token ino = Some i ->
  inode_Type i = NodeTypeFile ->
  0 <= off -> 0 <= n <= len data -> off + n <= maxAlloc ->
  fst (Write token ino data n off w) = Ok n
  /\ content_of (db (snd (Write token ino data n off w))) token ino
     = write_spec (content_of (db w) token ino) data n off
  /\ sql_select_inode (db (snd (Write token ino data n off w))) token ino
     = Some (set_size (Z.max (len (content_of (db w) token ino)) (off + n)) i)
  /\ fault_free (faults (snd (Write token ino data n off w))).
Proof.
  intros Hf Hi Hty Hoff Hn Halloc.
  assert (Hmax : off + n <= MaxInt64)
    by (unfold maxAlloc in Halloc; unfold MaxInt64; lia).
  assert (Hle : (off + n <=? maxAlloc) = true) by (apply Z.leb_le; exact Halloc).
  pose proof (post_faults_after _ w _ Hf (Write_run token ino data n off (db w)))
    as Hf'.
  pose proof (post_run_ff _ w _ Hf (Write_run token ino data n off (db w)) i) as H.
  cbv zeta in H.
  assert (Hgt : (n >? len data) = false).
  { rewrite Z.gtb_ltb. apply Z.ltb_ge. lia. }
  assert (Hlt : (off <? 0) = false) by (apply Z.ltb_ge; lia).
  specialize (H Hgt Hlt Hi Hty).
  unfold MaxInt64 in Hmax.
  rewrite (wrap64_id n), (wrap64_id (off + n)) in H by lia.
  rewrite Hle, andb_false_r in H.
  set (c := content_of (db w) token ino) in *.
  set (ext := if off + n >? len c then go_copy (zeros (off + n)) c else c) in *.
  assert (Hext : off <= len ext).
  { unfold ext. destruct (off + n >? len c) eqn:E.
    - apply Z.gtb_lt in E. rewrite extend_is_zero_extend by lia.
      unfold zero_extend. rewrite len_app, len_repeat.
      pose proof (len_nonneg c). lia.
    - rewrite Z.gtb_ltb in E. apply Z.ltb_ge in E. lia. }
  unfold go_slice in H.
  replace ((0 <=? off) && (off <=? len ext) && (len ext <=? len ext)) with true in H.
  2:{ symmetry. rewrite !andb_true_iff, !Z.leb_le. lia. }
  destruct H as (d1 & E1 & Hr & Hd).
  pose proof (written_is_write_spec c data n off Hoff Hn) as Hw.
  unfold MaxInt64 in Hw.
  rewrite (wrap64_id n), (wrap64_id (off + n)) in Hw by lia.
  rewrite Hw in E1, Hd by lia.
  destruct (upsert_content_ok (db w) token ino (write_spec c data n off)
              (select_inode_exists _ _ _ _ Hi)) as (d1' & E1' & _ & Hin & _ & Hc).
  rewrite E1 in E1'. injection E1' as <-.
  split; [exact Hr|]. split; [rewrite Hd; exact Hc|]. split; [|exact Hf'].
  rewrite Hd, select_inode_update_size.
  unfold sql_select_inode. rewrite Hin. fold (sql_select_inode (db w) token ino).
  rewrite Hi. simpl. rewrite len_write_spec by lia. reflexivity.
Qed.

(** The bytes of a spliced piece are found where it was put. *)
Lemma write_spec_range (c data : list byte) (n off : Z) :
  0 <= off -> 0 <= n <= len data ->
  firstn (Z.to_nat n) (skipn (Z.to_nat off) (write_spec c data n off))
  = firstn (Z.to_nat n) data.
Proof.
  intros Hoff Hn. unfold write_spec, splice.
  set (ext := zero_extend c (Z.max (len c) (off + n))).
  assert (Hlen : len ext = Z.max (len c) (off + n)).
  { unfold ext, zero_extend. rewrite len_app, len_repeat.
    pose proof (len_nonneg c). lia. }
  assert (H1 : length (firstn (Z.to_nat off) ext) = Z.to_nat off).
  { rewrite length_firstn. unfold len in Hlen. lia. }
  assert (H2 : length (firstn (Z.to_nat n) data) = Z.to_nat n).
  { rewrite length_firstn. unfold len in Hn. lia. }
  rewrite skipn_app, H1, Nat.sub_diag. cbn [skipn].
  rewrite (skipn_all2 (firstn (Z.to_nat off) ext)) by lia. cbn [app].
  rewrite firstn_app, H2, Nat.sub_diag. cbn [firstn].
  rewrite app_nil_r. apply firstn_all2. lia.
Qed.

(** Read returns what Write wrote: when no client call fails, after a Write
    of n bytes at offset off into a regular file (off + n within the
    runtime's allocation limit, the file's length within int64), a Read at
    off into a buffer of n bytes returns n
    and fills the buffer with the first n bytes of the data written. *)
Theorem read_returns_what_write_wrote :
  forall (w : World) (token : string) (ino : Z) (data buffer : list byte)
         (n off : Z) (i : Inode),
    fault_free (faults w) ->
    sql_select_inode (db w) token ino = Some i ->
    inode_Type i = NodeTypeFile ->
    0 <= off -> 0 <= n <= len data -> off + n <= maxAlloc ->
    len (content_of (db w) token ino) <= MaxInt64 ->
    len buffer = n ->
    fst (Read token ino buffer off (snd (Write token ino data n off w)))
    = Ok (n, firstn (Z.to_nat n) data).
Proof.
  intros w token ino data buffer n off i Hf Hi Hty Hoff Hn Hmax Hc Hb.
  destruct (Write_result w token ino data n off i Hf Hi Hty Hoff Hn Hmax)
    as (_ & Hcontent & Hsel & Hf').
  set (w' := snd (Write token ino data n off w)) in *.
  destruct (post_run_ff _ w' _ Hf' (Read_run token ino buffer off (db w')))
    as [_ Hr].
  specialize (Hr _ Hsel Hty). cbv zeta in Hr.
  cbn [set_size inode_Size] in Hr.
  pose proof (len_nonneg (content_of (db w) token ino)) as Hc0.
  rewrite Hr.
  - rewrite Hb.
    replace (Z.max 0 (Z.min n
               (Z.max (len (content_of (db w) token ino)) (off + n) - off)))
      with n by lia.
    rewrite Hcontent, write_spec_range by lia.
    rewrite skipn_all2 by (unfold len in Hb; lia).
    rewrite app_nil_r. reflexivity.
  - unfold MaxInt64, maxAlloc in *. lia.
  - rewrite Hcontent. symmetry. apply len_write_spec; lia.
  - unfold MaxInt64, maxAlloc in *. lia.
Qed.

Lemma read_returns_what_write_wrote_witness :
  fst (Read "tok" 1002 [x00; x00; x00] 4
         (snd (Write "tok" 1002 [x68; x65; x6c; x6c] 3 4 sample_world)))
  = Ok (3, [x68; x65; x6c]).
Proof.
  apply (read_returns_what_write_wrote sample_world "tok" 1002
           [x68; x65; x6c; x6c] [x00; x00; x00] 3 4
           (mkInode 1002 "tok" NodeTypeFile 2468 0 1)).
  - exact fault_free_nil.
  - reflexivity.
  - reflexivity.
  - lia.
  - unfold len. simpl. lia.
  - unfold maxAlloc. lia.
  - unfold MaxInt64. vm_compute. discriminate.
  - reflexivity.
Defined.

(** ** Queries *)

Lemma Read_readonly token ino buffer offset d :
  post false (Read token ino buffer offset) d (fun _ d' => d' = d).
Proof.
  unfold Read. unfold_repos.
  post_auto.
  destruct (sql_select_inode d token ino) as [i|]; post_auto.
  destruct (negb _); post_auto.
  destruct (offset <? 0); post_auto.
  destruct (_ <=? 0); post_auto.
  destruct (_ >=? _); post_auto.
  destruct (go_slice _ _ _); post_auto.
Qed.

Lemma IterateDir_readonly name_leb token dirIno offset d :
  post false (IterateDir name_leb token dirIno offset) d (fun _ d' => d' = d).
Proof.
  unfold IterateDir. unfold_repos.
  post_auto.
  destruct (negb _); post_auto.
  destruct (nth_error _ _); post_auto.
Qed.

Lemma CountLinks_readonly token ino d :
  post false (CountLinks token ino) d (fun _ d' => d' = d).
Proof.
  unfold CountLinks. unfold_repos.
  post_auto.
  destruct (sql_select_inode d token ino) as [i|]; post_auto.
Qed.

(** Lookup, IterateDir, Read and CountLinks never change the store, whatever
    they return and whichever client calls fail: they issue no statement that
    writes and open no transaction. *)
Theorem queries_do_not_change_the_store :
  forall (name_leb : string -> string -> bool) (token : string) (ino : Z)
         (name : string) (offset : Z) (buffer : list byte),
    readonly (Lookup token ino name)
    /\ readonly (IterateDir name_leb token ino offset)
    /\ readonly (Read token ino buffer offset)
    /\ readonly (CountLinks token ino).
Proof.
  intros name_leb token ino name offset buffer. unfold readonly.
  split; [|split; [|split]]; intros w.
  - apply (post_run _ w _ (Lookup_meta token ino name (db w))).
  - apply (post_run _ w _ (IterateDir_readonly name_leb token ino offset (db w))).
  - apply (post_run _ w _ (Read_readonly token ino buffer offset (db w))).
  - apply (post_run _ w _ (CountLinks_readonly token ino (db w))).
Qed.

(** ** The error codes of the operations *)

Ltac codes_step :=
  first
    [ post_step
    | match goal with
      | |- post _ (match ?x with _ => _ end) _ _ => destruct x eqn:?
      | |- post _ (if ?x then _ else _) _ _ => destruct x eqn:?
      | |- match ?x with _ => _ end => destruct x eqn:?
      | |- error_codes _ _ => unfold error_codes, mapErrorToCode; simpl; tauto
      end ].

Ltac codes_auto := unfold_repos; repeat codes_step.

Lemma Init_codes token d :
  post false (Init token) d
    (fun r _ => error_codes r [kerrors.EEXIST; kerrors.ENOMEM_NEG]).
Proof. unfold Init. codes_auto. Qed.

Lemma GetRoot_codes token d :
  post false (GetRoot token) d
    (fun r _ => error_codes r [kerrors.ENOENT; kerrors.ENOMEM_NEG]).
Proof. unfold GetRoot. codes_auto. Qed.

Lemma Lookup_codes token parent name d :
  post false (Lookup token parent name) d
    (fun r _ => error_codes r [kerrors.ENOTDIR; kerrors.ENOENT; kerrors.ENOMEM_NEG]).
Proof. unfold Lookup. codes_auto. Qed.

Lemma IterateDir_codes name_leb token dirIno offset d :
  post false (IterateDir name_leb token dirIno offset) d
    (fun r _ => error_codes r [kerrors.ENOTDIR; kerrors.ENOENT; kerrors.ENOMEM_NEG]).
Proof. unfold IterateDir. codes_auto. Qed.

Lemma CreateFile_codes token parent name mode d :
  post false (CreateFile token parent name mode) d
    (fun r _ => error_codes r [kerrors.ENOTDIR; kerrors.EEXIST; kerrors.ENOMEM_NEG]).
Proof. unfold CreateFile. codes_auto. Qed.

Lemma CreateDir_codes token parent name mode d :
  post false (CreateDir token parent name mode) d
    (fun r _ => error_codes r [kerrors.ENOTDIR; kerrors.EEXIST; kerrors.ENOMEM_NEG]).
Proof. unfold CreateDir. codes_auto. Qed.

Lemma Unlink_codes token parent name d :
  post false (Unlink token parent name) d
    (fun r _ => error_codes r [kerrors.ENOENT; kerrors.EPERM; kerrors.ENOMEM_NEG]).
Proof. unfold Unlink. codes_auto. Qed.

Lemma Rmdir_codes token parent name d :
  post false (Rmdir token parent name) d
    (fun r _ => error_codes r [kerrors.ENOENT; kerrors.ENOTDIR; kerrors.EPERM;
                               kerrors.ENOTEMPTY; kerrors.ENOMEM_NEG]).
Proof. unfold Rmdir. codes_auto. Qed.

Lemma Read_codes token ino buffer offset d :
  post false (Read token ino buffer offset) d
    (fun r _ => error_codes r [kerrors.ENOENT; kerrors.EISDIR; kerrors.EINVAL;
                               kerrors.ENOMEM_NEG]).
Proof. unfold Read. codes_auto. Qed.

Lemma Write_codes token ino data length offset d :
  post false (Write token ino data length offset) d
    (fun r _ => error_codes r [kerrors.EINVAL; kerrors.ENOENT; kerrors.EISDIR;
                               kerrors.ENOMEM_NEG]).
Proof. unfold Write. codes_auto. Qed.

Lemma Link_codes token target parent name d :
  post false (Link token target parent name) d
    (fun r _ => error_codes r [kerrors.ENOENT; kerrors.EISDIR; kerrors.EEXIST;
                               kerrors.ENOMEM_NEG]).
Proof. unfold Link. codes_auto. Qed.

Lemma CountLinks_codes token ino d :
  post false (CountLinks token ino) d
    (fun r _ => error_codes r [kerrors.ENOENT; kerrors.ENOMEM_NEG]).
Proof. unfold CountLinks. codes_auto. Qed.

(** The codes that a client can receive for a failed operation, under every
    fault plan and on every store: mapErrorToCode sends, for each operation,
    one of the errno values of the service errors that the operation raises
    (as positive numbers) or -ENOMEM (-12) for any other error, such as a
    failed statement or a failed Begin.  No operation sends another code. *)
Theorem operations_send_only_their_error_codes :
  forall (w : World) (name_leb : string -> string -> bool) (token : string)
         (ino parent : Z) (name : string) (mode offset length : Z)
         (data : list byte),
    error_codes (fst (Init token w)) [kerrors.EEXIST; kerrors.ENOMEM_NEG]
    /\ error_codes (fst (GetRoot token w)) [kerrors.ENOENT; kerrors.ENOMEM_NEG]
    /\ error_codes (fst (Lookup token parent name w))
         [kerrors.ENOTDIR; kerrors.ENOENT; kerrors.ENOMEM_NEG]
    /\ error_codes (fst (IterateDir name_leb token ino offset w))
         [kerrors.ENOTDIR; kerrors.ENOENT; kerrors.ENOMEM_NEG]
    /\ error_codes (fst (CreateFile token parent name mode w))
         [kerrors.ENOTDIR; kerrors.EEXIST; kerrors.ENOMEM_NEG]
    /\ error_codes (fst (CreateDir token parent name mode w))
         [kerrors.ENOTDIR; kerrors.EEXIST; kerrors.ENOMEM_NEG]
    /\ error_codes (fst (Unlink token parent name w))
         [kerrors.ENOENT; kerrors.EPERM; kerrors.ENOMEM_NEG]
    /\ error_codes (fst (Rmdir token parent name w))
         [kerrors.ENOENT; kerrors.ENOTDIR; kerrors.EPERM; kerrors.ENOTEMPTY;
          kerrors.ENOMEM_NEG]
    /\ error_codes (fst (Read token ino data offset w))
         [kerrors.ENOENT; kerrors.EISDIR; kerrors.EINVAL; kerrors.ENOMEM_NEG]
    /\ error_codes (fst (Write token ino data length offset w))
         [kerrors.EINVAL; kerrors.ENOENT; kerrors.EISDIR; kerrors.ENOMEM_NEG]
    /\ error_codes (fst (Link token ino parent name w))
         [kerrors.ENOENT; kerrors.EISDIR; kerrors.EEXIST; kerrors.ENOMEM_NEG]
    /\ error_codes (fst (CountLinks token ino w))
         [kerrors.ENOENT; kerrors.ENOMEM_NEG].
Proof.
  intros w name_leb token ino parent name mode offset length data.
  repeat split.
  - apply (post_run _ w _ (Init_codes token (db w))).
  - apply (post_run _ w _ (GetRoot_codes token (db w))).
  - apply (post_run _ w _ (Lookup_codes token parent name (db w))).
  - apply (post_run _ w _ (IterateDir_codes name_leb token ino offset (db w))).
  - apply (post_run _ w _ (CreateFile_codes token parent name mode (db w))).
  - apply (post_run _ w _ (CreateDir_codes token parent name mode (db w))).
  - apply (post_run _ w _ (Unlink_codes token parent name (db w))).
  - apply (post_run _ w _ (Rmdir_codes token parent name (db w))).
  - apply (post_run _ w _ (Read_codes token ino data offset (db w))).
  - apply (post_run _ w _ (Write_codes token ino data length offset (db w))).
  - apply (post_run _ w _ (Link_codes token ino parent name (db w))).
  - apply (post_run _ w _ (CountLinks_codes token ino (db w))).
Qed.

(** ** Failures inside the creating transactions *)

Lemma CreateFile_tx_codes token parent name mode d :
  is_dir d token parent = true ->
  sql_select_entry d token parent name = None ->
  post false (CreateFile token parent name mode) d
    (fun r _ => error_codes r [kerrors.ENOMEM_NEG]).
Proof.
  intros Hdir He. unfold CreateFile. unfold_repos.
  post_auto; try (simpl; tauto).
  fold (is_dir d token parent). rewrite Hdir. cbn [negb].
  post_auto; try (simpl; tauto).
  rewrite select_entry_exists, He.
  repeat codes_step.
Qed.

Lemma CreateDir_tx_codes token parent name mode d :
  is_dir d token parent = true ->
  sql_select_entry d token parent name = None ->
  post false (CreateDir token parent name mode) d
    (fun r _ => error_codes r [kerrors.ENOMEM_NEG]).
Proof.
  intros Hdir He. unfold CreateDir. unfold_repos.
  post_auto; try (simpl; tauto).
  fold (is_dir d token parent). rewrite Hdir. cbn [negb].
  post_auto; try (simpl; tauto).
  rewrite select_entry_exists, He.
  repeat codes_step.
Qed.

Lemma Link_tx_codes token target parent name d :
  is_file d token target = true ->
  sql_select_entry d token parent name = None ->
  post false (Link token target parent name) d
    (fun r _ => error_codes r [kerrors.ENOMEM_NEG]).
Proof.
  intros Hfile He. unfold Link. unfold_repos.
  post_auto; try (simpl; tauto).
  unfold is_file in Hfile.
  destruct (sql_select_inode d token target) as [i|]; [|discriminate].
  rewrite Hfile. cbn [negb].
  post_auto; try (simpl; tauto).
  rewrite select_entry_exists, He.
  repeat codes_step.
Qed.

(** A failure inside the transaction of CreateFile, CreateDir or Link is
    never reported as EEXIST.  When the checks before the transaction pass
    (the parent is a directory, respectively the target a regular file, and
    the name is free), every error that the call returns, under every fault
    plan and on every store, is sent as -ENOMEM (-12): the repositories wrap
    the driver's error, so the test for a unique violation (23505) on the
    returned error does not match, also when the store reports one. *)
Theorem transaction_failures_are_sent_as_ENOMEM :
  forall (w : World) (token : string) (target parent : Z) (name : string)
         (mode : Z) (e : error),
    sql_select_entry (db w) token parent name = None ->
    (is_dir (db w) token parent = true ->
     fst (CreateFile token parent name mode w) = Err e ->
     mapErrorToCode e = kerrors.ENOMEM_NEG)
    /\ (is_dir (db w) token parent = true ->
        fst (CreateDir token parent name mode w) = Err e ->
        mapErrorToCode e = kerrors.ENOMEM_NEG)
    /\ (is_file (db w) token target = true ->
        fst (Link token target parent name w) = Err e ->
        mapErrorToCode e = kerrors.ENOMEM_NEG).
Proof.
  intros w token target parent name mode e He.
  split; [|split]; intros Hpre Hr.
  - pose proof (post_run _ w _
                  (CreateFile_tx_codes token parent name mode (db w) Hpre He)) as H.
    cbv beta in H. rewrite Hr in H. destruct H as [H|[]]. symmetry. exact H.
  - pose proof (post_run _ w _
                  (CreateDir_tx_codes token parent name mode (db w) Hpre He)) as H.
    cbv beta in H. rewrite Hr in H. destruct H as [H|[]]. symmetry. exact H.
  - pose proof (post_run _ w _
                  (Link_tx_codes token target parent name (db w) Hpre He)) as H.
    cbv beta in H. rewrite Hr in H. destruct H as [H|[]]. symmetry. exact H.
Qed.

Lemma transaction_failures_are_sent_as_ENOMEM_witness :
  fst (CreateFile "tok" 1000 "h" 420 collided_world)
  = Err (Wrapped "service.fileSystemService.CreateFile"
           (Wrapped "repository.inodeRepository.Create"
              (PgxError unique_violation)))
  /\ mapErrorToCode
       (Wrapped "service.fileSystemService.CreateFile"
          (Wrapped "repository.inodeRepository.Create"
             (PgxError unique_violation)))
     = -12.
Proof.
  split; [reflexivity|].
  destruct (transaction_failures_are_sent_as_ENOMEM collided_world "tok" 0 1000 "h"
              420
              (Wrapped "service.fileSystemService.CreateFile"
                 (Wrapped "repository.inodeRepository.Create"
                    (PgxError unique_violation)))
              eq_refl) as [H _].
  apply (H eq_refl eq_refl).
Defined.

(** ** contentRepository.GetRange *)

Lemma GetRange_run token ino offset length d :
  0 <= offset -> 0 <= length ->
  post true (contentRepo_GetRange token ino offset length) d
    (fun r d' =>
       r = Ok (firstn (Z.to_nat length)
                 (skipn (Z.to_nat offset) (content_of d token ino)))
       /\ d' = d).
Proof.
  intros Hoff Hlen. unfold contentRepo_GetRange. unfold_repos.
  post_auto.
  fold (content_of d token ino). set (c := content_of d token ino).
  pose proof (len_nonneg c) as Hc.
  destruct (offset >=? len c) eqn:Ege; post_auto.
  - split; [|reflexivity]. f_equal.
    rewrite skipn_all2; [destruct (Z.to_nat length); reflexivity|].
    apply Z.geb_le in Ege. unfold len in Ege. lia.
  - rewrite Z.geb_leb in Ege. apply Z.leb_gt in Ege.
    destruct (length >? len c - offset) eqn:Egt.
    + apply Z.gtb_lt in Egt.
      rewrite (go_slice_some c offset (len c - offset)) by lia.
      post_auto. split; [|reflexivity]. f_equal.
      rewrite !firstn_all2; [reflexivity| |];
        rewrite length_skipn; unfold len in *; lia.
    + rewrite Z.gtb_ltb in Egt. apply Z.ltb_ge in Egt.
      rewrite (go_slice_some c offset length) by lia.
      post_auto.
Qed.

(** GetRange clamps to the stored content: when no client call fails, for an
    offset and a length that are not negative it returns the bytes of the
    content from offset on, at most length of them, and nothing at or past
    the end; it neither fails nor panics on a short read and does not change
    the store. *)
Theorem get_range_clamps_to_the_content :
  forall (w : World) (token : string) (ino offset length : Z),
    fault_free (faults w) ->
    0 <= offset -> 0 <= length ->
    fst (contentRepo_GetRange token ino offset length w)
    = Ok (firstn (Z.to_nat length)
            (skipn (Z.to_nat offset) (content_of (db w) token ino)))
    /\ db (snd (contentRepo_GetRange token ino offset length w)) = db w.
Proof.
  intros w token ino offset length Hf Hoff Hlen.
  apply (post_run_ff _ w _ Hf (GetRange_run token ino offset length (db w) Hoff Hlen)).
Qed.

Lemma get_range_clamps_to_the_content_witness :
  fst (contentRepo_GetRange "tok" 1002 12 100 written_world) = Ok [x6c; x6c; x6f].
Proof.
  apply (get_range_clamps_to_the_content written_world "tok" 1002 12 100
           fault_free_nil); lia.
Defined.

(** ** CountLinks *)

Lemma CountLinks_run token ino d :
  post true (CountLinks token ino) d
    (fun r d' =>
       d' = d
       /\ r = match sql_select_inode d token ino with
              | None => Err (ServiceError kerrors.ENOENT "inode not found")
              | Some i => Ok (inode_RefCount i mod 2 ^ 32)
              end).
Proof.
  unfold CountLinks. unfold_repos.
  post_auto.
  destruct (sql_select_inode d token ino) as [i|]; post_auto.
Qed.

(** CountLinks when no client call fails: ENOENT for an inode that does not
    exist.  On a store that admissible calls produced (every Link addressed
    at a directory), for an inode other than a root it returns the number of
    directory entries that name the inode, as a uint32; for a directory, on
    every store that the service produced, it returns 1. *)
Theorem count_links_returns_the_number_of_names :
  forall (w : World) (token : string) (ino : Z),
    fault_free (faults w) ->
    (sql_select_inode (db w) token ino = None ->
     fst (CountLinks token ino w)
     = Err (ServiceError kerrors.ENOENT "inode not found"))
    /\ (forall i,
          reachable (db w) ->
          sql_select_inode (db w) token ino = Some i ->
          ino <> VTFS_ROOT_INO ->
          fst (CountLinks token ino w) = Ok (count_links (db w) i mod 2 ^ 32))
    /\ (forall i,
          served (db w) ->
          sql_select_inode (db w) token ino = Some i ->
          inode_Type i = NodeTypeDir ->
          fst (CountLinks token ino w) = Ok 1).
Proof.
  intros w token ino Hf.
  destruct (post_run_ff _ w _ Hf (CountLinks_run token ino (db w))) as [_ Hr].
  split; [|split].
  - intros E. rewrite E in Hr. exact Hr.
  - intros i Hreach E Hroot. rewrite E in Hr. rewrite Hr.
    destruct (reachable_links_inv _ Hreach) as (Hrefs & _).
    destruct (select_inode_In _ _ _ _ E) as (Hin & _ & En).
    rewrite (Hrefs i Hin); [reflexivity|congruence|discriminate].
  - intros i Hs E Hty. rewrite E in Hr. rewrite Hr.
    destruct (served_store_inv _ Hs) as (_ & _ & _ & _ & Hd).
    destruct (select_inode_In _ _ _ _ E) as (Hin & _).
    rewrite (Hd i Hin Hty). reflexivity.
Qed.

Lemma count_links_returns_the_number_of_names_witness :
  fst (CountLinks "tok" 1002 (run_calls hard_link_calls world0)) = Ok 2
  /\ fst (CountLinks "tok" 1001 sample_world) = Ok 1.
Proof.
  split.
  - destruct (count_links_returns_the_number_of_names
                (run_calls hard_link_calls world0) "tok" 1002 fault_free_nil)
      as (_ & H & _).
    apply (H (mkInode 1002 "tok" NodeTypeFile 420 0 2)).
    + apply (reachable_run_calls hard_link_calls world0 reach_empty).
      simpl. repeat split; reflexivity.
    + reflexivity.
    + discriminate.
  - destruct (count_links_returns_the_number_of_names sample_world "tok" 1001
                fault_free_nil) as (_ & _ & H).
    apply (H (mkInode 1001 "tok" NodeTypeDir 493 0 1) served_sample);
      reflexivity.
Defined.

(** ** Namespaces and their counters *)

Lemma call_step_filesystems d c d' :
  call_step d c d' ->
  filesystems d' = filesystems d
  \/ (exists token,
        filesystems d'
        = filesystems (sql_insert_filesystem d token VTFS_ROOT_INO
                         (VTFS_ROOT_INO + 1)))
  \/ (exists token, filesystems d' = filesystems (sql_increment_next_ino d token)).
Proof.
  destruct c; simpl; intros Hstep.
  1-2: (destruct Hstep as [_ E];
        destruct (insert_inode_lists _ _ _ E) as (_ & Ef & _);
        right; left; exists token; exact Ef).
  - destruct Hstep as (_ & _ & f & d1 & d2 & Hf & E1 & E2 & E3).
    destruct (insert_inode_lists _ _ _ E1) as (_ & Ef1 & _).
    destruct (insert_entry_lists _ _ _ _ _ _ E2) as (Ef2 & _).
    destruct (upsert_content_lists _ _ _ _ _ E3) as (_ & Ef3 & _).
    right; right. exists token. rewrite Ef3. simpl. rewrite Ef2, Ef1. reflexivity.
  - destruct Hstep as (_ & _ & f & d1 & d2 & Hf & E1 & E2 & ->).
    destruct (insert_inode_lists _ _ _ E1) as (_ & Ef1 & _).
    destruct (insert_entry_lists _ _ _ _ _ _ E2) as (Ef2 & _).
    right; right. exists token. simpl. rewrite Ef2, Ef1. reflexivity.
  - left. apply (unlink_step_from d token parentIno name d' Hstep).
  - left. apply (rmdir_step_from d token parentIno name d' Hstep).
  - left. apply (write_step_from d token ino data length offset d' Hstep).
  - left. apply (link_step_from d token targetIno parentIno name d' Hstep).
Qed.

Lemma call_step_namespace d c d' t f :
  call_step d c d' ->
  (exists f', sql_select_filesystem d t = Some f'
              /\ fs_NextIno f <= fs_NextIno f'
              /\ fs_RootIno f' = fs_RootIno f) ->
  exists f', sql_select_filesystem d' t = Some f'
             /\ fs_NextIno f <= fs_NextIno f'
             /\ fs_RootIno f' = fs_RootIno f.
Proof.
  intros Hstep (f1 & Hsel & Hle & Hroot).
  destruct (call_step_filesystems d c d' Hstep) as [E|[(token & E)|(token & E)]].
  - exists f1. unfold sql_select_filesystem in *. rewrite E. auto.
  - exists f1. split; [|auto]. unfold sql_select_filesystem at 1. rewrite E.
    apply (select_fs_insert_old d token _ _ t f1 Hsel).
  - exists (bump_next_ino token f1). split; [|split].
    + unfold sql_select_filesystem at 1. rewrite E.
      fold (sql_select_filesystem (sql_increment_next_ino d token) t).
      rewrite select_fs_increment, Hsel. reflexivity.
    + unfold bump_next_ino. destruct (fs_at token f1); simpl; lia.
    + unfold bump_next_ino. destruct (fs_at token f1); simpl; exact Hroot.
Qed.

(** A namespace, once it exists, exists after every further sequence of
    calls, under every fault plan; its root number stays the same and its
    next_ino counter never decreases.  No operation removes a namespace or
    hands out a number below one that it has handed out before. *)
Theorem namespaces_stay_and_counters_grow :
  forall (cs : list call) (w : World) (token : string) (f : Filesystem),
    sql_select_filesystem (db w) token = Some f ->
    exists f',
      sql_select_filesystem (db (run_calls cs w)) token = Some f'
      /\ fs_NextIno f <= fs_NextIno f'
      /\ fs_RootIno f' = fs_RootIno f.
Proof.
  intros cs w token f Hsel.
  apply (run_calls_keep
           (fun d => exists f', sql_select_filesystem d token = Some f'
                                /\ fs_NextIno f <= fs_NextIno f'
                                /\ fs_RootIno f' = fs_RootIno f)).
  - intros d c d' Hstep H. apply (call_step_namespace d c d' token f Hstep H).
  - exists f. split; [exact Hsel|]. split; [lia|reflexivity].
Qed.

Lemma namespaces_stay_and_counters_grow_witness :
  exists f',
    sql_select_filesystem
      (db (run_calls [CallCreateFile "tok" 1000 "a" 420; CallUnlink "tok" 1000 "a";
                      CallRmdir "tok" 1000 "dir"] sample_world)) "tok" = Some f'
    /\ 1003 <= fs_NextIno f'
    /\ fs_RootIno f' = 1000.
Proof.
  apply (namespaces_stay_and_counters_grow
           [CallCreateFile "tok" 1000 "a" 420; CallUnlink "tok" 1000 "a";
            CallRmdir "tok" 1000 "dir"] sample_world "tok"
           (mkFilesystem "tok" 1000 1003)).
  reflexivity.
Defined.

(** ** Write beyond the allocation limit *)

(** Where Write stops succeeding: when no client call fails, a Write into a
    regular file that has to extend the content to more than the runtime's
    allocation limit (2^48 bytes) panics in make with "makeslice: len out of
    range"; the transaction is rolled back and the store is as it was. *)
Theorem write_past_the_allocation_limit_panics :
  forall (w : World) (token : string) (ino : Z) (data : list byte) (n off : Z)
         (i : Inode),
    fault_free (faults w) ->
    sql_select_inode (db w) token ino = Some i ->
    inode_Type i = NodeTypeFile ->
    0 <= off -> 0 <= n <= len data -> off + n <= MaxInt64 ->
    len (content_of (db w) token ino) < off + n ->
    maxAlloc < off + n ->
    fst (Write token ino data n off w) = Panic "makeslice: len out of range"
    /\ db (snd (Write token ino data n off w)) = db w.
Proof.
  intros w token ino data n off i Hf Hi Hty Hoff Hn Hmax Hlen Halloc.
  pose proof (post_run_ff _ w _ Hf (Write_run token ino data n off (db w)) i) as H.
  cbv zeta in H.
  assert (Hgt : (n >? len data) = false).
  { rewrite Z.gtb_ltb. apply Z.ltb_ge. lia. }
  assert (Hlt : (off <? 0) = false) by (apply Z.ltb_ge; lia).
  specialize (H Hgt Hlt Hi Hty).
  unfold MaxInt64 in Hmax.
  rewrite (wrap64_id n), (wrap64_id (off + n)) in H by lia.
  assert (E1 : (off + n >? len (content_of (db w) token ino)) = true)
    by (apply Z.gtb_lt; exact Hlen).
  assert (E2 : (off + n <=? maxAlloc) = false) by (apply Z.leb_gt; exact Halloc).
  rewrite E1, E2 in H. exact H.
Qed.

Lemma write_past_the_allocation_limit_panics_witness :
  fst (Write "tok" 1002 [x68] 1 (2 ^ 48) sample_world)
  = Panic "makeslice: len out of range"
  /\ db (snd (Write "tok" 1002 [x68] 1 (2 ^ 48) sample_world)) = db sample_world.
Proof.
  apply (write_past_the_allocation_limit_panics sample_world "tok" 1002 [x68] 1
           (2 ^ 48) (mkInode 1002 "tok" NodeTypeFile 2468 0 1)).
  - exact fault_free_nil.
  - reflexivity.
  - reflexivity.
  - lia.
  - unfold len. simpl. lia.
  - unfold MaxInt64. lia.
  - vm_compute. reflexivity.
  - unfold maxAlloc. lia.
Defined.
